(** * rlm-git-commits: the RLM sandbox, the trailer parser and the REPL driver

    A shallow embedding of the TypeScript sources

    - [scripts/lib/rlm-sandbox.ts]   ([sanitizeGitLogArgs], the worker's
      [scopeMatches], [wordBoundaryMatch], [queryIndexForHashes], [done]
      and the [execute] message handler),
    - [scripts/lib/rlm-code-extractor.ts] ([extractCodeBlock]),
    - [scripts/lib/rlm-repl.ts]      ([runRepl]),
    - [scripts/lib/parser.ts]        ([splitHeaderBodyTrailers],
      [parseTrailers], [parseCommitBlock]),
    - [scripts/lib/rlm-config.ts]    ([DEFAULT_CONFIG], [loadRlmConfig],
      [saveRlmConfig]),
    - [scripts/lib/prompt-analyzer.ts] ([tokenize],
      [extractPromptSignals]),
    - [scripts/lib/working-memory.ts] ([loadWorkingMemory], [addEntry],
      [clearWorkingMemory]),
    - [scripts/lib/consolidation.ts] ([collectScopes],
      [decisionsToTrailers], [formatTrailerHints]),

    followed by the properties of these functions.

    Conventions.  A JavaScript string is a [string] whose characters are the
    code units U+0000..U+00FF; [length] is the number of code units.  A JS
    object used as a dictionary is a [gmap string _] of its own properties
    when it is only looked up, and an association list when the order of
    [Object.entries] matters.  Where the key of a lookup is not fixed by
    the code, as in the tables of the trailer index, the lookup goes
    through [getProperty], which also finds the properties of
    [Object.prototype].  A [Set] is the duplicate-free list of its elements
    in insertion order. *)

From Stdlib Require Import ZArith Ascii String List Bool Lia DecimalString.
From stdpp Require Import base option list strings gmap sorting.

Local Open Scope string_scope.
Local Open Scope list_scope.

(** ** The [Result] type of [types.ts] *)

Inductive Result (A E : Type) : Type :=
| Ok (value : A)
| Fail (error : E).
Arguments Ok {A E} value.
Arguments Fail {A E} error.

Definition isOk {A E} (r : Result A E) : bool :=
  match r with Ok _ => true | Fail _ => false end.

(** ** JavaScript string primitives *)

Module Js.

Definition code (c : ascii) : N := N_of_ascii c.

(** [LineTerminator]: LF and CR (U+2028, U+2029 lie outside the range). *)
Definition isLineTerminator (c : ascii) : bool :=
  let n := code c in ((n =? 10) || (n =? 13))%N.

(** What [\s] and [String.prototype.trim] strip: TAB, LF, VT, FF, CR,
    SP and NBSP. *)
Definition isWhiteSpace (c : ascii) : bool :=
  let n := code c in
  ((n =? 9) || (n =? 10) || (n =? 11) || (n =? 12) || (n =? 13)
   || (n =? 32) || (n =? 160))%N.

(** [\w]: ASCII letters, digits and underscore. *)
Definition isWordChar (c : ascii) : bool :=
  let n := code c in
  (((65 <=? n) && (n <=? 90)) || ((97 <=? n) && (n <=? 122))
   || ((48 <=? n) && (n <=? 57)) || (n =? 95))%N.

Definition isAsciiLetter (c : ascii) : bool :=
  let n := code c in
  (((65 <=? n) && (n <=? 90)) || ((97 <=? n) && (n <=? 122)))%N.

(** [toLowerCase] on one code unit: A-Z, and the Latin-1 capitals
    U+00C0..U+00DE without the multiplication sign U+00D7. *)
Definition lowerChar (c : ascii) : ascii :=
  let n := code c in
  if (((65 <=? n) && (n <=? 90))
      || ((192 <=? n) && (n <=? 222) && negb (n =? 215)))%N
  then ascii_of_N (n + 32) else c.

Fixpoint toLowerCase (s : string) : string :=
  match s with
  | EmptyString => EmptyString
  | String c s' => String (lowerChar c) (toLowerCase s')
  end.

(** [s.startsWith(p)] *)
Fixpoint startsWith (s p : string) {struct p} : bool :=
  match p with
  | EmptyString => true
  | String b p' =>
      match s with
      | EmptyString => false
      | String a s' => Ascii.eqb a b && startsWith s' p'
      end
  end.

(** [s[i]]; [None] is [undefined]. *)
Definition charAt (s : string) (i : nat) : option ascii := String.get i s.

(** [s.slice(n)] for [0 <= n]. *)
Fixpoint drop (n : nat) (s : string) : string :=
  match n, s with
  | O, _ => s
  | S n', String _ s' => drop n' s'
  | S _, EmptyString => EmptyString
  end.

(** [s.slice(0, n)] for [0 <= n]. *)
Fixpoint take (n : nat) (s : string) : string :=
  match n, s with
  | S n', String c s' => String c (take n' s')
  | _, _ => EmptyString
  end.

(** [s.indexOf(p)]; [None] is [-1]. *)
Fixpoint indexOf (s p : string) : option nat :=
  if startsWith s p then Some O
  else match s with
       | EmptyString => None
       | String _ s' => option_map S (indexOf s' p)
       end.

Fixpoint trimStart (s : string) : string :=
  match s with
  | String c s' => if isWhiteSpace c then trimStart s' else s
  | EmptyString => EmptyString
  end.

Fixpoint isBlank (s : string) : bool :=
  match s with
  | EmptyString => true
  | String c s' => isWhiteSpace c && isBlank s'
  end.

Fixpoint trimEnd (s : string) : string :=
  match s with
  | EmptyString => EmptyString
  | String c s' => if isBlank s then EmptyString else String c (trimEnd s')
  end.

Definition trim (s : string) : string := trimEnd (trimStart s).

(** [s.split(sep)] for a one-character separator: never the empty list. *)
Fixpoint split (sep : ascii) (s : string) : list string :=
  match s with
  | EmptyString => [EmptyString]
  | String c s' =>
      if Ascii.eqb c sep then EmptyString :: split sep s'
      else match split sep s' with
           | l :: ls => String c l :: ls
           | [] => [String c EmptyString]
           end
  end.

(** [lines.join(sep)] *)
Definition join (sep : string) (l : list string) : string :=
  String.concat sep l.

Definition LF : ascii := ascii_of_N 10.
Definition nl : string := String LF EmptyString.
Definition dquote : string := String (ascii_of_N 34) EmptyString.

(** Truthiness of a value of type [string | null | undefined]. *)
Definition truthy (o : option string) : bool :=
  match o with
  | Some (String _ _) => true
  | _ => false
  end.

(** *** [parseInt(s, 10)] and [String(n)]

    [parseInt] skips leading white space, reads an optional sign and the
    longest run of decimal digits; without a digit the result is [NaN],
    here [None].  The source works on doubles; the model keeps the exact
    integer.  Rounding to a double is monotone and exact below 2^53, so
    the comparison with 1 and [Math.min(n, 50)] give the same result. *)

Definition digitValue (c : ascii) : option Z :=
  let n := code c in
  if ((48 <=? n) && (n <=? 57))%N then Some (Z.of_N n - 48)%Z else None.

Fixpoint parseDigits (s : string) (acc : option Z) : option Z :=
  match s with
  | EmptyString => acc
  | String c s' =>
      match digitValue c with
      | Some d =>
          parseDigits s' (Some (10 * (match acc with Some a => a | None => 0 end) + d)%Z)
      | None => acc
      end
  end.

Definition parseInt (s : string) : option Z :=
  match trimStart s with
  | String "-" r => option_map Z.opp (parseDigits r None)
  | String "+" r => parseDigits r None
  | t => parseDigits t None
  end.

(** [String(n)] for an integer [n]. *)
Definition numberToString (n : Z) : string :=
  NilZero.string_of_int (Z.to_int n).

End Js.

(** ** Regular expressions

    The four regular expressions of the sources are values of [Regex.t],
    run by one backtracking matcher in continuation-passing style: a
    greedy star first takes all it can and gives characters back one at a
    time, an alternative tries its left branch first, and a capturing
    group records the text read between its two ends. *)

Module Regex.

Inductive t : Type :=
| Empty
| Class (p : ascii → bool)
| Then (a b : t)
| Or (a b : t)
| Star (p : ascii → bool)
| Group (n : nat) (a : t)
| LineStart
| LineEnd
| WordBoundary.

(** [a?] and [[class]+] *)
Definition Opt (a : t) : t := Or a Empty.
Definition Plus (p : ascii → bool) : t := Then (Class p) (Star p).

(** A literal text. *)
Fixpoint Lit (s : string) : t :=
  match s with
  | EmptyString => Empty
  | String c s' => Then (Class (λ x, Ascii.eqb x c)) (Lit s')
  end.

(** The concatenation of a list, and the alternation [r|r1|...|rn]. *)
Definition Seq (rs : list t) : t := foldr Then Empty rs.
Fixpoint Alt (r : t) (rs : list t) : t :=
  match rs with
  | [] => r
  | r' :: rs' => Or r (Alt r' rs')
  end.

(** The groups that took part in the match, the latest binding first. *)
Definition Captures : Type := list (nat * string).

Definition capture (n : nat) (caps : Captures) : option string :=
  snd <$> List.find (λ e, Nat.eqb (fst e) n) caps.

(** The text read between [s] and its suffix [rest]. *)
Definition consumed (s rest : string) : string :=
  Js.take (String.length s - String.length rest) s.

(** [^] and [$]; with the [m] flag also after and before a line
    terminator.  [before] is the character in front of the position. *)
Definition atLineStart (multiline : bool) (before : option ascii) : bool :=
  match before with
  | None => true
  | Some c => multiline && Js.isLineTerminator c
  end.

Definition atLineEnd (multiline : bool) (s : string) : bool :=
  match s with
  | EmptyString => true
  | String c _ => multiline && Js.isLineTerminator c
  end.

Definition firstChar (s : string) : option ascii :=
  match s with String c _ => Some c | EmptyString => None end.

(** [\b] between two neighbouring characters; [None] is the edge of the
    text. *)
Definition wordBoundary (before after : option ascii) : bool :=
  let isWord (o : option ascii) :=
    match o with Some c => Js.isWordChar c | None => false end in
  xorb (isWord before) (isWord after).

Definition Cont (R : Type) : Type :=
  option ascii → string → Captures → option R.

Fixpoint starLoop {R} (p : ascii → bool) (before : option ascii)
  (s : string) (caps : Captures) (k : Cont R) : option R :=
  match s with
  | String c s' =>
      if p c then
        match starLoop p (Some c) s' caps k with
        | Some r => Some r
        | None => k before s caps
        end
      else k before s caps
  | EmptyString => k before s caps
  end.

Fixpoint run {R} (multiline : bool) (r : t) (before : option ascii)
  (s : string) (caps : Captures) (k : Cont R) : option R :=
  match r with
  | Empty => k before s caps
  | Class p =>
      match s with
      | String c s' => if p c then k (Some c) s' caps else None
      | EmptyString => None
      end
  | Then a b =>
      run multiline a before s caps
        (λ before' s' caps', run multiline b before' s' caps' k)
  | Or a b =>
      match run multiline a before s caps k with
      | Some res => Some res
      | None => run multiline b before s caps k
      end
  | Star p => starLoop p before s caps k
  | Group n a =>
      run multiline a before s caps
        (λ before' s' caps', k before' s' ((n, consumed s s') :: caps'))
  | LineStart => if atLineStart multiline before then k before s caps else None
  | LineEnd => if atLineEnd multiline s then k before s caps else None
  | WordBoundary =>
      if wordBoundary before (firstChar s) then k before s caps else None
  end.

(** The result of [exec]: where the match starts, the matched text
    ([match[0]]) and the groups. *)
Record Match : Type := {
  index : nat;
  matched : string;
  groups : Captures;
}.

(** A match that starts at the front of [s]. *)
Definition matchHere (multiline : bool) (r : t) (before : option ascii)
  (s : string) : option (string * Captures) :=
  run multiline r before s [] (λ _ rest caps, Some (rest, caps)).

Fixpoint execFrom (multiline : bool) (r : t) (before : option ascii)
  (s : string) (pos : nat) : option Match :=
  match matchHere multiline r before s with
  | Some (rest, caps) =>
      Some {| index := pos; matched := consumed s rest; groups := caps |}
  | None =>
      match s with
      | EmptyString => None
      | String c s' => execFrom multiline r (Some c) s' (S pos)
      end
  end.

(** [re.exec(s)], the leftmost match; [re.test(s)]. *)
Definition exec (multiline : bool) (r : t) (s : string) : option Match :=
  execFrom multiline r None s 0.

Definition test (multiline : bool) (r : t) (s : string) : bool :=
  match exec multiline r s with Some _ => true | None => false end.

(** [.] and the negated class [[^)]] *)
Definition dot (c : ascii) : bool := negb (Js.isLineTerminator c).
Definition notChar (x : ascii) (c : ascii) : bool := negb (Ascii.eqb c x).

End Regex.

(** ** [rlm-sandbox.ts]: git log argument sanitization *)

Definition ALLOWED_GIT_LOG_FLAGS : list string :=
  ["--format"; "--author"; "--since"; "--until"; "--grep"; "--no-merges"; "-n"].

(** [ALLOWED_GIT_LOG_FLAGS.has(flag)] *)
Definition allowedFlag (flag : string) : bool :=
  existsb (String.eqb flag) ALLOWED_GIT_LOG_FLAGS.

(** The character class of [DANGEROUS_CHARS]: pipe, semicolon, ampersand,
    dollar, backtick and backslash. *)
Definition dangerousChar (c : ascii) : bool :=
  existsb (Ascii.eqb c) ["|"; ";"; "&"; "$"; "`"; "\"]%char.

(** [DANGEROUS_CHARS.test(arg)] *)
Fixpoint DANGEROUS_CHARS (arg : string) : bool :=
  match arg with
  | EmptyString => false
  | String c s => dangerousChar c || DANGEROUS_CHARS s
  end.

Inductive SanitizeError : Type :=
| DangerousCharacter (arg : string)
| DisallowedFlag (flag : string)
| InvalidN (next : string).

Definition sanitizeErrorMessage (e : SanitizeError) : string :=
  match e with
  | DangerousCharacter arg => "Dangerous character in git log arg: " ++ arg
  | DisallowedFlag flag => "Disallowed git log flag: " ++ flag
  | InvalidN next => "Invalid -n value: " ++ next
  end.

(** The body of the [for] loop, by recursion on the arguments from index
    [i] on; [sanitized] is the array built so far.  The [-n] branch
    consumes the following argument ([i++]). *)
Fixpoint sanitizeLoop (args : list string) (sanitized : list string)
  : Result (list string) SanitizeError :=
  match args with
  | [] => Ok sanitized
  | arg :: rest =>
      if DANGEROUS_CHARS arg then Fail (DangerousCharacter arg)
      else if Js.startsWith arg "--" then
        let flag := match Js.indexOf arg "=" with
                    | Some eqIdx => Js.take eqIdx arg
                    | None => arg
                    end in
        if allowedFlag flag then sanitizeLoop rest (sanitized ++ [arg])
        else Fail (DisallowedFlag flag)
      else if String.eqb arg "-n" then
        match rest with
        | [] => Ok (sanitized ++ [arg])
        | next :: rest' =>
            match Js.parseInt next with
            | None => Fail (InvalidN next)
            | Some n =>
                if (n <? 1)%Z then Fail (InvalidN next)
                else sanitizeLoop rest'
                       (sanitized ++ [arg; Js.numberToString (Z.min n 50)])
            end
        end
      else if Js.startsWith arg "-" && (String.length arg =? 2)%nat then
        Fail (DisallowedFlag arg)
      else sanitizeLoop rest (sanitized ++ [arg])
  end.

Definition sanitizeGitLogArgs (args : list string)
  : Result (list string) SanitizeError :=
  sanitizeLoop args [].

(** *** The sanitizer on the arguments of a message

    The host calls [sanitizeGitLogArgs(msg.args)] on what the code in the
    worker gave to [gitLog], which need not be an array of strings.  An
    element of [msg.args], as the structured clone delivers it, is a
    string, a [String] object, [undefined], or some other value (a number,
    [null], an array, an object), given by what [String(_)] makes of
    it. *)
Inductive GitLogArg : Type :=
| ArgString (s : string)
| ArgStringObject (s : string)
| ArgUndefined
| ArgOther (asString : string).

(** [String(arg)], as in a template literal, [RegExp.prototype.test] and
    [parseInt]. *)
Definition argText (arg : GitLogArg) : string :=
  match arg with
  | ArgString s | ArgStringObject s => s
  | ArgUndefined => "undefined"
  | ArgOther asString => asString
  end.

(** [arg === "-n"]: a [String] object is not equal to a string. *)
Definition isDashN (arg : GitLogArg) : bool :=
  match arg with
  | ArgString s => String.eqb s "-n"
  | _ => false
  end.

(** The loop of [sanitizeGitLogArgs] on such elements; [None] is the
    [TypeError] of [arg.startsWith] on a value that has no such method.
    The [-n] branch reads the next element through [parseInt] and the
    template literal only, and leaves an [undefined] one to the next
    turn.  A [String] object is pushed as it is; [sanitized] holds its
    text. *)
Fixpoint sanitizeMessageLoop (args : list GitLogArg) (sanitized : list string)
  : option (Result (list string) SanitizeError) :=
  match args with
  | [] => Some (Ok sanitized)
  | arg :: rest =>
      if DANGEROUS_CHARS (argText arg)
      then Some (Fail (DangerousCharacter (argText arg)))
      else
        match arg with
        | ArgUndefined | ArgOther _ => None
        | ArgString s | ArgStringObject s =>
            if Js.startsWith s "--" then
              let flag := match Js.indexOf s "=" with
                          | Some eqIdx => Js.take eqIdx s
                          | None => s
                          end in
              if allowedFlag flag
              then sanitizeMessageLoop rest (sanitized ++ [s])
              else Some (Fail (DisallowedFlag flag))
            else if isDashN arg then
              match rest with
              | [] => Some (Ok (sanitized ++ [s]))
              | ArgUndefined :: _ =>
                  sanitizeMessageLoop rest (sanitized ++ [s])
              | next :: rest' =>
                  match Js.parseInt (argText next) with
                  | None => Some (Fail (InvalidN (argText next)))
                  | Some n =>
                      if (n <? 1)%Z then Some (Fail (InvalidN (argText next)))
                      else sanitizeMessageLoop rest'
                             (sanitized ++ [s; Js.numberToString (Z.min n 50)])
                  end
              end
            else if Js.startsWith s "-" && (String.length s =? 2)%nat then
              Some (Fail (DisallowedFlag s))
            else sanitizeMessageLoop rest (sanitized ++ [s])
        end
  end.

(** [sanitizeGitLogArgs(msg.args)]; [msg.args] is the array of the
    elements given, or, for a value that is not an array, of what its
    indices below [length] hold. *)
Definition sanitizeMessageArgs (args : list GitLogArg)
  : option (Result (list string) SanitizeError) :=
  sanitizeMessageLoop args [].

(** [prependOk pre r]: the successful result [r] with [pre] in front. *)
Definition prependOk {E} (pre : list string) (r : Result (list string) E)
  : Result (list string) E :=
  match r with
  | Ok out => Ok (pre ++ out)
  | Fail e => Fail e
  end.

(** The text of a [--flag=value] argument before the first [=]. *)
Definition flagPortion (arg : string) : string :=
  match Js.indexOf arg "=" with
  | Some eqIdx => Js.take eqIdx arg
  | None => arg
  end.

(** An argument such as [-n500] or [-x5]: one dash, more than two
    characters. *)
Definition singleDashLong (arg : string) : bool :=
  Js.startsWith arg "-" && negb (Js.startsWith arg "--")
  && (2 <? String.length arg)%nat.

(** A dash and one more character. *)
Definition singleLetterFlag (arg : string) : bool :=
  Js.startsWith arg "-" && (String.length arg =? 2)%nat.

(** What is checked of a pushed count: no dangerous character, different
    from the flag itself, and a decimal numeral between 1 and 50. *)
Definition cappedCount (s : string) : bool :=
  negb (DANGEROUS_CHARS s) && negb (String.eqb s "-n")
  && match Js.parseInt s with
     | Some v => (1 <=? v)%Z && (v <=? 50)%Z
     | None => false
     end.

(** Every [-n] of the output is its last element or is followed by a
    capped count. *)
Fixpoint countsCapped (out : list string) : Prop :=
  match out with
  | [] => True
  | a :: rest =>
      (a = "-n" → match rest with
                  | [] => True
                  | v :: _ => cappedCount v = true
                  end)
      ∧ countsCapped rest
  end.

(** ** [rlm-sandbox.ts]: the worker's matching and query functions

    [buildWorkerSource] holds these functions as JavaScript text; they are
    embedded as the functions the text defines. *)

(** [scopeMatches(sv, pat)] *)
Definition scopeMatches (sv pat : string) : bool :=
  let s := Js.toLowerCase sv in
  let p := Js.toLowerCase pat in
  String.eqb s p
  || (Js.startsWith s p
      && match Js.charAt s (String.length p) with
         | Some c => Ascii.eqb c "/"
         | None => false
         end).

(** Case folding of a regular expression with the [i] flag (without [u]):
    a character is compared through its upper-case form.  The two Latin-1
    letters whose capital lies beyond U+00FF (micro sign, y with diaeresis)
    and the sharp s, whose capital has two code units, match only
    themselves, as they do here. *)
Definition canonicalize (c : ascii) : ascii :=
  let n := Js.code c in
  if (((97 <=? n) && (n <=? 122))
      || ((224 <=? n) && (n <=? 254) && negb (n =? 247)))%N
  then ascii_of_N (n - 32) else c.

(** The escaped keyword: each character stands for itself, and is compared
    through its canonical form. *)
Fixpoint LitIgnoreCase (kw : string) : Regex.t :=
  match kw with
  | EmptyString => Regex.Empty
  | String k kw' =>
      Regex.Then
        (Regex.Class (λ c, Ascii.eqb (canonicalize c) (canonicalize k)))
        (LitIgnoreCase kw')
  end.

(** [wordBoundaryMatch(text, kw)]:
    [new RegExp('\\b' + esc + '\\b', 'i').test(text)] *)
Definition wordBoundaryMatch (text kw : string) : bool :=
  Regex.test false
    (Regex.Seq [Regex.WordBoundary; LitIgnoreCase kw; Regex.WordBoundary])
    text.

Record IndexedCommit : Type := {
  hash : string;
  date : string;
  subject : string;
  intent : option string;
  scope : list string;
  session : option string;
  decidedAgainst : list string;
}.

Record TrailerIndex : Type := {
  version : Z;
  generated : string;
  headCommit : string;
  commitCount : Z;
  byIntent : gmap string (list string);
  byScope : list (string * list string);
  bySession : gmap string (list string);
  withDecidedAgainst : list string;
  commits : gmap string IndexedCommit;
}.

(** The parameter object of [query]; [None] is an absent property. *)
Record QueryParams : Type := {
  p_scope : option string;
  p_intents : option (list string);
  p_session : option string;
  p_decidedAgainst : option string;
  p_limit : option Z;
}.

(** [s.add(h)] on a set kept in insertion order. *)
Definition setAdd (s : list string) (h : string) : list string :=
  if bool_decide (h ∈ s) then s else s ++ [h].

(** [new Set(hs)] *)
Definition newSet (hs : list string) : list string := fold_left setAdd hs [].

(** The closure [intersect] with the variable [cands] it updates. *)
Definition intersect (cands : option (list string)) (hs : list string)
  : option (list string) :=
  let s := newSet hs in
  match cands with
  | None => Some s
  | Some c => Some (List.filter (λ h, bool_decide (h ∈ s)) c)
  end.

(** [arr.slice(0, e)] for an integer [e]; a negative [e] counts from the
    end. *)
Definition sliceTo {A} (l : list A) (e : Z) : list A :=
  if (e <? 0)%Z then take (Z.to_nat (Z.of_nat (length l) + e)) l
  else take (Z.to_nat e) l.

(** [p.limit || 20] *)
Definition limitOrDefault (limit : option Z) : Z :=
  match limit with
  | Some 0%Z | None => 20
  | Some n => n
  end.

(** *** Property access on the tables of the index

    The index reaches the worker by structured clone: its tables are plain
    objects, and [obj[key]] finds an own property, or else a property of
    [Object.prototype], or else nothing.  The properties of
    [Object.prototype] are the methods listed here and the accessor
    [__proto__]; Deno deletes the accessor unless it is started with
    [--unstable-unsafe-proto], which [unsafeProto] stands for.  The
    prototype is the one the worker starts with. *)

Definition OBJECT_PROTOTYPE_METHODS : list string :=
  ["constructor"; "hasOwnProperty"; "isPrototypeOf"; "propertyIsEnumerable";
   "toLocaleString"; "toString"; "valueOf"; "__defineGetter__";
   "__defineSetter__"; "__lookupGetter__"; "__lookupSetter__"].

(** What [obj[key]] finds: the value of an own property, a value inherited
    from [Object.prototype] (a function, or the prototype itself), or
    [undefined]. *)
Inductive Property (A : Type) : Type :=
| OwnProperty (value : A)
| InheritedProperty
| NoProperty.
Arguments OwnProperty {A} value.
Arguments InheritedProperty {A}.
Arguments NoProperty {A}.

(** The [TypeError] of a query: the value found where the hashes of a key
    were expected cannot be iterated, or the value found where a commit
    was expected has no [decidedAgainst] array. *)
Inductive TypeError : Type :=
| NotIterable (key : string)
| NoDecidedAgainst (key : string).

(** An element of the array [query] returns: a commit of the index, or the
    inherited value that [index.commits[h]] found. *)
Inductive QueryResult : Type :=
| StoredCommit (commit : IndexedCommit)
| InheritedValue (key : string).

(** [Object.entries(idx.byScope)] holds own properties only. *)
Definition scopeHashes (idx : TrailerIndex) (pat : string) : list string :=
  concat (map snd (List.filter (λ e, scopeMatches (fst e) pat) (byScope idx))).

Section Query.

Variable unsafeProto : bool.

(** [key] names a property of [Object.prototype]. *)
Definition onPrototype (key : string) : bool :=
  existsb (String.eqb key) OBJECT_PROTOTYPE_METHODS
  || (unsafeProto && String.eqb key "__proto__").

(** [obj[key]] *)
Definition getProperty {A} (obj : gmap string A) (key : string)
  : Property A :=
  match obj !! key with
  | Some value => OwnProperty value
  | None => if onPrototype key then InheritedProperty else NoProperty
  end.

(** Iterating [obj[key] || []]: an inherited value is truthy, so it is
    the value iterated, and it is not iterable. *)
Definition hashesAt (obj : gmap string (list string)) (key : string)
  : Result (list string) TypeError :=
  match getProperty obj key with
  | OwnProperty hs => Ok hs
  | NoProperty => Ok []
  | InheritedProperty => Fail (NotIterable key)
  end.

(** The hashes collected for each filter.

    [for (const i of p.intents) { for (const h of (idx.byIntent[i]||[]))
    ih.add(h); }], from the set [ih] built so far. *)
Fixpoint intentHashesFrom (idx : TrailerIndex) (intents : list string)
  (ih : list string) : Result (list string) TypeError :=
  match intents with
  | [] => Ok ih
  | i :: intents' =>
      match hashesAt (byIntent idx) i with
      | Ok hs => intentHashesFrom idx intents' (fold_left setAdd hs ih)
      | Fail e => Fail e
      end
  end.

Definition intentHashes (idx : TrailerIndex) (intents : list string)
  : Result (list string) TypeError :=
  intentHashesFrom idx intents [].

(** [idx.bySession[p.session] || []], which [intersect] hands to
    [new Set]. *)
Definition sessionHashes (idx : TrailerIndex) (s : string)
  : Result (list string) TypeError :=
  hashesAt (bySession idx) s.

(** The loop over [idx.withDecidedAgainst], from the array [m] built so
    far.  An inherited value [c] is truthy and has no [decidedAgainst]:
    [c.decidedAgainst.some] throws. *)
Fixpoint decidedAgainstFrom (idx : TrailerIndex) (kw : string)
  (hs : list string) (m : list string) : Result (list string) TypeError :=
  match hs with
  | [] => Ok m
  | h :: hs' =>
      match getProperty (commits idx) h with
      | OwnProperty c =>
          decidedAgainstFrom idx kw hs'
            (if existsb (λ d, wordBoundaryMatch d kw) (decidedAgainst c)
             then m ++ [h] else m)
      | NoProperty => decidedAgainstFrom idx kw hs' m
      | InheritedProperty => Fail (NoDecidedAgainst h)
      end
  end.

Definition decidedAgainstHashes (idx : TrailerIndex) (kw : string)
  : Result (list string) TypeError :=
  decidedAgainstFrom idx kw (withDecidedAgainst idx) [].

(** The candidate set after the four filters, before the final slice. *)
Definition queryCandidates (idx : TrailerIndex) (p : QueryParams)
  : Result (option (list string)) TypeError :=
  let cands := None in
  match
    match p_intents p with
    | Some (i :: is') =>
        match intentHashes idx (i :: is') with
        | Ok ih => Ok (intersect cands ih)
        | Fail e => Fail e
        end
    | _ => Ok cands
    end
  with
  | Fail e => Fail e
  | Ok cands =>
      match
        match p_session p with
        | Some (String c s) =>
            match sessionHashes idx (String c s) with
            | Ok hs => Ok (intersect cands hs)
            | Fail e => Fail e
            end
        | _ => Ok cands
        end
      with
      | Fail e => Fail e
      | Ok cands =>
          match
            match p_decidedAgainst p with
            | Some (String c s) =>
                match decidedAgainstHashes idx (String c s) with
                | Ok m => Ok (intersect cands m)
                | Fail e => Fail e
                end
            | _ => Ok cands
            end
          with
          | Fail e => Fail e
          | Ok cands =>
              Ok match p_scope p with
                 | Some (String c s) =>
                     intersect cands (scopeHashes idx (String c s))
                 | _ => cands
                 end
          end
      end
  end.

(** [queryIndexForHashes(idx, p)] *)
Definition queryIndexForHashes (idx : TrailerIndex) (p : QueryParams)
  : Result (list string) TypeError :=
  match queryCandidates idx p with
  | Fail e => Fail e
  | Ok None => Ok []
  | Ok (Some cands) => Ok (sliceTo cands (limitOrDefault (p_limit p)))
  end.

(** [hs.map(h => index.commits[h]).filter(Boolean)]: a missing commit is
    dropped, an inherited value is truthy and stays. *)
Definition commitsOf (index : TrailerIndex) (hs : list string)
  : list QueryResult :=
  omap (λ h, match getProperty (commits index) h with
             | OwnProperty c => Some (StoredCommit c)
             | InheritedProperty => Some (InheritedValue h)
             | NoProperty => None
             end) hs.

(** [query(params)] of the worker, for a loaded index. *)
Definition query (index : TrailerIndex) (params : QueryParams)
  : Result (list QueryResult) TypeError :=
  match queryIndexForHashes index params with
  | Ok hs => Ok (commitsOf index hs)
  | Fail e => Fail e
  end.

End Query.

(** The index of the test fixtures. *)
Definition fixtureIndex : TrailerIndex := {|
  version := 1;
  generated := "2025-01-01T00:00:00Z";
  headCommit := "abc123";
  commitCount := 3;
  byIntent := list_to_map
    [("fix-defect", ["aaa"; "bbb"]); ("enable-capability", ["ccc"])];
  byScope := [("auth", ["aaa"; "ccc"]); ("auth/login", ["aaa"]);
              ("cache", ["bbb"])];
  bySession := list_to_map [("s1", ["aaa"; "bbb"])];
  withDecidedAgainst := ["bbb"];
  commits := list_to_map
    [("aaa", {| hash := "aaa"; date := "2025-01-03";
                subject := "fix auth bug"; intent := Some "fix-defect";
                scope := ["auth"; "auth/login"]; session := Some "s1";
                decidedAgainst := [] |});
     ("bbb", {| hash := "bbb"; date := "2025-01-02";
                subject := "fix cache ttl"; intent := Some "fix-defect";
                scope := ["cache"]; session := Some "s1";
                decidedAgainst := ["Redis sentinel"] |});
     ("ccc", {| hash := "ccc"; date := "2025-01-01";
                subject := "add login page";
                intent := Some "enable-capability";
                scope := ["auth"]; session := None;
                decidedAgainst := [] |})];
|}.


(** The hashes that each filter stands for, read from the own properties
    of the index. *)
Definition ownIntentHashes (idx : TrailerIndex) (intents : list string)
  : list string :=
  fold_left (λ ih i, fold_left setAdd (default [] (byIntent idx !! i)) ih)
    intents [].

Definition ownSessionHashes (idx : TrailerIndex) (s : string) : list string :=
  default [] (bySession idx !! s).

Definition ownDecidedAgainstHashes (idx : TrailerIndex) (kw : string)
  : list string :=
  List.filter
    (λ h, match commits idx !! h with
          | Some c => existsb (λ d, wordBoundaryMatch d kw) (decidedAgainst c)
          | None => false
          end)
    (withDecidedAgainst idx).

(** The hash lists of the filters that are present, in the order in which
    [queryIndexForHashes] applies them.  A filter is present when its
    property is truthy: a non-empty array of intents, a non-empty string. *)
Definition presentFilters (idx : TrailerIndex) (p : QueryParams)
  : list (list string) :=
  match p_intents p with
  | Some (i :: is') => [ownIntentHashes idx (i :: is')]
  | _ => []
  end
  ++ match p_session p with
     | Some (String c s) => [ownSessionHashes idx (String c s)]
     | _ => []
     end
  ++ match p_decidedAgainst p with
     | Some (String c s) => [ownDecidedAgainstHashes idx (String c s)]
     | _ => []
     end
  ++ match p_scope p with
     | Some (String c s) => [scopeHashes idx (String c s)]
     | _ => []
     end.

(** [key] is not an own property of [obj] and names a property of
    [Object.prototype]. *)
Definition inherited {A} (unsafeProto : bool) (obj : gmap string A)
  (key : string) : bool :=
  match obj !! key with
  | Some _ => false
  | None => onPrototype unsafeProto key
  end.

(** The query looks up an inherited property: under a given intent or the
    given session, or, with the [decidedAgainst] filter present, under a
    hash of [withDecidedAgainst]. *)
Definition reachesPrototype (unsafeProto : bool) (idx : TrailerIndex)
  (p : QueryParams) : bool :=
  match p_intents p with
  | Some intents => existsb (inherited unsafeProto (byIntent idx)) intents
  | None => false
  end
  || match p_session p with
     | Some (String c s) => inherited unsafeProto (bySession idx) (String c s)
     | _ => false
     end
  || match p_decidedAgainst p with
     | Some (String c s) =>
         existsb (inherited unsafeProto (commits idx)) (withDecidedAgainst idx)
     | _ => false
     end.

(** What it means for a hash to pass each filter. *)
Definition passesIntents (idx : TrailerIndex) (intents : list string)
  (h : string) : Prop :=
  ∃ i hs, i ∈ intents ∧ byIntent idx !! i = Some hs ∧ h ∈ hs.

Definition passesSession (idx : TrailerIndex) (s : string) (h : string)
  : Prop :=
  ∃ hs, bySession idx !! s = Some hs ∧ h ∈ hs.

Definition passesDecidedAgainst (idx : TrailerIndex) (kw : string)
  (h : string) : Prop :=
  h ∈ withDecidedAgainst idx
  ∧ ∃ c d, commits idx !! h = Some c ∧ d ∈ decidedAgainst c
           ∧ wordBoundaryMatch d kw = true.

Definition passesScope (idx : TrailerIndex) (pat : string) (h : string)
  : Prop :=
  ∃ k hs, (k, hs) ∈ byScope idx ∧ scopeMatches k pat = true ∧ h ∈ hs.

Definition passesAll (idx : TrailerIndex) (p : QueryParams) (h : string)
  : Prop :=
  (∀ i is', p_intents p = Some (i :: is') → passesIntents idx (i :: is') h)
  ∧ (∀ c s, p_session p = Some (String c s) →
            passesSession idx (String c s) h)
  ∧ (∀ c s, p_decidedAgainst p = Some (String c s) →
            passesDecidedAgainst idx (String c s) h)
  ∧ (∀ c s, p_scope p = Some (String c s) → passesScope idx (String c s) h).

(** Membership in every list of [fs]. *)
Definition inEvery (fs : list (list string)) (h : string) : bool :=
  forallb (λ l, bool_decide (h ∈ l)) fs.



(** ** [parser.ts]: structured commits *)

(** A parsed JSON value, as far as the sources look at it. *)
#[warnings="-register-all"]
Inductive Json : Type :=
| JNull
| JBool (b : bool)
| JNumber (n : Z)
| JString (s : string)
| JArray (items : list Json)
| JObject (props : list (string * Json)).

(** Modelled from the spec: [INTENT_TYPES] of [types.ts], the controlled
    vocabulary of eight intents (the validator script carries the same
    list). *)
Definition INTENT_TYPES : list string :=
  ["enable-capability"; "fix-defect"; "improve-quality"; "restructure";
   "configure-infra"; "document"; "explore"; "resolve-blocker"].

(** Modelled from the spec: [KNOWN_TRAILER_KEYS] of [types.ts], the
    allow-list of lower-cased trailer keys. *)
Definition KNOWN_TRAILER_KEYS : list string :=
  ["intent"; "scope"; "decided-against"; "session"; "refs"; "context";
   "breaking"; "signed-off-by"; "co-authored-by"].

(** [HEADER_RE]:
    [^(feat|fix|refactor|perf|docs|test|build|ci|chore|revert)(?:\(([^)]+)\))?!?:\s+(.+)$] *)
Definition HEADER_RE : Regex.t :=
  Regex.Seq
    [Regex.LineStart;
     Regex.Group 1
       (Regex.Alt (Regex.Lit "feat")
          (map Regex.Lit ["fix"; "refactor"; "perf"; "docs"; "test"; "build";
                          "ci"; "chore"; "revert"]));
     Regex.Opt
       (Regex.Seq [Regex.Lit "(";
                   Regex.Group 2 (Regex.Plus (Regex.notChar ")"));
                   Regex.Lit ")"]);
     Regex.Opt (Regex.Lit "!");
     Regex.Lit ":";
     Regex.Plus Js.isWhiteSpace;
     Regex.Group 3 (Regex.Plus Regex.dot);
     Regex.LineEnd].

Definition isTrailerKeyChar (c : ascii) : bool :=
  Js.isAsciiLetter c || Ascii.eqb c "-".

(** [TRAILER_RE]: at the start a first group of one ASCII letter and then
    letters or hyphens, [\s*], a colon, [\s*], a second group [.+] and the
    end of the text. *)
Definition TRAILER_RE : Regex.t :=
  Regex.Seq
    [Regex.LineStart;
     Regex.Group 1
       (Regex.Then (Regex.Class Js.isAsciiLetter)
          (Regex.Star isTrailerKeyChar));
     Regex.Star Js.isWhiteSpace;
     Regex.Lit ":";
     Regex.Star Js.isWhiteSpace;
     Regex.Group 2 (Regex.Plus Regex.dot);
     Regex.LineEnd].

(** [isIntentType(value)] *)
Definition isIntentType (value : string) : bool :=
  existsb (String.eqb value) INTENT_TYPES.

(** [KNOWN_TRAILER_KEYS.has(key)] *)
Definition knownTrailerKey (key : string) : bool :=
  existsb (String.eqb key) KNOWN_TRAILER_KEYS.

(** [TRAILER_RE.exec(line)] as the pair of its two groups. *)
Definition execTrailer (line : string) : option (string * string) :=
  match Regex.exec false TRAILER_RE line with
  | Some m =>
      match Regex.capture 1 (Regex.groups m), Regex.capture 2 (Regex.groups m) with
      | Some key, Some value => Some (key, value)
      | _, _ => None
      end
  | None => None
  end.

(** [parseTrailers(lines)] *)
Definition parseTrailers (lines : list string) : gmap string (list string) :=
  fold_left
    (λ (trailers : gmap string (list string)) line,
       match execTrailer (Js.trim line) with
       | Some (key, value) =>
           let normalizedKey := Js.toLowerCase key in
           if knownTrailerKey normalizedKey
           then <[normalizedKey :=
                    default [] (trailers !! normalizedKey) ++ [Js.trim value]]>
                  trailers
           else trailers
       | None => trailers
       end)
    lines ∅.

(** The test made of a line in [splitHeaderBodyTrailers]:
    [TRAILER_RE] matches and the lower-cased key is known. *)
Definition recognizedTrailer (trimmed : string) : bool :=
  match execTrailer trimmed with
  | Some (key, _) => knownTrailerKey (Js.toLowerCase key)
  | None => false
  end.

(** [lines[i]] for an index within the array. *)
Definition lineAt (lines : list string) (i : nat) : string :=
  nth i lines EmptyString.

(** The loop that steps [i] down over the lines that are empty once
    trimmed, with [n = i + 1]. *)
Fixpoint skipBlankBack (lines : list string) (n : nat) : nat :=
  match n with
  | O => O
  | S i =>
      if String.eqb (Js.trim (lineAt lines i)) EmptyString
      then skipBlankBack lines i
      else n
  end.

(** The main loop [while (i >= 0)] with [n = i + 1]; the result is the
    final [trailerStart]. *)
Fixpoint scanBack (lines : list string) (n : nat) (trailerStart : nat) : nat :=
  match n with
  | O => trailerStart
  | S i =>
      let trimmed := Js.trim (lineAt lines i) in
      if String.eqb trimmed EmptyString then
        match skipBlankBack lines i with
        | S j =>
            if recognizedTrailer (Js.trim (lineAt lines j))
            then scanBack lines i trailerStart
            else trailerStart
        | O => trailerStart
        end
      else if recognizedTrailer trimmed then scanBack lines i i
      else length lines
  end.

Definition findTrailerStart (lines : list string) : nat :=
  scanBack lines (skipBlankBack lines (length lines)) (length lines).

Definition nonEmpty (s : string) : bool :=
  negb (String.eqb s EmptyString).

(** [splitHeaderBodyTrailers(rawBody)] *)
Definition splitHeaderBodyTrailers (rawBody : string)
  : string * list string :=
  let lines := Js.split Js.LF rawBody in
  let trailerStart := findTrailerStart lines in
  let body := Js.trim (Js.join Js.nl (take trailerStart lines)) in
  let trailerLines :=
    List.filter nonEmpty (map Js.trim (drop trailerStart lines)) in
  (body, trailerLines).

Module Commit.

Record StructuredCommit : Type := {
  hash : string;
  date : string;
  type : string;
  headerScope : option string;
  subject : string;
  body : string;
  intent : option string;
  scope : list string;
  decidedAgainst : list string;
  session : option string;
  refs : list string;
  context : option Json;
  breaking : option string;
  raw : string;
}.

Record ParseError : Type := {
  e_hash : string;
  reason : string;
  e_raw : string;
}.

End Commit.

Definition missingFieldsReason : string :=
  "Missing required fields (Hash, Date, or Subject)".

Definition nonConventionalReason (fullSubject : string) : string :=
  "Subject doesn't match Conventional Commits format: "
  ++ Js.dquote ++ fullSubject ++ Js.dquote.

(** [lines.findIndex(l => l.startsWith(prefix))] *)
Fixpoint findIndex (f : string → bool) (lines : list string) : option nat :=
  match lines with
  | [] => None
  | l :: ls => if f l then Some O else S <$> findIndex f ls
  end.

(** [raw.split(",").map(s => s.trim()).filter(Boolean)] *)
Definition splitCommaList (raw : string) : list string :=
  List.filter nonEmpty (map Js.trim (Js.split "," raw)).

(** [trailers[key]?.[0]] *)
Definition firstValue (trailers : gmap string (list string)) (key : string)
  : option string :=
  trailers !! key ≫= head.

Section Parser.

(** [JSON.parse]; [None] when it throws. *)
Variable JSON_parse : string → option Json.

(** [parseContextJson(raw)] *)
Definition parseContextJson (raw : string) : option Json :=
  match JSON_parse raw with
  | Some (JObject props) => Some (JObject props)
  | Some (JArray items) => Some (JArray items)
  | _ => None
  end.

(** [parseCommitBlock(block)] *)
Definition parseCommitBlock (block : string)
  : Result Commit.StructuredCommit Commit.ParseError :=
  let lines := Js.split Js.LF (Js.trim block) in
  let hashLine := List.find (λ l, Js.startsWith l "Hash: ") lines in
  let dateLine := List.find (λ l, Js.startsWith l "Date: ") lines in
  let subjectLine := List.find (λ l, Js.startsWith l "Subject: ") lines in
  match hashLine, dateLine, subjectLine with
  | Some hashLine, Some dateLine, Some subjectLine =>
      let hash := Js.trim (Js.drop 6 hashLine) in
      let date := Js.trim (Js.drop 6 dateLine) in
      let fullSubject := Js.trim (Js.drop 9 subjectLine) in
      match Regex.exec false HEADER_RE fullSubject with
      | None =>
          Fail {| Commit.e_hash := hash;
                  Commit.reason := nonConventionalReason fullSubject;
                  Commit.e_raw := block |}
      | Some headerMatch =>
          let caps := Regex.groups headerMatch in
          let type := default EmptyString (Regex.capture 1 caps) in
          let headerScope := Regex.capture 2 caps in
          let subject := default EmptyString (Regex.capture 3 caps) in
          let subjectIndex :=
            default O (findIndex (λ l, Js.startsWith l "Subject: ") lines) in
          let rawBody := Js.join Js.nl (drop (subjectIndex + 1) lines) in
          let '(body, trailerLines) := splitHeaderBodyTrailers rawBody in
          let trailers := parseTrailers trailerLines in
          let intentRaw := firstValue trailers "intent" in
          let intent :=
            match intentRaw with
            | Some i => if Js.truthy intentRaw && isIntentType i
                        then Some i else None
            | None => None
            end in
          let scopeRaw := default EmptyString (firstValue trailers "scope") in
          let scope := splitCommaList scopeRaw in
          let decidedAgainst := default [] (trailers !! "decided-against") in
          let session := firstValue trailers "session" in
          let refsRaw := default EmptyString (firstValue trailers "refs") in
          let refs := splitCommaList refsRaw in
          let contextRaw := firstValue trailers "context" in
          let context :=
            match contextRaw with
            | Some c => if Js.truthy contextRaw then parseContextJson c
                        else None
            | None => None
            end in
          let breaking := firstValue trailers "breaking" in
          Ok {| Commit.hash := hash;
                Commit.date := date;
                Commit.type := type;
                Commit.headerScope := headerScope;
                Commit.subject := subject;
                Commit.body := body;
                Commit.intent := intent;
                Commit.scope := scope;
                Commit.decidedAgainst := decidedAgainst;
                Commit.session := session;
                Commit.refs := refs;
                Commit.context := context;
                Commit.breaking := breaking;
                Commit.raw := block |}
      end
  | hashLine, _, _ =>
      Fail {| Commit.e_hash :=
                match hashLine with
                | Some l => Js.drop 6 l
                | None => "unknown"
                end;
              Commit.reason := missingFieldsReason;
              Commit.e_raw := block |}
  end.

End Parser.

(** The commit block of the webhook scenario. *)
Definition webhookBlock : string :=
  Js.join Js.nl
    ["Hash: abc123def456";
     "Date: 2025-02-08T10:30:00+00:00";
     "Subject: feat(api): add webhook endpoint";
     EmptyString;
     "Configure via WEBHOOK_URL: https://example.com";
     EmptyString;
     "Intent: enable-capability";
     "Scope: api/webhooks"].

(** A line of the body: not blank and not a recognized trailer. *)
Definition bodyLine (line : string) : bool :=
  nonEmpty (Js.trim line) && negb (recognizedTrailer (Js.trim line)).

(** The lines that [parseCommitBlock] looks at. *)
Definition blockLines (block : string) : list string :=
  Js.split Js.LF (Js.trim block).

(** Some line of the block starts with [prefix]. *)
Definition hasLine (prefix : string) (block : string) : bool :=
  existsb (λ l, Js.startsWith l prefix) (blockLines block).

(** One of the three required lines is absent. *)
Definition lacksRequiredLine (block : string) : bool :=
  negb (hasLine "Hash: " block && hasLine "Date: " block
        && hasLine "Subject: " block).

(** The text of the first subject line. *)
Definition subjectText (block : string) : option string :=
  (λ l, Js.trim (Js.drop 9 l))
    <$> List.find (λ l, Js.startsWith l "Subject: ") (blockLines block).

(** The subject matches the conventional-commit header. *)
Definition conventional (fullSubject : string) : bool :=
  Regex.test false HEADER_RE fullSubject.

(** ** [rlm-code-extractor.ts] *)

(** [openPattern]: with the [m] flag, a line that starts with three
    backticks, then [js] or [javascript] or nothing, then [\s*] up to the
    end of a line. *)
Definition openPattern : Regex.t :=
  Regex.Seq
    [Regex.LineStart;
     Regex.Lit "```";
     Regex.Opt (Regex.Or (Regex.Lit "js") (Regex.Lit "javascript"));
     Regex.Star Js.isWhiteSpace;
     Regex.LineEnd].

(** [extractCodeBlock(response)]; [None] is [null]. *)
Definition extractCodeBlock (response : string) : option string :=
  match Regex.exec true openPattern response with
  | None => None
  | Some openMatch =>
      let codeStart :=
        (Regex.index openMatch + String.length (Regex.matched openMatch))%nat in
      let rest := Js.drop codeStart response in
      let code :=
        match Js.indexOf rest (String Js.LF "```") with
        | Some closeIdx => Js.take closeIdx rest
        | None => rest
        end in
      let trimmed := Js.trim code in
      if (0 <? String.length trimmed)%nat then Some trimmed else None
  end.

(** ** [rlm-sandbox.ts]: one execution in the worker and on the host *)

Inductive Role : Type := system | user | assistant.

Record ChatMessage : Type := {
  role : Role;
  content : string;
}.

(** A JavaScript value handed to [done] or returned by the code: a string,
    or anything else together with what [String(_)] makes of it. *)
Inductive JsValue : Type :=
| VString (s : string)
| VOther (asString : string).

Module SandboxOutput.
Record t : Type := {
  stdout : string;
  returnValue : option JsValue;
  error : option string;
  done : bool;
  doneAnswer : option string;
}.
End SandboxOutput.

(** [done(answer)] of the worker: the new value of [doneSignal]. *)
Definition done (answer : JsValue) : option string :=
  Some match answer with
       | VString s => s
       | VOther asString => asString
       end.

(** [doneSignal] at the end of an execution: [null] after the reset, then
    set by each call of [done]. *)
Definition doneSignalAfter (doneCalls : list JsValue) : option string :=
  fold_left (λ _ answer, done answer) doneCalls None.

(** The [output] of the worker's [result] message. *)
Definition workerOutput (stdoutBuffer : string) (rv : option JsValue)
  (err : option string) (doneSignal : option string) : SandboxOutput.t :=
  {| SandboxOutput.stdout := stdoutBuffer;
     SandboxOutput.returnValue := rv;
     SandboxOutput.error := err;
     SandboxOutput.done :=
       match doneSignal with Some _ => true | None => false end;
     SandboxOutput.doneAnswer := doneSignal |}.

(** What a code fragment does when the worker runs it, as seen from the
    host: requests to the host, each answered before the code goes on, and
    at the end either the [result] message, built from the output buffer,
    the returned value, the caught exception and the calls of [done], or
    no message before the timer fires, or an error that the worker's
    message handler does not catch, as when the returned value cannot be
    cloned into the [result] message.  The arguments of a [gitLog] call
    are whatever the code passes. *)
Inductive Execution : Type :=
| LlmRequest (messages : list ChatMessage)
    (resume : Result string string → Execution)
| GitLogRequest (args : list GitLogArg)
    (resume : Result string string → Execution)
| Finished (stdoutBuffer : string) (rv : option JsValue)
    (err : option string) (doneCalls : list JsValue)
| TimedOut
| WorkerThrows (message : string).

(** ** [rlm-repl.ts] *)

Record ReplConfig : Type := {
  maxIterations : nat;
  maxLlmCalls : nat;
  timeoutBudgetMs : Z;
  maxOutputTokens : Z;
}.

Record ReplTraceEntry : Type := {
  iteration : nat;
  codeGenerated : string;
  executionResult : string;
  subCallCount : nat;
}.

Module ReplResult.
Record t : Type := {
  answer : string;
  iterations : nat;
  llmCalls : nat;
  elapsedMs : Z;
  trace : list ReplTraceEntry;
}.
End ReplResult.

(** What a call of the injected [callLlm] does: it resolves to [ok], to
    [fail], or the promise rejects. *)
Inductive LlmOutcome : Type :=
| LlmOk (text : string)
| LlmFail (message : string)
| LlmThrow (exception : string).

(** What a call of the injected [execGitLog] does, likewise. *)
Inductive GitLogOutcome : Type :=
| GitLogOk (output : string)
| GitLogFail (message : string)
| GitLogThrow (exception : string).

(** The surroundings of one run of [runRepl]: the injected effects, the
    clock and the sandbox, each as a function of how often it has been used
    before. *)
Record World : Type := {
  callLlm : nat → list ChatMessage → Z → LlmOutcome;
  execGitLog : nat → list string → GitLogOutcome;
  performance_now : nat → Z;
  runCode : nat → string → Execution;
}.

(** The variables of [runRepl] and the use made of the world so far. *)
Record ReplState : Type := {
  llmCallCount : nat;
  conversation : list ChatMessage;
  trace : list ReplTraceEntry;
  llmInvocations : nat;
  gitLogInvocations : nat;
  clockReadings : nat;
  executions : nat;
  terminateCalls : nat;
}.

(** An error that nothing catches.  The host's message handler is an
    [async] function without a [try]: its promise rejects when the
    injected [callLlm] or [execGitLog] rejects and when
    [sanitizeGitLogArgs] throws a [TypeError].  An error that the worker
    does not catch reaches the host as an unhandled error of the child
    worker. *)
Inductive UncaughtError : Type :=
| LlmRejected (exception : string)
| GitLogRejected (exception : string)
| SanitizeTypeError
| ChildWorkerError (message : string).

(** What the handler does with a request: it posts a response, or its
    promise rejects. *)
Inductive Handled : Type :=
| Responds (result : Result string string)
| HandlerRejects (cause : UncaughtError).

(** How [sandbox.execute] ends: its promise resolves, or an error stays
    uncaught.  No listener handles such an error ([unhandledrejection],
    or [error] on the worker), and Deno ends the process on it. *)
Inductive Executed : Type :=
| Settled (result : Result SandboxOutput.t string)
| Unhandled (cause : UncaughtError).

(** How a run of [runRepl] ends: the promise resolves to a result or
    rejects, or the process ends on an uncaught error while [runRepl]
    awaits [sandbox.execute]. *)
Inductive Outcome : Type :=
| Resolved (result : Result ReplResult.t string)
| Rejected (exception : string)
| ProcessEnds (cause : UncaughtError).

Definition timedOutMessage : string := "Sandbox execution timed out".
Definition budgetMessage : string := "LLM call budget exhausted".

Section Repl.

Variable w : World.
Variable rlmMaxTokens : Z.
Variable replConfig : ReplConfig.
Variable startTime : Z.

(** [performance.now()] *)
Definition readClock (st : ReplState) : Z * ReplState :=
  (performance_now w (clockReadings st),
   {| llmCallCount := llmCallCount st;
      conversation := conversation st;
      trace := trace st;
      llmInvocations := llmInvocations st;
      gitLogInvocations := gitLogInvocations st;
      clockReadings := S (clockReadings st);
      executions := executions st;
      terminateCalls := terminateCalls st |}).

(** [budgetExhausted()] *)
Definition budgetExhausted (st : ReplState) : bool * ReplState :=
  let '(t, st) := readClock st in
  ((replConfig.(timeoutBudgetMs) <? t - startTime)%Z, st).

(** [llmBudgetLeft()] *)
Definition llmBudgetLeft (st : ReplState) : bool :=
  (llmCallCount st <? maxLlmCalls replConfig)%nat.

(** [llmCallCount++; callLlm(messages, maxTokens)] *)
Definition countedLlmCall (messages : list ChatMessage) (maxTokens : Z)
  (st : ReplState) : LlmOutcome * ReplState :=
  (callLlm w (llmInvocations st) messages maxTokens,
   {| llmCallCount := S (llmCallCount st);
      conversation := conversation st;
      trace := trace st;
      llmInvocations := S (llmInvocations st);
      gitLogInvocations := gitLogInvocations st;
      clockReadings := clockReadings st;
      executions := executions st;
      terminateCalls := terminateCalls st |}).

(** [trackedLlmCall(messages)] *)
Definition trackedLlmCall (messages : list ChatMessage) (st : ReplState)
  : LlmOutcome * ReplState :=
  if negb (llmBudgetLeft st) then (LlmFail budgetMessage, st)
  else countedLlmCall messages rlmMaxTokens st.

(** The host's handling of a [gitlog-request]. *)
Definition handleGitLog (args : list GitLogArg) (st : ReplState)
  : Handled * ReplState :=
  match sanitizeMessageArgs args with
  | None => (HandlerRejects SanitizeTypeError, st)
  | Some (Fail e) => (Responds (Fail (sanitizeErrorMessage e)), st)
  | Some (Ok sanitized) =>
      (match execGitLog w (gitLogInvocations st) sanitized with
       | GitLogOk value => Responds (Ok value)
       | GitLogFail message => Responds (Fail message)
       | GitLogThrow exception => HandlerRejects (GitLogRejected exception)
       end,
       {| llmCallCount := llmCallCount st;
          conversation := conversation st;
          trace := trace st;
          llmInvocations := llmInvocations st;
          gitLogInvocations := S (gitLogInvocations st);
          clockReadings := clockReadings st;
          executions := executions st;
          terminateCalls := terminateCalls st |})
  end.

(** [pend.reject(new Error(msg.result.error || 'Request failed'))] *)
Definition rejection (message : string) : Result string string :=
  Fail (if Js.truthy (Some message) then message else "Request failed").

(** [sandbox.execute(code)] on the host, for the behaviour [e] of the
    code: requests are served and answered until the [result] message
    arrives or the timer fires.  A failed request is rejected in the worker
    with its message, or with [Request failed] when the message is empty.
    When the injected [callLlm] or [execGitLog] rejects inside the message
    handler, or the sanitizer throws there, the promise of the handler
    rejects: no response is posted, and the process ends.

    The worker is taken to have started.  [TimedOut] stands for an
    execution whose worker posts nothing more.  A worker that goes on
    after the timer has fired or after its [result] message, and the
    listener that [execute] leaves registered after a timeout, which
    would handle the messages of later executions a second time, are
    outside the model. *)
Fixpoint serve (e : Execution) (st : ReplState) : Executed * ReplState :=
  match e with
  | LlmRequest messages resume =>
      match trackedLlmCall messages st with
      | (LlmOk value, st) => serve (resume (Ok value)) st
      | (LlmFail message, st) => serve (resume (rejection message)) st
      | (LlmThrow exception, st) => (Unhandled (LlmRejected exception), st)
      end
  | GitLogRequest args resume =>
      match handleGitLog args st with
      | (Responds response, st) =>
          serve (resume match response with
                        | Ok value => Ok value
                        | Fail message => rejection message
                        end) st
      | (HandlerRejects cause, st) => (Unhandled cause, st)
      end
  | Finished stdoutBuffer rv err doneCalls =>
      (Settled
         (Ok (workerOutput stdoutBuffer rv err (doneSignalAfter doneCalls))),
       st)
  | TimedOut => (Settled (Fail timedOutMessage), st)
  | WorkerThrows message => (Unhandled (ChildWorkerError message), st)
  end.

Definition execute (code : string) (st : ReplState) : Executed * ReplState :=
  serve (runCode w (executions st) code)
    {| llmCallCount := llmCallCount st;
       conversation := conversation st;
       trace := trace st;
       llmInvocations := llmInvocations st;
       gitLogInvocations := gitLogInvocations st;
       clockReadings := clockReadings st;
       executions := S (executions st);
       terminateCalls := terminateCalls st |}.

(** [conversation.push(m)], [trace.push(entry)], [sandbox.terminate()] *)
Definition pushMessage (m : ChatMessage) (st : ReplState) : ReplState :=
  {| llmCallCount := llmCallCount st;
     conversation := conversation st ++ [m];
     trace := trace st;
     llmInvocations := llmInvocations st;
     gitLogInvocations := gitLogInvocations st;
     clockReadings := clockReadings st;
     executions := executions st;
     terminateCalls := terminateCalls st |}.

Definition pushTrace (entry : ReplTraceEntry) (st : ReplState) : ReplState :=
  {| llmCallCount := llmCallCount st;
     conversation := conversation st;
     trace := trace st ++ [entry];
     llmInvocations := llmInvocations st;
     gitLogInvocations := gitLogInvocations st;
     clockReadings := clockReadings st;
     executions := executions st;
     terminateCalls := terminateCalls st |}.

Definition terminate (st : ReplState) : ReplState :=
  {| llmCallCount := llmCallCount st;
     conversation := conversation st;
     trace := trace st;
     llmInvocations := llmInvocations st;
     gitLogInvocations := gitLogInvocations st;
     clockReadings := clockReadings st;
     executions := executions st;
     terminateCalls := S (terminateCalls st) |}.

(** How control leaves the [for] loop: by a [return], a rejection of the
    awaited promise or the end of the process ([Some]), or at its end
    ([None]). *)
Definition Exit : Type := option Outcome.

(** [Result.ok({ answer, iterations, llmCalls, elapsedMs, trace })] *)
Definition returnOk (answer : string) (iterations : nat) (st : ReplState)
  : Outcome * ReplState :=
  let '(t, st) := readClock st in
  (Resolved (Ok {| ReplResult.answer := answer;
                 ReplResult.iterations := iterations;
                 ReplResult.llmCalls := llmCallCount st;
                 ReplResult.elapsedMs := (t - startTime)%Z;
                 ReplResult.trace := trace st |}),
   st).

Definition execErrorTurn (message : string) : string :=
  "Execution error: " ++ message ++ Js.nl
  ++ "Try a simpler approach or call done() with your best answer.".

Definition outputErrorTurn (err stdout : string) : string :=
  "Execution error: " ++ err ++ Js.nl
  ++ (if Js.truthy (Some stdout)
      then "Partial output:" ++ Js.nl ++ stdout else EmptyString)
  ++ "Fix the error or call done() with your best answer.".

Definition outputTurn (stdout : string) : string :=
  "Output:" ++ Js.nl
  ++ (if Js.truthy (Some stdout) then stdout else "(no output)")
  ++ Js.nl ++ Js.nl
  ++ "Continue analysis or call done(answer) with your summary.".

(** How one turn of the [for] loop ends: control leaves the loop (by
    [break], [return], a rejected promise or the end of the process), or
    the next turn starts. *)
Inductive TurnEnd : Type :=
| Leaves (exit : Exit) (st : ReplState)
| NextTurn (st : ReplState).

Definition leaves (r : Outcome * ReplState) : TurnEnd :=
  Leaves (Some (fst r)) (snd r).

(** The body of the [for] loop at index [i]. *)
Definition replTurn (i : nat) (st : ReplState) : TurnEnd :=
  let '(exhausted, st) := budgetExhausted st in
  if exhausted || negb (llmBudgetLeft st) then Leaves None st
  else
    match countedLlmCall (conversation st) (maxOutputTokens replConfig) st
    with
    | (LlmThrow exception, st) => Leaves (Some (Rejected exception)) st
    | (LlmFail message, st) => Leaves (Some (Resolved (Fail message))) st
    | (LlmOk llmResponse, st) =>
        match extractCodeBlock llmResponse with
        | None => leaves (returnOk llmResponse (i + 1) st)
        | Some code =>
            let st :=
              pushMessage {| role := assistant; content := llmResponse |} st in
            let subCallsBefore := llmCallCount st in
            match execute code st with
            | (Unhandled cause, st) => Leaves (Some (ProcessEnds cause)) st
            | (Settled (Fail message), st) =>
                let st :=
                  pushMessage {| role := user;
                                 content := execErrorTurn message |} st in
                let st :=
                  pushTrace
                    {| iteration := i;
                       codeGenerated := code;
                       executionResult := "ERROR: " ++ message;
                       subCallCount := llmCallCount st - subCallsBefore |}
                    st in
                NextTurn st
            | (Settled (Ok output), st) =>
                let st :=
                  pushTrace
                    {| iteration := i;
                       codeGenerated := code;
                       executionResult :=
                         match SandboxOutput.error output with
                         | Some (String c e) =>
                             "ERROR: " ++ String c e ++ Js.nl
                             ++ SandboxOutput.stdout output
                         | _ => SandboxOutput.stdout output
                         end;
                       subCallCount := llmCallCount st - subCallsBefore |}
                    st in
                match SandboxOutput.done output,
                      SandboxOutput.doneAnswer output with
                | true, Some (String c a) =>
                    leaves (returnOk (String c a) (i + 1) st)
                | _, _ =>
                    match SandboxOutput.error output with
                    | Some (String c e) =>
                        NextTurn
                          (pushMessage
                             {| role := user;
                                content :=
                                  outputErrorTurn (String c e)
                                    (SandboxOutput.stdout output) |} st)
                    | _ =>
                        NextTurn
                          (pushMessage
                             {| role := user;
                                content :=
                                  outputTurn (SandboxOutput.stdout output) |}
                             st)
                    end
                end
            end
        end
    end.

(** The [for] loop from index [i] on, with [remaining] turns to go. *)
Fixpoint replLoop (remaining : nat) (i : nat) (st : ReplState)
  : Exit * ReplState :=
  match remaining with
  | O => (None, st)
  | S remaining' =>
      match replTurn i st with
      | Leaves exit st => (exit, st)
      | NextTurn st => replLoop remaining' (S i) st
      end
  end.

(** The state in which turn [i] starts, when the loop gets that far. *)
Fixpoint stateAtTurn (i : nat) (st : ReplState) : option ReplState :=
  match i with
  | O => Some st
  | S j =>
      match stateAtTurn j st with
      | Some stj =>
          match replTurn j stj with
          | NextTurn st' => Some st'
          | Leaves _ _ => None
          end
      | None => None
      end
  end.

Definition exhaustedTurn : string :=
  "Iteration budget exhausted. Provide your best answer as plain text (no code block).".

(** The last resort: the latest trace entry as the answer. *)
Definition completeFailure (st : ReplState) : Outcome * ReplState :=
  let lastOutput :=
    match last (trace st) with
    | Some entry => executionResult entry
    | None => "No output produced"
    end in
  returnOk lastOutput (length (trace st)) st.

(** What follows the loop when it ends without a [return]. *)
Definition afterLoop (st : ReplState) : Outcome * ReplState :=
  if llmBudgetLeft st then
    let '(exhausted, st) := budgetExhausted st in
    if negb exhausted then
      let st := pushMessage {| role := user; content := exhaustedTurn |} st in
      match countedLlmCall (conversation st) (maxOutputTokens replConfig) st
      with
      | (LlmThrow exception, st) => (Rejected exception, st)
      | (LlmOk value, st) =>
          returnOk value (maxIterations replConfig + 1) st
      | (LlmFail _, st) => completeFailure st
      end
    else completeFailure st
  else completeFailure st.

(** The [try] block. *)
Definition tryBlock (st : ReplState) : Outcome * ReplState :=
  match replLoop (maxIterations replConfig) 0 st with
  | (None, st) => afterLoop st
  | (Some outcome, st) => (outcome, st)
  end.

End Repl.

Definition initialState (systemPrompt prompt : string) : ReplState :=
  {| llmCallCount := 0;
     conversation :=
       [{| role := system; content := systemPrompt |};
        {| role := user;
           content :=
             "Task: " ++ prompt ++ Js.nl ++ Js.nl
             ++ "Write JavaScript code to find relevant context from the git history index." |}];
     trace := [];
     llmInvocations := 0;
     gitLogInvocations := 0;
     clockReadings := 1;
     executions := 0;
     terminateCalls := 0 |}.

(** The [finally] clause: [sandbox.terminate()] runs whichever way the
    [try] block is left, by a [return] or by a rejection.  It does not run
    when the process ends inside the block. *)
Definition finallyClause (outcome : Outcome) (st : ReplState) : ReplState :=
  match outcome with
  | ProcessEnds _ => st
  | Resolved _ | Rejected _ => terminate st
  end.

(** [runRepl]: the state is set up, the [try] block runs, then the
    [finally] clause.  [systemPrompt] is the text built by
    [buildReplSystemPrompt]; the index and the working memory reach the
    code through [runCode]. *)
Definition runRepl (w : World) (rlmMaxTokens : Z) (replConfig : ReplConfig)
  (systemPrompt prompt : string) : Outcome * ReplState :=
  let startTime := performance_now w 0 in
  let st := initialState systemPrompt prompt in
  let '(outcome, st) := tryBlock w rlmMaxTokens replConfig startTime st in
  (outcome, finallyClause outcome st).

(** The call counter is within the budget and counts the calls of the
    injected [callLlm]. *)
Definition withinBudget (replConfig : ReplConfig) (st : ReplState) : Prop :=
  (llmCallCount st ≤ maxLlmCalls replConfig)%nat
  ∧ llmInvocations st = llmCallCount st.

(** A response with one fenced block of code. *)
Definition fenced (code : string) : string :=
  "```js" ++ Js.nl ++ code ++ Js.nl ++ "```".

(** A scripted world: the model answers with the given responses in turn
    and fails when they are used up; the code [done('...')] calls [done],
    any other code prints a line. *)
Definition scriptedWorld (responses : list string)
  (behaviour : string → Execution) : World :=
  {| callLlm := λ k _ _,
       match responses !! k with
       | Some response => LlmOk response
       | None => LlmFail "No more responses"
       end;
     execGitLog := λ _ _, GitLogOk "abc123 fix: auth bug";
     performance_now := λ k, Z.of_nat k;
     runCode := λ _ code, behaviour code |}.

Definition testReplConfig : ReplConfig :=
  {| maxIterations := 6; maxLlmCalls := 10; timeoutBudgetMs := 15000;
     maxOutputTokens := 512 |}.

(** What an operation leaves alone: the trace and the sandbox. *)
Definition keeps (st st' : ReplState) : Prop :=
  trace st' = trace st ∧ terminateCalls st' = terminateCalls st.

(** What is known when control leaves the loop that started its turn [i]
    in the state [st] with [remaining] turns to go. *)
Definition loopEnds (replConfig : ReplConfig) (i remaining : nat)
  (st : ReplState) (res : Exit * ReplState) : Prop :=
  withinBudget replConfig (snd res)
  ∧ terminateCalls (snd res) = terminateCalls st
  ∧ (length (trace (snd res)) ≤ i + remaining)%nat
  ∧ ∀ r, fst res = Some (Resolved (Ok r)) →
         (i < ReplResult.iterations r ≤ i + remaining)%nat
         ∧ ReplResult.llmCalls r = llmCallCount (snd res).

(** What is known at the end of turn [i] that started in [st]. *)
Definition turnEnds (replConfig : ReplConfig) (i : nat) (st : ReplState)
  (t : TurnEnd) : Prop :=
  match t with
  | Leaves exit st' => loopEnds replConfig i 1 st (exit, st')
  | NextTurn st' =>
      withinBudget replConfig st'
      ∧ terminateCalls st' = terminateCalls st
      ∧ (length (trace st') ≤ S i)%nat
  end.

(** What is known at the end of the [try] block entered in [st]. *)
Definition blockEnds (replConfig : ReplConfig) (st : ReplState)
  (res : Outcome * ReplState) : Prop :=
  withinBudget replConfig (snd res)
  ∧ terminateCalls (snd res) = terminateCalls st
  ∧ ∀ r, fst res = Resolved (Ok r) →
         (ReplResult.iterations r ≤ maxIterations replConfig + 1)%nat
         ∧ ReplResult.llmCalls r = llmCallCount (snd res).

(** The sandbox of the examples: [done('')] calls [done] with the empty
    string, [done('ok')] with [ok]; any other code prints a line. *)
Definition exampleSandbox (code : string) : Execution :=
  if String.eqb code "done('')" then Finished EmptyString None None [VString EmptyString]
  else if String.eqb code "done('ok')" then Finished EmptyString None None [VString "ok"]
  else Finished ("x" ++ Js.nl) None None [].



(** A sandbox whose code calls [gitLog([5])]. *)
Definition numberArgSandbox (code : string) : Execution :=
  GitLogRequest [ArgOther "5"]
    (λ response,
       match response with
       | Ok value => Finished EmptyString None None [VString value]
       | Fail message => Finished EmptyString None (Some message) []
       end).

(** ** [rlm-config.ts] *)

Module RlmConfig.
Record t : Type := {
  version : Z;
  enabled : bool;
  endpoint : string;
  model : string;
  timeoutMs : Z;
  maxTokens : Z;
}.
End RlmConfig.

Definition DEFAULT_CONFIG : RlmConfig.t :=
  {| RlmConfig.version := 1;
     RlmConfig.enabled := false;
     RlmConfig.endpoint := "http://localhost:11434";
     RlmConfig.model := "qwen2.5:7b";
     RlmConfig.timeoutMs := 5000;
     RlmConfig.maxTokens := 256 |}.

(** [config[name]] on a configuration object; [None] is [undefined].  The
    object has the six properties of its literal and no other. *)
Definition configProperty (config : RlmConfig.t) (name : string)
  : option Json :=
  if String.eqb name "version" then Some (JNumber (RlmConfig.version config))
  else if String.eqb name "enabled" then Some (JBool (RlmConfig.enabled config))
  else if String.eqb name "endpoint"
  then Some (JString (RlmConfig.endpoint config))
  else if String.eqb name "model" then Some (JString (RlmConfig.model config))
  else if String.eqb name "timeoutMs"
  then Some (JNumber (RlmConfig.timeoutMs config))
  else if String.eqb name "maxTokens"
  then Some (JNumber (RlmConfig.maxTokens config))
  else None.

(** [replConfigFromRlm(config)] of [rlm-repl.ts]: the four properties it
    reads, [None] being [undefined]. *)
Definition replConfigFromRlm (config : RlmConfig.t)
  : option Json * option Json * option Json * option Json :=
  (configProperty config "replMaxIterations",
   configProperty config "replMaxLlmCalls",
   configProperty config "replTimeoutBudgetMs",
   configProperty config "replMaxOutputTokens").

(** [data[key]] on a parsed object: the last binding of the key. *)
Definition jsonProperty (props : list (string * Json)) (key : string)
  : option Json :=
  snd <$> List.find (λ e, String.eqb (fst e) key) (rev props).

Section Config.

(** [git rev-parse --git-dir]: the trimmed output, or the failure. *)
Variable gitDir : Result string string.
(** [Deno.readTextFile]; [None] when it throws (no such file, no
    permission). *)
Variable readTextFile : string → option string.
(** [JSON.parse]; [None] when it throws.  Numbers are integers here. *)
Variable JSON_parse : string → option Json.

(** [getConfigPath()] *)
Definition getConfigPath : Result string string :=
  match gitDir with
  | Fail e => Fail e
  | Ok dir => Ok (dir +:+ "/info/rlm-config.json")
  end.

(** [loadRlmConfig()] *)
Definition loadRlmConfig : RlmConfig.t :=
  match getConfigPath with
  | Fail _ => DEFAULT_CONFIG
  | Ok path =>
      match readTextFile path with
      | None => DEFAULT_CONFIG
      | Some content =>
          match JSON_parse content with
          | Some (JObject data) =>
              match jsonProperty data "version" with
              | Some (JNumber 1) =>
                  {| RlmConfig.version := 1;
                     RlmConfig.enabled :=
                       match jsonProperty data "enabled" with
                       | Some (JBool b) => b
                       | _ => RlmConfig.enabled DEFAULT_CONFIG
                       end;
                     RlmConfig.endpoint :=
                       match jsonProperty data "endpoint" with
                       | Some (JString s) => s
                       | _ => RlmConfig.endpoint DEFAULT_CONFIG
                       end;
                     RlmConfig.model :=
                       match jsonProperty data "model" with
                       | Some (JString s) => s
                       | _ => RlmConfig.model DEFAULT_CONFIG
                       end;
                     RlmConfig.timeoutMs :=
                       match jsonProperty data "timeoutMs" with
                       | Some (JNumber n) => n
                       | _ => RlmConfig.timeoutMs DEFAULT_CONFIG
                       end;
                     RlmConfig.maxTokens :=
                       match jsonProperty data "maxTokens" with
                       | Some (JNumber n) => n
                       | _ => RlmConfig.maxTokens DEFAULT_CONFIG
                       end |}
              | _ => DEFAULT_CONFIG
              end
          | _ => DEFAULT_CONFIG
          end
      end
  end.

End Config.

(** Some line of the text starts with three backticks: the position is at
    the start of the text or behind a line terminator. *)
Fixpoint hasFenceLine (before : option ascii) (s : string) : bool :=
  (Regex.atLineStart true before && Js.startsWith s "```")
  || match s with
     | EmptyString => false
     | String c s' => hasFenceLine (Some c) s'
     end.

(** The sandbox of the end-to-end scenario: the code queries the scope
    [auth] of the fixture index and reports the number of commits through
    [done]. *)
Definition countingSandbox (code : string) : Execution :=
  match
    query false fixtureIndex
      {| p_scope := Some "auth"; p_intents := None; p_session := None;
         p_decidedAgainst := None; p_limit := None |}
  with
  | Ok commits =>
      Finished EmptyString None None
        [VString ("Found " ++ Js.numberToString (Z.of_nat (length commits))
                  ++ " auth commits")]
  | Fail _ => Finished EmptyString None (Some "TypeError") []
  end.

(** ** Worlds that differ in one effect *)

(** The world [w] with [g] in the place of the injected [execGitLog]. *)
Definition withGitLog (w : World)
  (g : nat → list string → GitLogOutcome) : World :=
  {| callLlm := callLlm w;
     execGitLog := g;
     performance_now := performance_now w;
     runCode := runCode w |}.

(** A sandbox whose code asks the host for a git log with an argument
    that carries a shell command, and prints the answer. *)
Definition gitLogSandbox (code : string) : Execution :=
  GitLogRequest
    [ArgString "--format=%H"; ArgString "-n"; ArgString "5";
     ArgString "--grep=x; rm -rf /"]
    (λ response,
       Finished match response with Ok value => value | Fail message => message end
         None None [VString "done"]).


(** ** Positions of a text *)

(** The character in front of the position behind [s], when [before] is
    the character in front of [s]. *)
Fixpoint lastChar (before : option ascii) (s : string) : option ascii :=
  match s with
  | EmptyString => before
  | String c s' => lastChar (Some c) s'
  end.

(** The closing fence that [extractCodeBlock] looks for. *)
Definition closingFence : string := String Js.LF "```".

(** The language tags that the opening fence admits. *)
Definition fenceLanguages : list string := [EmptyString; "js"; "javascript"].

(** ** Reading the parser's results *)

(** The value that a line contributes to the trailer [key]: the line,
    trimmed, matches [TRAILER_RE] with a first group that is [key] once
    lower-cased. *)
Definition trailerValue (key : string) (line : string) : option string :=
  match execTrailer (Js.trim line) with
  | Some (k, value) =>
      if String.eqb (Js.toLowerCase k) key then Some (Js.trim value) else None
  | None => None
  end.

(** The types that the first group of [HEADER_RE] admits. *)
Definition headerTypes : list string :=
  ["feat"; "fix"; "refactor"; "perf"; "docs"; "test"; "build"; "ci"; "chore";
   "revert"].

(** The expression has a capturing group numbered [n]. *)
Fixpoint hasGroup (n : nat) (r : Regex.t) : bool :=
  match r with
  | Regex.Then a b | Regex.Or a b => hasGroup n a || hasGroup n b
  | Regex.Group m a => Nat.eqb m n || hasGroup n a
  | _ => false
  end.

(** ** [rlm-config.ts]: saving *)

(** The files that the configuration functions see: path to content. *)
Definition FileSystem : Type := gmap string string.

(** The object that [JSON.stringify(config, null, 2)] serializes: the six
    properties of a configuration, in the order of its literal. *)
Definition configObject (config : RlmConfig.t) : Json :=
  JObject
    [("version", JNumber (RlmConfig.version config));
     ("enabled", JBool (RlmConfig.enabled config));
     ("endpoint", JString (RlmConfig.endpoint config));
     ("model", JString (RlmConfig.model config));
     ("timeoutMs", JNumber (RlmConfig.timeoutMs config));
     ("maxTokens", JNumber (RlmConfig.maxTokens config))].

Section ConfigSave.

Variable gitDir : Result string string.
(** [JSON.stringify(_, null, 2)] *)
Variable JSON_stringify : Json → string.
(** The exception that [Deno.writeTextFile] throws for a path, if any; a
    write that throws is taken to leave the files as they were. *)
Variable writeError : string → option string.

(** [saveRlmConfig(config)] *)
Definition saveRlmConfig (fs : FileSystem) (config : RlmConfig.t)
  : Result unit string * FileSystem :=
  match getConfigPath gitDir with
  | Fail e => (Fail e, fs)
  | Ok path =>
      match writeError path with
      | Some e => (Fail e, fs)
      | None => (Ok (), <[path := JSON_stringify (configObject config)]> fs)
      end
  end.

End ConfigSave.

(** ** [prompt-analyzer.ts] *)

(** [INTENT_SYNONYMS]: the entries of the map, in the order of the
    source. *)
Definition INTENT_SYNONYMS : list (string * string) :=
  [("fix", "fix-defect"); ("bug", "fix-defect"); ("broken", "fix-defect");
   ("crash", "fix-defect"); ("error", "fix-defect"); ("issue", "fix-defect");
   ("debug", "fix-defect"); ("regression", "fix-defect");
   ("patch", "fix-defect"); ("add", "enable-capability");
   ("feature", "enable-capability"); ("implement", "enable-capability");
   ("create", "enable-capability"); ("new", "enable-capability");
   ("support", "enable-capability"); ("enable", "enable-capability");
   ("refactor", "restructure"); ("restructure", "restructure");
   ("reorganize", "restructure"); ("rename", "restructure");
   ("move", "restructure"); ("extract", "restructure");
   ("simplify", "restructure"); ("cleanup", "restructure");
   ("improve", "improve-quality"); ("optimize", "improve-quality");
   ("performance", "improve-quality"); ("perf", "improve-quality");
   ("faster", "improve-quality"); ("speed", "improve-quality");
   ("quality", "improve-quality"); ("document", "document");
   ("docs", "document"); ("readme", "document"); ("comment", "document");
   ("guide", "document"); ("config", "configure-infra");
   ("configure", "configure-infra"); ("ci", "configure-infra");
   ("deploy", "configure-infra"); ("build", "configure-infra");
   ("infra", "configure-infra"); ("pipeline", "configure-infra");
   ("explore", "explore"); ("investigate", "explore");
   ("research", "explore"); ("prototype", "explore"); ("spike", "explore");
   ("blocker", "resolve-blocker"); ("blocked", "resolve-blocker");
   ("unblock", "resolve-blocker"); ("workaround", "resolve-blocker")].

(** [INTENT_SYNONYMS.get(token)]; [None] is [undefined]. *)
Definition synonymIntent (token : string) : option string :=
  snd <$> List.find (λ e, String.eqb (fst e) token) INTENT_SYNONYMS.

Definition STOP_WORDS : list string :=
  ["a"; "an"; "the"; "is"; "are"; "was"; "were"; "be"; "been"; "being";
   "have"; "has"; "had"; "do"; "does"; "did"; "will"; "would"; "could";
   "should"; "may"; "might"; "shall"; "can"; "need"; "must"; "i"; "me"; "my";
   "we"; "our"; "you"; "your"; "it"; "its"; "he"; "she"; "they"; "them";
   "their"; "this"; "that"; "these"; "those"; "in"; "on"; "at"; "to"; "for";
   "of"; "with"; "by"; "from"; "up"; "about"; "into"; "through"; "during";
   "before"; "after"; "and"; "but"; "or"; "not"; "no"; "if"; "then"; "so";
   "too"; "what"; "which"; "who"; "when"; "where"; "how"; "why"; "all";
   "each"; "every"; "both"; "some"; "any"; "most"; "also"; "just"; "only";
   "very"; "still"; "already"; "now"; "here"; "there"; "out"; "get"; "make";
   "like"; "use"].

(** [STOP_WORDS.has(t)] *)
Definition stopWord (t : string) : bool := existsb (String.eqb t) STOP_WORDS.

(** The class [[a-z0-9/\-_]] of the tokenizer. *)
Definition tokenChar (c : ascii) : bool :=
  let n := Js.code c in
  (((97 <=? n) && (n <=? 122)) || ((48 <=? n) && (n <=? 57))
   || (n =? 47) || (n =? 45) || (n =? 95))%N.

(** [s.replace(re, r)] for a global expression [re] that matches single
    characters: each character is mapped on its own. *)
Fixpoint replaceChars (f : ascii → ascii) (s : string) : string :=
  match s with
  | EmptyString => EmptyString
  | String c s' => String (f c) (replaceChars f s')
  end.

(** What the tokenizer makes of a character: one outside the class becomes
    a space. *)
Definition blankNonToken (c : ascii) : ascii :=
  if tokenChar c then c else " "%char.

(** [s.split(re)] for an expression [re] that matches the non-empty runs of
    the characters [sep]: the pieces between the runs, with an empty piece
    in front of a run at the start and behind a run at the end.  [inRun]
    tells that the character in front of [s] belongs to a run. *)
Fixpoint splitRuns (sep : ascii → bool) (inRun : bool) (s : string)
  : list string :=
  match s with
  | EmptyString => [EmptyString]
  | String c s' =>
      if sep c then
        if inRun then splitRuns sep true s'
        else EmptyString :: splitRuns sep true s'
      else
        match splitRuns sep false s' with
        | piece :: pieces => String c piece :: pieces
        | [] => [String c EmptyString]
        end
  end.

(** [tokenize(prompt)] *)
Definition tokenize (prompt : string) : list string :=
  List.filter (λ t, (1 <? String.length t)%nat)
    (splitRuns Js.isWhiteSpace false
       (replaceChars blankNonToken (Js.toLowerCase prompt))).

Record PromptSignals : Type := {
  scopeHints : list string;
  intentHints : list string;
  keywords : list string;
}.

(** The first loop of [extractPromptSignals]: the sets [scopeHints] and
    [consumedTokens] after the tokens seen so far.  [scopeMatches] is the
    function of [matching.ts], of which the worker source holds a copy. *)
Definition scopeLoop (scopeKeys : list string) (tokens : list string)
  : list string * list string :=
  fold_left
    (λ '(scopeHints, consumedTokens) token,
       if existsb (λ scopeKey, scopeMatches scopeKey token) scopeKeys
       then (setAdd scopeHints token, setAdd consumedTokens token)
       else (scopeHints, consumedTokens))
    tokens ([], []).

(** The second loop: [intentHints] and [consumedTokens]. *)
Definition intentLoop (tokens : list string) (consumedTokens : list string)
  : list string * list string :=
  fold_left
    (λ '(intentHints, consumedTokens) token,
       match synonymIntent token with
       | Some intent => (setAdd intentHints intent, setAdd consumedTokens token)
       | None => (intentHints, consumedTokens)
       end)
    tokens ([], consumedTokens).

(** [extractPromptSignals(prompt, scopeKeys)] *)
Definition extractPromptSignals (prompt : string) (scopeKeys : list string)
  : PromptSignals :=
  if negb (Js.truthy (Some (Js.trim prompt))) then
    {| scopeHints := []; intentHints := []; keywords := [] |}
  else
    let tokens := tokenize prompt in
    let '(scopeHints, consumedTokens) := scopeLoop scopeKeys tokens in
    let '(intentHints, consumedTokens) := intentLoop tokens consumedTokens in
    let keywords :=
      List.filter
        (λ t, negb (bool_decide (t ∈ consumedTokens)) && negb (stopWord t))
        tokens in
    {| scopeHints := scopeHints;
       intentHints := intentHints;
       keywords := newSet keywords |}.

(** Every character of the text satisfies [p]. *)
Fixpoint allChars (p : ascii → bool) (s : string) : bool :=
  match s with
  | EmptyString => true
  | String c s' => p c && allChars p s'
  end.

(** ** [working-memory.ts] *)

Inductive EntryTag : Type := finding | hypothesis | decision | context | todo.

Module Entry.
Record t : Type := {
  timestamp : string;
  tag : EntryTag;
  scope : list string;
  text : string;
  source : option string;
}.
End Entry.

Module Memory.
Record t : Type := {
  version : Z;
  sessionId : string;
  created : string;
  updated : string;
  entries : list Entry.t;
}.
End Memory.

(** [{ ...entry, timestamp: now }] *)
Definition withTimestamp (entry : Entry.t) (now : string) : Entry.t :=
  {| Entry.timestamp := now;
     Entry.tag := Entry.tag entry;
     Entry.scope := Entry.scope entry;
     Entry.text := Entry.text entry;
     Entry.source := Entry.source entry |}.

Section WorkingMemoryStore.

Variable gitDir : Result string string.
(** [JSON.stringify(memory, null, 2)] *)
Variable JSON_stringify : Memory.t → string.
(** [JSON.parse(content)] read as a working memory; [None] when it throws
    or yields a value whose properties cannot be read.  A parsed value
    that is not shaped like a working memory is outside the model. *)
Variable JSON_parse : string → option Memory.t.
(** The exception that [Deno.writeTextFile] throws for a path, if any, and
    the exception other than [NotFound] that [Deno.remove] throws; a call
    that throws is taken to leave the files as they were. *)
Variable writeError : string → option string.
Variable removeError : string → option string.

(** [getWorkingMemoryPath()] *)
Definition getWorkingMemoryPath : Result string string :=
  match gitDir with
  | Fail e => Fail e
  | Ok dir => Ok (dir +:+ "/info/working-memory.json")
  end.

(** [loadWorkingMemory(sessionId)]; [Ok None] is [Result.ok(null)]. *)
Definition loadWorkingMemory (fs : FileSystem) (sessionId : string)
  : Result (option Memory.t) string :=
  match getWorkingMemoryPath with
  | Fail e => Fail e
  | Ok path =>
      match fs !! path with
      | None => Ok None
      | Some content =>
          match JSON_parse content with
          | None => Ok None
          | Some data =>
              if negb (String.eqb (Memory.sessionId data) sessionId)
              then Ok None
              else if negb (Memory.version data =? 1)%Z then Ok None
              else Ok (Some data)
          end
      end
  end.

(** [saveWorkingMemory(memory)] *)
Definition saveWorkingMemory (fs : FileSystem) (memory : Memory.t)
  : Result unit string * FileSystem :=
  match getWorkingMemoryPath with
  | Fail e => (Fail e, fs)
  | Ok path =>
      match writeError path with
      | Some e => (Fail e, fs)
      | None => (Ok (), <[path := JSON_stringify memory]> fs)
      end
  end.

(** [addEntry(sessionId, entry)], with [now] for
    [new Date().toISOString()]. *)
Definition addEntry (fs : FileSystem) (now : string) (sessionId : string)
  (entry : Entry.t) : Result Memory.t string * FileSystem :=
  match loadWorkingMemory fs sessionId with
  | Fail e => (Fail e, fs)
  | Ok existing =>
      let fullEntry := withTimestamp entry now in
      let memory :=
        match existing with
        | Some value =>
            {| Memory.version := Memory.version value;
               Memory.sessionId := Memory.sessionId value;
               Memory.created := Memory.created value;
               Memory.updated := now;
               Memory.entries := Memory.entries value ++ [fullEntry] |}
        | None =>
            {| Memory.version := 1;
               Memory.sessionId := sessionId;
               Memory.created := now;
               Memory.updated := now;
               Memory.entries := [fullEntry] |}
        end in
      match saveWorkingMemory fs memory with
      | (Fail e, fs) => (Fail e, fs)
      | (Ok _, fs) => (Ok memory, fs)
      end
  end.

(** [clearWorkingMemory()]: a missing file is a success. *)
Definition clearWorkingMemory (fs : FileSystem)
  : Result unit string * FileSystem :=
  match getWorkingMemoryPath with
  | Fail e => (Fail e, fs)
  | Ok path =>
      match fs !! path with
      | None => (Ok (), fs)
      | Some _ =>
          match removeError path with
          | Some e => (Fail e, fs)
          | None => (Ok (), delete path fs)
          end
      end
  end.

(** The files after a sequence of calls of [addEntry] for one session,
    each with its time. *)
Definition addEntries (fs : FileSystem) (sessionId : string)
  (items : list (string * Entry.t)) : FileSystem :=
  fold_left (λ fs item, snd (addEntry fs (fst item) sessionId (snd item)))
    items fs.

End WorkingMemoryStore.

(** The working memory of a session that holds the given entries, each
    stamped with its time: created with the first, updated with the
    last. *)
Definition memoryOf (sessionId : string) (items : list (string * Entry.t))
  : Memory.t :=
  {| Memory.version := 1;
     Memory.sessionId := sessionId;
     Memory.created := default EmptyString (fst <$> head items);
     Memory.updated := default EmptyString (fst <$> last items);
     Memory.entries := map (λ item, withTimestamp (snd item) (fst item)) items |}.

(** Two entries of a session, with the times at which they are added, and
    a pair of functions that writes and reads the two memories they
    make. *)
Definition exampleItems : list (string * Entry.t) :=
  [("2025-02-08T10:00:00.000Z",
    {| Entry.timestamp := EmptyString; Entry.tag := finding;
       Entry.scope := ["auth"]; Entry.text := "Login uses a session cookie";
       Entry.source := Some "src/auth/login.ts" |});
   ("2025-02-08T10:05:00.000Z",
    {| Entry.timestamp := EmptyString; Entry.tag := decision;
       Entry.scope := ["auth"; "cache"]; Entry.text := "Redis for sessions";
       Entry.source := None |})].

Definition exampleStringify (memory : Memory.t) : string :=
  Memory.sessionId memory +:+ "@" +:+ Memory.updated memory.

Definition exampleParse (content : string) : option Memory.t :=
  if String.eqb content "s1@2025-02-08T10:00:00.000Z"
  then Some (memoryOf "s1" (take 1 exampleItems))
  else if String.eqb content "s1@2025-02-08T10:05:00.000Z"
  then Some (memoryOf "s1" exampleItems)
  else if String.eqb content "s2@2025-02-09T09:00:00.000Z"
  then Some (memoryOf "s2" [("2025-02-09T09:00:00.000Z",
                             {| Entry.timestamp := EmptyString;
                                Entry.tag := todo; Entry.scope := [];
                                Entry.text := "Check the cache";
                                Entry.source := None |})])
  else None.

(** ** [consolidation.ts] *)

(** The order of [Array.prototype.sort] without a comparator, on strings:
    by code units, a proper prefix first. *)
Definition stringLe (a b : string) : Prop := String.leb a b = true.

#[global] Instance stringLe_dec : RelDecision stringLe :=
  λ a b, decide (String.leb a b = true).

(** [arr.sort()] on strings.  The order is total and antisymmetric, so
    that the result, the sorted arrangement of the elements, does not
    depend on the sorting method; merge sort stands for it. *)
Definition sortStrings (l : list string) : list string :=
  merge_sort stringLe l.

(** [collectScopes(entries)] *)
Definition collectScopes (entries : list Entry.t) : list string :=
  sortStrings
    (fold_left (λ scopes entry, fold_left setAdd (Entry.scope entry) scopes)
       entries []).

Module TrailerHints.
Record t : Type := {
  decidedAgainst : list string;
  scopes : list string;
}.
End TrailerHints.

Definition isDecision (entry : Entry.t) : bool :=
  match Entry.tag entry with decision => true | _ => false end.

(** [decisionsToTrailers(entries)] *)
Definition decisionsToTrailers (entries : list Entry.t) : TrailerHints.t :=
  let decisions := List.filter isDecision entries in
  {| TrailerHints.decidedAgainst :=
       fold_left (λ decidedAgainst d, decidedAgainst ++ [Entry.text d])
         decisions [];
     TrailerHints.scopes := collectScopes entries |}.

(** The lines that [formatTrailerHints] joins. *)
Definition trailerHintLines (hints : TrailerHints.t) : list string :=
  match TrailerHints.scopes hints with
  | [] => []
  | _ => ["Scope: " +:+ Js.join ", " (TrailerHints.scopes hints)]
  end
  ++ map (λ da, "Decided-Against: " +:+ da) (TrailerHints.decidedAgainst hints).

(** [formatTrailerHints(hints)] *)
Definition formatTrailerHints (hints : TrailerHints.t) : string :=
  Js.join Js.nl (trailerHintLines hints).

(** * Properties *)

Local Open Scope nat_scope.

Example sanitize_allows_valid_flags :
  sanitizeGitLogArgs ["--format=%H %s"; "-n"; "10"; "--no-merges"]
  = Ok ["--format=%H %s"; "-n"; "10"; "--no-merges"].
Proof. reflexivity. Qed.

Example sanitize_caps_n :
  sanitizeGitLogArgs ["-n"; "100"] = Ok ["-n"; "50"].
Proof. reflexivity. Qed.

Example sanitize_rejects_pipe :
  sanitizeGitLogArgs ["--format=%H"; "|"; "cat"] = Fail (DangerousCharacter "|").
Proof. reflexivity. Qed.

Example sanitize_rejects_exec :
  sanitizeGitLogArgs ["--exec"; "bash"] = Fail (DisallowedFlag "--exec").
Proof. reflexivity. Qed.

(** *** The loop, one argument at a time *)

Section PairInduction.
Context {A : Type} (P : list A → Prop).
Hypothesis P_nil : P [].
Hypothesis P_one : ∀ a, P [a].
Hypothesis P_two : ∀ a b l, P l → P (b :: l) → P (a :: b :: l).

Lemma list_pair_ind : ∀ l, P l.
Proof.
  assert (H : ∀ l, P l ∧ ∀ a, P (a :: l)).
  { induction l as [|b l [IH1 IH2]]; split; auto. }
  intros l. apply H.
Qed.
End PairInduction.

Lemma prependOk_nil {E} (r : Result (list string) E) : prependOk [] r = r.
Proof. destruct r; reflexivity. Qed.

Lemma prependOk_app {E} pre1 pre2 (r : Result (list string) E) :
  prependOk pre1 (prependOk pre2 r) = prependOk (pre1 ++ pre2) r.
Proof. destruct r; simpl; [rewrite app_assoc|]; reflexivity. Qed.

(** One turn of the loop. *)
Lemma sanitizeLoop_cons arg rest sanitized :
  sanitizeLoop (arg :: rest) sanitized =
    if DANGEROUS_CHARS arg then Fail (DangerousCharacter arg)
    else if Js.startsWith arg "--" then
      if allowedFlag (flagPortion arg)
      then sanitizeLoop rest (sanitized ++ [arg])
      else Fail (DisallowedFlag (flagPortion arg))
    else if String.eqb arg "-n" then
      match rest with
      | [] => Ok (sanitized ++ [arg])
      | next :: rest' =>
          match Js.parseInt next with
          | None => Fail (InvalidN next)
          | Some n =>
              if (n <? 1)%Z then Fail (InvalidN next)
              else sanitizeLoop rest'
                     (sanitized ++ [arg; Js.numberToString (Z.min n 50)])
          end
      end
    else if singleLetterFlag arg then Fail (DisallowedFlag arg)
    else sanitizeLoop rest (sanitized ++ [arg]).
Proof. reflexivity. Qed.

Lemma sanitizeLoop_acc args : ∀ acc,
  sanitizeLoop args acc = prependOk acc (sanitizeLoop args []).
Proof.
  induction args as [| a | a b l IHl IHbl] using list_pair_ind; intros acc.
  - simpl. rewrite app_nil_r. reflexivity.
  - simpl. repeat case_match; simpl; rewrite ?app_nil_r; reflexivity.
  - rewrite (sanitizeLoop_cons a (b :: l) acc), (sanitizeLoop_cons a (b :: l) []).
    destruct (DANGEROUS_CHARS a); [reflexivity|].
    destruct (Js.startsWith a "--").
    { destruct (allowedFlag _); [|reflexivity].
      rewrite (IHbl (acc ++ [a])), (IHbl ([] ++ [a])), prependOk_app.
      reflexivity. }
    destruct (String.eqb a "-n").
    { destruct (Js.parseInt b) as [n|]; [|reflexivity].
      destruct (n <? 1)%Z; [reflexivity|].
      rewrite (IHl (acc ++ _)), (IHl ([] ++ _)), prependOk_app. reflexivity. }
    destruct (singleLetterFlag a); [reflexivity|].
    rewrite (IHbl (acc ++ [a])), (IHbl ([] ++ [a])), prependOk_app.
    reflexivity.
Qed.

(** [sanitizeGitLogArgs] unfolded at the first argument. *)
Lemma sanitizeGitLogArgs_cons arg rest :
  sanitizeGitLogArgs (arg :: rest) =
    if DANGEROUS_CHARS arg then Fail (DangerousCharacter arg)
    else if Js.startsWith arg "--" then
      if allowedFlag (flagPortion arg)
      then prependOk [arg] (sanitizeGitLogArgs rest)
      else Fail (DisallowedFlag (flagPortion arg))
    else if String.eqb arg "-n" then
      match rest with
      | [] => Ok [arg]
      | next :: rest' =>
          match Js.parseInt next with
          | None => Fail (InvalidN next)
          | Some n =>
              if (n <? 1)%Z then Fail (InvalidN next)
              else prependOk [arg; Js.numberToString (Z.min n 50)]
                     (sanitizeGitLogArgs rest')
          end
      end
    else if singleLetterFlag arg then Fail (DisallowedFlag arg)
    else prependOk [arg] (sanitizeGitLogArgs rest).
Proof.
  unfold sanitizeGitLogArgs. rewrite sanitizeLoop_cons.
  destruct (DANGEROUS_CHARS arg); [reflexivity|].
  destruct (Js.startsWith arg "--").
  { destruct (allowedFlag _); [|reflexivity]. apply sanitizeLoop_acc. }
  destruct (String.eqb arg "-n").
  { destruct rest as [|next rest']; [reflexivity|].
    destruct (Js.parseInt next) as [n|]; [|reflexivity].
    destruct (n <? 1)%Z; [reflexivity|]. apply sanitizeLoop_acc. }
  destruct (singleLetterFlag arg); [reflexivity|]. apply sanitizeLoop_acc.
Qed.

Lemma sanitizeGitLogArgs_nil : sanitizeGitLogArgs [] = Ok [].
Proof. reflexivity. Qed.

(** *** The capped count that follows [-n] *)

Lemma cappedCount_upto_50 :
  forallb (fun k => cappedCount (Js.numberToString (Z.of_nat k))) (seq 1 50)
  = true.
Proof. vm_compute. reflexivity. Qed.

Lemma cappedCount_min (n : Z) :
  (1 ≤ n)%Z → cappedCount (Js.numberToString (Z.min n 50)) = true.
Proof.
  intros Hn.
  pose proof cappedCount_upto_50 as H.
  rewrite forallb_forall in H.
  specialize (H (Z.to_nat (Z.min n 50))).
  rewrite Z2Nat.id in H by lia.
  apply H, in_seq. lia.
Qed.

(** *** What a successful sanitization guarantees *)

Lemma isOk_prependOk {E} pre (r : Result (list string) E) :
  isOk (prependOk pre r) = isOk r.
Proof. destruct r; reflexivity. Qed.

Lemma prependOk_Ok_inv {E} pre (r : Result (list string) E) out :
  prependOk pre r = Ok out → ∃ out', r = Ok out' ∧ out = pre ++ out'.
Proof. destruct r; simpl; intros [= <-]; eauto. Qed.

Lemma startsWith_dash_dash_parseInt s :
  Js.startsWith s "--" = true → Js.parseInt s = None.
Proof.
  destruct s as [|a [|b s]]; simpl; rewrite ?andb_false_r; try discriminate.
  rewrite andb_true_r, andb_true_iff, !Ascii.eqb_eq. intros [-> ->].
  reflexivity.
Qed.

Lemma digitValue_nonneg c d : Js.digitValue c = Some d → (0 ≤ d)%Z.
Proof.
  unfold Js.digitValue. case_match eqn:H; [|discriminate].
  apply andb_true_iff in H as [H _]. apply N.leb_le in H.
  intros [= <-]. lia.
Qed.

Lemma singleLetterFlag_inv s :
  singleLetterFlag s = true → ∃ c, s = String "-" (String c EmptyString).
Proof.
  unfold singleLetterFlag.
  destruct s as [|a [|c [|? ?]]]; simpl; rewrite ?andb_false_r; try discriminate.
  rewrite !andb_true_r, Ascii.eqb_eq. intros ->. eauto.
Qed.

Lemma singleLetterFlag_parseInt s :
  singleLetterFlag s = true →
  match Js.parseInt s with Some n => (n < 1)%Z | None => True end.
Proof.
  intros [c ->]%singleLetterFlag_inv.
  unfold Js.parseInt. cbn [Js.trimStart].
  change (Js.isWhiteSpace "-") with false. cbv beta iota.
  cbn [Js.parseDigits].
  destruct (Js.digitValue c) as [d|] eqn:Hd; simpl; [|trivial].
  apply digitValue_nonneg in Hd. lia.
Qed.

Lemma singleLetterFlag_dash_dash s :
  singleLetterFlag s = true → Js.startsWith s "--" = true → s = "--".
Proof.
  intros [c ->]%singleLetterFlag_inv. simpl.
  rewrite andb_true_r, Ascii.eqb_eq. intros ->. reflexivity.
Qed.

(** X4: an argument list that contains a two-character dash flag other
    than [-n] is rejected, wherever the flag stands. *)
Lemma sanitize_single_letter_rejected args a :
  a ∈ args → singleLetterFlag a = true → a ≠ "-n" →
  isOk (sanitizeGitLogArgs args) = false.
Proof.
  intros Hin Hflag Hne. revert Hin.
  assert (Hhead : ∀ rest, isOk (sanitizeGitLogArgs (a :: rest)) = false).
  { intros rest. rewrite sanitizeGitLogArgs_cons.
    destruct (DANGEROUS_CHARS a); [reflexivity|].
    destruct (Js.startsWith a "--") eqn:Hdd.
    { rewrite (singleLetterFlag_dash_dash a Hflag Hdd). reflexivity. }
    destruct (String.eqb_spec a "-n"); [contradiction|].
    rewrite Hflag. reflexivity. }
  induction args as [| x | x y l IHl IHyl] using list_pair_ind.
  - intros Hin. inversion Hin.
  - intros Hin%list_elem_of_singleton. subst x. apply Hhead.
  - intros [Heq|Hin]%elem_of_cons; [subst x; apply Hhead|].
    rewrite sanitizeGitLogArgs_cons.
    destruct (DANGEROUS_CHARS x); [reflexivity|].
    destruct (Js.startsWith x "--").
    { destruct (allowedFlag _); [|reflexivity].
      rewrite isOk_prependOk. auto. }
    destruct (String.eqb x "-n").
    { apply elem_of_cons in Hin as [Heq|Hin].
      - subst y. pose proof (singleLetterFlag_parseInt a Hflag) as Hp.
        destruct (Js.parseInt a) as [n|]; [|reflexivity].
        destruct (Z.ltb_spec n 1); [reflexivity|lia].
      - destruct (Js.parseInt y) as [n|]; [|reflexivity].
        destruct (n <? 1)%Z; [reflexivity|].
        rewrite isOk_prependOk. auto. }
    destruct (singleLetterFlag x); [reflexivity|].
    rewrite isOk_prependOk. auto.
Qed.

(** X3: after a success, every argument that begins with two dashes
    carries an allowed flag: its text before the first [=] is in
    [ALLOWED_GIT_LOG_FLAGS]. *)
Lemma sanitize_double_dash_allowed args out a :
  sanitizeGitLogArgs args = Ok out →
  a ∈ args → Js.startsWith a "--" = true →
  allowedFlag (flagPortion a) = true.
Proof.
  revert out.
  induction args as [| x | x y l IHl IHyl] using list_pair_ind; intros out.
  - intros _ Hin. inversion Hin.
  - intros Hok Hin%list_elem_of_singleton Hdd. subst x. revert Hok.
    rewrite sanitizeGitLogArgs_cons, Hdd.
    destruct (DANGEROUS_CHARS a); [discriminate|].
    destruct (allowedFlag _); [reflexivity|discriminate].
  - rewrite sanitizeGitLogArgs_cons.
    destruct (DANGEROUS_CHARS x); [discriminate|].
    destruct (Js.startsWith x "--") eqn:Hx.
    { destruct (allowedFlag (flagPortion x)) eqn:Hal; [|discriminate].
      intros (out' & Hok & _)%prependOk_Ok_inv [Heq|Hin]%elem_of_cons Hdd;
        [subst x; exact Hal|eauto]. }
    destruct (String.eqb_spec x "-n") as [->|Hn].
    { destruct (Js.parseInt y) as [n|] eqn:Hy; [|discriminate].
      destruct (n <? 1)%Z; [discriminate|].
      intros (out' & Hok & _)%prependOk_Ok_inv Hin Hdd.
      apply elem_of_cons in Hin as [Heq|Hin]; [subst a; discriminate|].
      apply elem_of_cons in Hin as [Heq|Hin]; [subst y|eauto].
      rewrite (startsWith_dash_dash_parseInt _ Hdd) in Hy. discriminate. }
    destruct (singleLetterFlag x); [discriminate|].
    intros (out' & Hok & _)%prependOk_Ok_inv [Heq|Hin]%elem_of_cons Hdd;
      [subst x; congruence|eauto].
Qed.

Lemma countsCapped_lookup out : countsCapped out →
  ∀ i v, out !! i = Some "-n" → out !! S i = Some v → cappedCount v = true.
Proof.
  induction out as [|a rest IH]; intros Hc i v; [discriminate|].
  destruct Hc as [Ha Hrest]. destruct i as [|i]; simpl.
  - intros [= ->]. destruct rest; [discriminate|].
    intros [= <-]. auto.
  - apply IH, Hrest.
Qed.

Lemma sanitize_countsCapped args : ∀ out,
  sanitizeGitLogArgs args = Ok out → countsCapped out.
Proof.
  induction args as [| x | x y l IHl IHyl] using list_pair_ind; intros out.
  - intros [= <-]. exact I.
  - rewrite sanitizeGitLogArgs_cons.
    repeat case_match; try discriminate; intros [= <-]; simpl; tauto.
  - rewrite sanitizeGitLogArgs_cons.
    destruct (DANGEROUS_CHARS x); [discriminate|].
    destruct (Js.startsWith x "--") eqn:Hx.
    { destruct (allowedFlag _); [|discriminate].
      intros (out' & Hok & ->)%prependOk_Ok_inv. simpl. split; [|eauto].
      intros ->. discriminate. }
    destruct (String.eqb_spec x "-n") as [->|Hn].
    { destruct (Js.parseInt y) as [n|] eqn:Hy; [|discriminate].
      destruct (Z.ltb_spec n 1); [discriminate|].
      intros (out' & Hok & ->)%prependOk_Ok_inv.
      pose proof (cappedCount_min n ltac:(lia)) as Hc.
      simpl. split; [auto|]. split; [|eauto].
      intros Heq. rewrite Heq in Hc. discriminate. }
    destruct (singleLetterFlag x); [discriminate|].
    intros (out' & Hok & ->)%prependOk_Ok_inv. simpl. split; [|eauto].
    intros ->. contradiction.
Qed.

(** X5: in the sanitized list the value that follows a [-n] reads as a
    number between 1 and 50. *)
Lemma sanitize_n_capped args out i v :
  sanitizeGitLogArgs args = Ok out →
  out !! i = Some "-n" → out !! S i = Some v →
  ∃ N, Js.parseInt v = Some N ∧ (1 ≤ N ≤ 50)%Z.
Proof.
  intros Hok Hi Hv.
  pose proof (countsCapped_lookup out (sanitize_countsCapped _ _ Hok) i v Hi Hv)
    as Hc.
  unfold cappedCount in Hc. apply andb_true_iff in Hc as [_ Hc].
  destruct (Js.parseInt v) as [N|]; [|discriminate].
  apply andb_true_iff in Hc as [H1 H2].
  apply Z.leb_le in H1, H2. eauto.
Qed.

(** The sanitized list itself is free of dangerous characters. *)
Lemma sanitize_output_clean args : ∀ out,
  sanitizeGitLogArgs args = Ok out →
  Forall (fun a => DANGEROUS_CHARS a = false) out.
Proof.
  assert (Hcap : ∀ n, (1 ≤ n)%Z →
            DANGEROUS_CHARS (Js.numberToString (Z.min n 50)) = false).
  { intros n Hn. pose proof (cappedCount_min n Hn) as Hc.
    unfold cappedCount in Hc.
    apply andb_true_iff in Hc as [[Hc _]%andb_true_iff _].
    apply negb_true_iff in Hc. exact Hc. }
  induction args as [| x | x y l IHl IHyl] using list_pair_ind; intros out.
  - intros [= <-]. constructor.
  - rewrite sanitizeGitLogArgs_cons.
    destruct (DANGEROUS_CHARS x) eqn:Hx; [discriminate|].
    repeat case_match; try discriminate; intros [= <-]; repeat constructor;
      assumption.
  - rewrite sanitizeGitLogArgs_cons.
    destruct (DANGEROUS_CHARS x) eqn:Hx; [discriminate|].
    destruct (Js.startsWith x "--").
    { destruct (allowedFlag _); [|discriminate].
      intros (out' & Hok & ->)%prependOk_Ok_inv. constructor; eauto. }
    destruct (String.eqb x "-n").
    { destruct (Js.parseInt y) as [n|]; [|discriminate].
      destruct (Z.ltb_spec n 1); [discriminate|].
      intros (out' & Hok & ->)%prependOk_Ok_inv.
      repeat constructor; eauto. }
    destruct (singleLetterFlag x); [discriminate|].
    intros (out' & Hok & ->)%prependOk_Ok_inv. constructor; eauto.
Qed.

(** X2: after a success, an argument that does not directly follow a
    [-n] is free of dangerous characters: only the token consumed as the
    count of [-n] escapes the test. *)
Lemma sanitize_examined_args_clean args : ∀ out i a,
  sanitizeGitLogArgs args = Ok out →
  args !! i = Some a →
  match i with O => True | S j => args !! j ≠ Some "-n" end →
  DANGEROUS_CHARS a = false.
Proof.
  induction args as [| x | x y l IHl IHyl] using list_pair_ind;
    intros out i a.
  - intros _ Hi. destruct i; discriminate.
  - rewrite sanitizeGitLogArgs_cons.
    destruct (DANGEROUS_CHARS x) eqn:Hx; [discriminate|].
    intros _ Hi _. destruct i as [|[|i]]; [|discriminate..].
    injection Hi as <-. exact Hx.
  - rewrite sanitizeGitLogArgs_cons.
    destruct (DANGEROUS_CHARS x) eqn:Hx; [discriminate|].
    destruct (Js.startsWith x "--").
    { destruct (allowedFlag _); [|discriminate].
      intros (out' & Hok & _)%prependOk_Ok_inv Hi Hprev.
      destruct i as [|i]; [injection Hi as <-; exact Hx|].
      apply (IHyl out' i a Hok Hi). destruct i; [exact I|exact Hprev]. }
    destruct (String.eqb_spec x "-n") as [->|Hn].
    { destruct (Js.parseInt y) as [n|]; [|discriminate].
      destruct (n <? 1)%Z; [discriminate|].
      intros (out' & Hok & _)%prependOk_Ok_inv Hi Hprev.
      destruct i as [|[|i]]; [injection Hi as <-; exact Hx| |].
      - exfalso. apply Hprev. reflexivity.
      - apply (IHl out' i a Hok Hi). destruct i; [exact I|exact Hprev]. }
    destruct (singleLetterFlag x); [discriminate|].
    intros (out' & Hok & _)%prependOk_Ok_inv Hi Hprev.
    destruct i as [|i]; [injection Hi as <-; exact Hx|].
    apply (IHyl out' i a Hok Hi). destruct i; [exact I|exact Hprev].
Qed.


(** *** Arguments before and after a sanitized prefix *)

(** When a prefix is accepted and does not end in a [-n] that still waits
    for its count, the loop treats what follows on its own. *)
Lemma sanitize_app pre : ∀ spre rest,
  sanitizeGitLogArgs pre = Ok spre → last pre ≠ Some "-n" →
  sanitizeGitLogArgs (pre ++ rest) = prependOk spre (sanitizeGitLogArgs rest).
Proof.
  induction pre as [| x | x y l IHl IHyl] using list_pair_ind;
    intros spre rest.
  - intros [= <-] _. simpl. symmetry. apply prependOk_nil.
  - change ([x] ++ rest) with (x :: rest).
    rewrite (sanitizeGitLogArgs_cons x []), (sanitizeGitLogArgs_cons x rest).
    destruct (DANGEROUS_CHARS x); [discriminate|].
    destruct (Js.startsWith x "--").
    { destruct (allowedFlag _); [|discriminate]. intros [= <-] _. reflexivity. }
    destruct (String.eqb_spec x "-n") as [->|Hn].
    { intros _ Hlast. exfalso. apply Hlast. reflexivity. }
    destruct (singleLetterFlag x); [discriminate|].
    intros [= <-] _. reflexivity.
  - change ((x :: y :: l) ++ rest) with (x :: y :: (l ++ rest)).
    rewrite (sanitizeGitLogArgs_cons x (y :: l)),
      (sanitizeGitLogArgs_cons x (y :: l ++ rest)).
    destruct (DANGEROUS_CHARS x); [discriminate|].
    destruct (Js.startsWith x "--").
    { destruct (allowedFlag _); [|discriminate].
      intros (out' & Hok & ->)%prependOk_Ok_inv Hlast.
      change (y :: l ++ rest) with ((y :: l) ++ rest).
      rewrite (IHyl out' rest Hok Hlast), prependOk_app. reflexivity. }
    destruct (String.eqb_spec x "-n") as [->|Hn].
    { destruct (Js.parseInt y) as [n|]; [|discriminate].
      destruct (n <? 1)%Z; [discriminate|].
      intros (out' & Hok & ->)%prependOk_Ok_inv Hlast.
      rewrite (IHl out' rest Hok), prependOk_app; [reflexivity|].
      destruct l; [discriminate|exact Hlast]. }
    destruct (singleLetterFlag x); [discriminate|].
    intros (out' & Hok & ->)%prependOk_Ok_inv Hlast.
    change (y :: l ++ rest) with ((y :: l) ++ rest).
    rewrite (IHyl out' rest Hok Hlast), prependOk_app. reflexivity.
Qed.

Lemma singleDashLong_positional a rest :
  singleDashLong a = true → DANGEROUS_CHARS a = false →
  sanitizeGitLogArgs (a :: rest) = prependOk [a] (sanitizeGitLogArgs rest).
Proof.
  unfold singleDashLong.
  intros [[Hd Hdd%negb_true_iff]%andb_true_iff Hlen%Nat.ltb_lt]%andb_true_iff
    Hclean.
  rewrite sanitizeGitLogArgs_cons, Hclean, Hdd.
  destruct (String.eqb_spec a "-n") as [->|_]; [simpl in Hlen; lia|].
  unfold singleLetterFlag. rewrite Hd.
  destruct (Nat.eqb_spec (String.length a) 2) as [Heq|_]; [lia|reflexivity].
Qed.

(** C1 (as the code has it): the token that follows a [-n] is consumed by
    [parseInt] and never reaches the test for dangerous characters, so an
    argument list that contains a semicolon is accepted; the returned list
    holds the parsed count instead of the token. *)
Theorem sanitize_accepts_dangerous_count :
  sanitizeGitLogArgs ["-n"; "5;rm -rf /"] = Ok ["-n"; "5"]
  ∧ DANGEROUS_CHARS "5;rm -rf /" = true
  ∧ "5;rm -rf /" ∈ ["-n"; "5;rm -rf /"].
Proof.
  split; [reflexivity|]. split; [reflexivity|].
  apply elem_of_cons. right. apply elem_of_cons. left. reflexivity.
Qed.

(** C2, the claim as stated fails: [-x5] has one dash, three characters
    and no dangerous character, the arguments before it are accepted, and
    yet it is not passed through, because it stands right after a [-n] and
    is read as its count. *)
Lemma long_dash_arg_after_n_rejected :
  singleDashLong "-x5" = true
  ∧ DANGEROUS_CHARS "-x5" = false
  ∧ sanitizeGitLogArgs ["-n"] = Ok ["-n"]
  ∧ sanitizeGitLogArgs ["-n"; "-x5"] = Fail (InvalidN "-x5").
Proof. repeat split; reflexivity. Qed.

(** C2 (amended): an argument with a single dash and more than two
    characters, free of dangerous characters, that does not directly follow
    a [-n] waiting for its count, takes the positional branch: after an
    accepted prefix it is appended unchanged and the scan goes on with the
    arguments behind it.  Neither the cap of [-n] nor the rejection of
    single-letter flags applies to it. *)
Theorem long_dash_arg_positional pre a post spre :
  singleDashLong a = true →
  DANGEROUS_CHARS a = false →
  sanitizeGitLogArgs pre = Ok spre →
  last pre ≠ Some "-n" →
  sanitizeGitLogArgs (pre ++ a :: post)
  = prependOk (spre ++ [a]) (sanitizeGitLogArgs post).
Proof.
  intros Hlong Hclean Hpre Hlast.
  rewrite (sanitize_app pre spre (a :: post) Hpre Hlast).
  rewrite (singleDashLong_positional a post Hlong Hclean).
  apply prependOk_app.
Qed.

Lemma long_dash_arg_positional_witness :
  sanitizeGitLogArgs (["--no-merges"] ++ "-n500" :: ["-n"; "70"])
  = Ok ["--no-merges"; "-n500"; "-n"; "50"].
Proof.
  rewrite (long_dash_arg_positional ["--no-merges"] "-n500" ["-n"; "70"]
             ["--no-merges"]).
  - reflexivity.
  - reflexivity.
  - reflexivity.
  - reflexivity.
  - simpl. discriminate.
Defined.

Example sanitize_n500_passes : sanitizeGitLogArgs ["-n500"] = Ok ["-n500"].
Proof. reflexivity. Qed.

Example sanitize_x5_passes : sanitizeGitLogArgs ["-x5"] = Ok ["-x5"].
Proof. reflexivity. Qed.

Example sanitize_x_rejected :
  sanitizeGitLogArgs ["-x"] = Fail (DisallowedFlag "-x").
Proof. reflexivity. Qed.

(** ** Scope matching and the index query *)

Example query_scope_auth :
  queryIndexForHashes false fixtureIndex
    {| p_scope := Some "auth"; p_intents := None; p_session := None;
       p_decidedAgainst := None; p_limit := None |}
  = Ok ["aaa"; "ccc"].
Proof. vm_compute. reflexivity. Qed.

Example query_decided_against_redis :
  queryIndexForHashes false fixtureIndex
    {| p_scope := None; p_intents := None; p_session := None;
       p_decidedAgainst := Some "Redis"; p_limit := None |}
  = Ok ["bbb"].
Proof. vm_compute. reflexivity. Qed.

Example query_intent_and_scope :
  queryIndexForHashes false fixtureIndex
    {| p_scope := Some "cache"; p_intents := Some ["fix-defect"];
       p_session := None; p_decidedAgainst := None; p_limit := None |}
  = Ok ["bbb"].
Proof. vm_compute. reflexivity. Qed.

(** A session named like a method of [Object.prototype]: the function
    found is handed to [new Set], which throws. *)
Example query_session_constructor :
  queryIndexForHashes false fixtureIndex
    {| p_scope := None; p_intents := None; p_session := Some "constructor";
       p_decidedAgainst := None; p_limit := None |}
  = Fail (NotIterable "constructor").
Proof. vm_compute. reflexivity. Qed.

Lemma startsWith_app_char s : ∀ p c,
  Js.startsWith s (p ++ String c EmptyString)%string
  = Js.startsWith s p
    && match Js.charAt s (String.length p) with
       | Some c' => Ascii.eqb c' c
       | None => false
       end.
Proof.
  induction s as [|a s IH]; intros [|b p] c; simpl; try reflexivity.
  - rewrite andb_true_r. reflexivity.
  - rewrite IH. unfold Js.charAt. rewrite andb_assoc. reflexivity.
Qed.

(** C6: [scopeMatches(k, p)] holds exactly when the lower-cased key equals
    the lower-cased pattern or starts with the lower-cased pattern followed
    by a slash; the pattern [auth] matches [auth], [auth/login] and
    [auth/login/flow] and does not match [authn]. *)
Theorem scopeMatches_iff_equal_or_descendant :
  (∀ k p : string,
     scopeMatches k p = true
     ↔ Js.toLowerCase k = Js.toLowerCase p
       ∨ Js.startsWith (Js.toLowerCase k) (Js.toLowerCase p ++ "/")%string
         = true)
  ∧ scopeMatches "auth" "auth" = true
  ∧ scopeMatches "auth/login" "auth" = true
  ∧ scopeMatches "auth/login/flow" "auth" = true
  ∧ scopeMatches "authn" "auth" = false.
Proof.
  split; [|repeat split; reflexivity].
  intros k p. unfold scopeMatches. cbv zeta.
  rewrite startsWith_app_char, orb_true_iff, String.eqb_eq. reflexivity.
Qed.

(** *** Sets in insertion order *)

Lemma elem_of_setAdd s x h : h ∈ setAdd s x ↔ h ∈ s ∨ h = x.
Proof.
  unfold setAdd. case_bool_decide as Hx.
  - split; [tauto|]. intros [?| ->]; assumption.
  - rewrite elem_of_app, list_elem_of_singleton. tauto.
Qed.

Lemma NoDup_setAdd s x : NoDup s → NoDup (setAdd s x).
Proof.
  intros Hs. unfold setAdd. case_bool_decide as Hx; [assumption|].
  apply NoDup_app. split; [assumption|]. split.
  - intros y Hy ->%list_elem_of_singleton. contradiction.
  - apply NoDup_singleton.
Qed.

Lemma elem_of_fold_setAdd l : ∀ acc h,
  h ∈ fold_left setAdd l acc ↔ h ∈ acc ∨ h ∈ l.
Proof.
  induction l as [|x l IH]; intros acc h; simpl.
  - rewrite elem_of_nil. tauto.
  - rewrite IH, elem_of_setAdd, elem_of_cons. tauto.
Qed.

Lemma NoDup_fold_setAdd l : ∀ acc,
  NoDup acc → NoDup (fold_left setAdd l acc).
Proof.
  induction l as [|x l IH]; intros acc Hacc; simpl; [assumption|].
  apply IH, NoDup_setAdd, Hacc.
Qed.


Lemma elem_of_newSet hs h : h ∈ newSet hs ↔ h ∈ hs.
Proof.
  unfold newSet. rewrite elem_of_fold_setAdd, elem_of_nil. tauto.
Qed.

Lemma NoDup_newSet hs : NoDup (newSet hs).
Proof. apply NoDup_fold_setAdd, NoDup_nil_2. Qed.


(** *** The chain of intersections *)

Lemma elem_of_List_filter {A} (f : A → bool) l x :
  x ∈ List.filter f l ↔ x ∈ l ∧ f x = true.
Proof. rewrite !list_elem_of_In. apply filter_In. Qed.

Lemma List_filter_filter {A} (f g : A → bool) l :
  List.filter g (List.filter f l) = List.filter (λ x, f x && g x) l.
Proof.
  induction l as [|x l IH]; simpl; [reflexivity|].
  destruct (f x); simpl; [|exact IH].
  destruct (g x); simpl; congruence.
Qed.

Lemma List_filter_true {A} (l : list A) : List.filter (λ _, true) l = l.
Proof. induction l; simpl; congruence. Qed.


Lemma fold_intersect fs : ∀ c,
  fold_left intersect fs (Some c) = Some (List.filter (inEvery fs) c).
Proof.
  induction fs as [|f fs IH]; intros c; simpl.
  - unfold inEvery. simpl. rewrite List_filter_true. reflexivity.
  - rewrite IH, List_filter_filter. f_equal.
    apply filter_ext. intros h. unfold inEvery. simpl. f_equal.
    apply bool_decide_ext, elem_of_newSet.
Qed.

(** The candidates are the first present filter's set, thinned by the
    others. *)
Lemma fold_presentFilters fs :
  fold_left intersect fs None =
    match fs with
    | [] => None
    | f :: fs => Some (List.filter (inEvery fs) (newSet f))
    end.
Proof. destruct fs as [|f fs]; [reflexivity|]. simpl. apply fold_intersect. Qed.

(** *** Lookups that stay with the own properties *)

Lemma getProperty_own {A} unsafeProto (obj : gmap string A) key :
  inherited unsafeProto obj key = false →
  getProperty unsafeProto obj key
  = match obj !! key with
    | Some value => OwnProperty value
    | None => NoProperty
    end.
Proof.
  unfold inherited, getProperty.
  destruct (obj !! key); [reflexivity|]. intros ->. reflexivity.
Qed.

Lemma getProperty_inherited {A} unsafeProto (obj : gmap string A) key :
  inherited unsafeProto obj key = true →
  getProperty unsafeProto obj key = InheritedProperty.
Proof.
  unfold inherited, getProperty.
  destruct (obj !! key); [discriminate|]. intros ->. reflexivity.
Qed.

Lemma hashesAt_own unsafeProto obj key :
  inherited unsafeProto obj key = false →
  hashesAt unsafeProto obj key = Ok (default [] (obj !! key)).
Proof.
  intros Hown. unfold hashesAt. rewrite (getProperty_own _ _ _ Hown).
  destruct (obj !! key); reflexivity.
Qed.

Lemma hashesAt_inherited unsafeProto obj key :
  inherited unsafeProto obj key = true →
  hashesAt unsafeProto obj key = Fail (NotIterable key).
Proof.
  intros Hinh. unfold hashesAt. rewrite (getProperty_inherited _ _ _ Hinh).
  reflexivity.
Qed.

Lemma intentHashesFrom_own unsafeProto idx intents : ∀ ih,
  existsb (inherited unsafeProto (byIntent idx)) intents = false →
  intentHashesFrom unsafeProto idx intents ih
  = Ok (fold_left
          (λ ih i, fold_left setAdd (default [] (byIntent idx !! i)) ih)
          intents ih).
Proof.
  induction intents as [|i intents IH]; intros ih; simpl; [reflexivity|].
  intros [Hi Hrest]%orb_false_iff.
  rewrite (hashesAt_own _ _ _ Hi). apply IH, Hrest.
Qed.

Lemma intentHashesFrom_inherited unsafeProto idx intents : ∀ ih,
  existsb (inherited unsafeProto (byIntent idx)) intents = true →
  ∃ e, intentHashesFrom unsafeProto idx intents ih = Fail e.
Proof.
  induction intents as [|i intents IH]; intros ih; simpl; [discriminate|].
  destruct (inherited unsafeProto (byIntent idx) i) eqn:Hi; simpl.
  - intros _. rewrite (hashesAt_inherited _ _ _ Hi). eauto.
  - intros Hrest. rewrite (hashesAt_own _ _ _ Hi). apply IH, Hrest.
Qed.

Lemma decidedAgainstFrom_own unsafeProto idx kw hs : ∀ m,
  existsb (inherited unsafeProto (commits idx)) hs = false →
  decidedAgainstFrom unsafeProto idx kw hs m
  = Ok (m ++ List.filter
               (λ h, match commits idx !! h with
                     | Some c =>
                         existsb (λ d, wordBoundaryMatch d kw)
                           (decidedAgainst c)
                     | None => false
                     end) hs).
Proof.
  induction hs as [|h hs IH]; intros m; simpl.
  { rewrite app_nil_r. reflexivity. }
  intros [Hh Hrest]%orb_false_iff.
  rewrite (getProperty_own _ _ _ Hh).
  destruct (commits idx !! h) as [c|]; [|apply IH, Hrest].
  rewrite (IH _ Hrest).
  destruct (existsb _ (decidedAgainst c)); [|reflexivity].
  rewrite <- app_assoc. reflexivity.
Qed.

Lemma decidedAgainstFrom_inherited unsafeProto idx kw hs : ∀ m,
  existsb (inherited unsafeProto (commits idx)) hs = true →
  ∃ e, decidedAgainstFrom unsafeProto idx kw hs m = Fail e.
Proof.
  induction hs as [|h hs IH]; intros m; simpl; [discriminate|].
  destruct (inherited unsafeProto (commits idx) h) eqn:Hh; simpl.
  - intros _. rewrite (getProperty_inherited _ _ _ Hh). eauto.
  - intros Hrest. rewrite (getProperty_own _ _ _ Hh).
    destruct (commits idx !! h); apply IH, Hrest.
Qed.

(** A query that reaches no inherited property runs through the chain of
    intersections. *)
Lemma queryCandidates_own unsafeProto idx p :
  reachesPrototype unsafeProto idx p = false →
  queryCandidates unsafeProto idx p
  = Ok (fold_left intersect (presentFilters idx p) None).
Proof.
  unfold reachesPrototype, queryCandidates, presentFilters, intentHashes,
    sessionHashes, decidedAgainstHashes, ownIntentHashes, ownSessionHashes,
    ownDecidedAgainstHashes.
  intros [[Hi Hs]%orb_false_iff Hd]%orb_false_iff.
  destruct (p_intents p) as [[|i is']|];
    rewrite ?(intentHashesFrom_own _ _ _ _ Hi);
    (destruct (p_session p) as [[|? ?]|];
     rewrite ?(hashesAt_own _ _ _ Hs);
     (destruct (p_decidedAgainst p) as [[|? ?]|];
      rewrite ?(decidedAgainstFrom_own _ _ _ _ _ Hd);
      destruct (p_scope p) as [[|? ?]|]; reflexivity)).
Qed.

(** A query that reaches an inherited property throws. *)
Lemma queryCandidates_inherited unsafeProto idx p :
  reachesPrototype unsafeProto idx p = true →
  ∃ e, queryCandidates unsafeProto idx p = Fail e.
Proof.
  unfold reachesPrototype, queryCandidates, intentHashes, sessionHashes,
    decidedAgainstHashes.
  destruct (match p_intents p with
            | Some intents =>
                existsb (inherited unsafeProto (byIntent idx)) intents
            | None => false
            end) eqn:Hi.
  { intros _. destruct (p_intents p) as [[|i is']|]; try discriminate.
    destruct (intentHashesFrom_inherited _ _ _ [] Hi) as [e ->]. eauto. }
  assert (Hint : ∃ cands,
    match p_intents p with
    | Some (i :: is') =>
        match intentHashesFrom unsafeProto idx (i :: is') [] with
        | Ok ih => Ok (intersect None ih)
        | Fail e => Fail e
        end
    | _ => Ok None
    end = Ok cands).
  { destruct (p_intents p) as [[|i is']|]; eauto.
    rewrite (intentHashesFrom_own _ _ _ _ Hi). eauto. }
  destruct Hint as [cands ->]. simpl.
  destruct (match p_session p with
            | Some (String c s) =>
                inherited unsafeProto (bySession idx) (String c s)
            | _ => false
            end) eqn:Hs.
  { intros _. destruct (p_session p) as [[|c s]|]; try discriminate.
    rewrite (hashesAt_inherited _ _ _ Hs). eauto. }
  assert (Hses : ∃ cands',
    match p_session p with
    | Some (String c s) =>
        match hashesAt unsafeProto (bySession idx) (String c s) with
        | Ok hs => Ok (intersect cands hs)
        | Fail e => Fail e
        end
    | _ => Ok cands
    end = Ok cands').
  { destruct (p_session p) as [[|c s]|]; eauto.
    rewrite (hashesAt_own _ _ _ Hs). eauto. }
  destruct Hses as [cands' ->]. simpl.
  intros Hd. destruct (p_decidedAgainst p) as [[|c s]|]; try discriminate.
  destruct (decidedAgainstFrom_inherited _ _ (String c s) _ [] Hd) as [e ->].
  eauto.
Qed.

(** *** The hashes of each filter *)

Lemma elem_of_intentHashes idx intents h :
  h ∈ ownIntentHashes idx intents ↔ passesIntents idx intents h.
Proof.
  unfold ownIntentHashes, passesIntents.
  assert (H : ∀ acc,
    h ∈ fold_left
          (λ ih i, fold_left setAdd (default [] (byIntent idx !! i)) ih)
          intents acc
    ↔ h ∈ acc ∨ ∃ i hs, i ∈ intents ∧ byIntent idx !! i = Some hs ∧ h ∈ hs).
  { induction intents as [|i intents IH]; intros acc; simpl.
    - split; [tauto|]. intros [?|(i & hs & Hi & _)]; [assumption|].
      inversion Hi.
    - rewrite IH, elem_of_fold_setAdd. split.
      + intros [[?|Hh]|(j & hs & Hj & Hm & Hh)].
        * tauto.
        * right. destruct (byIntent idx !! i) as [hs|] eqn:Hi;
            [|inversion Hh].
          exists i, hs. split; [apply elem_of_cons; tauto|]. split; trivial.
        * right. exists j, hs. split; [apply elem_of_cons; tauto|].
          split; trivial.
      + intros [?|(j & hs & [->|Hj]%elem_of_cons & Hm & Hh)].
        * tauto.
        * left. right. rewrite Hm. exact Hh.
        * right. eauto. }
  rewrite H, elem_of_nil. tauto.
Qed.

Lemma elem_of_sessionHashes idx s h :
  h ∈ ownSessionHashes idx s ↔ passesSession idx s h.
Proof.
  unfold ownSessionHashes, passesSession.
  destruct (bySession idx !! s) as [hs|]; simpl.
  - split; [eauto|]. intros (? & [= <-] & ?). assumption.
  - rewrite elem_of_nil. split; [tauto|]. intros (? & [=] & _).
Qed.

Lemma elem_of_decidedAgainstHashes idx kw h :
  h ∈ ownDecidedAgainstHashes idx kw ↔ passesDecidedAgainst idx kw h.
Proof.
  unfold ownDecidedAgainstHashes, passesDecidedAgainst.
  rewrite elem_of_List_filter.
  destruct (commits idx !! h) as [c|].
  - rewrite existsb_exists. split.
    + intros [Hin (d & Hd & Hm)]. split; [assumption|].
      exists c, d. rewrite list_elem_of_In. auto.
    + intros [Hin (c' & d & [= <-] & Hd & Hm)]. split; [assumption|].
      exists d. rewrite <- list_elem_of_In. auto.
  - split; [intros [_ [=]]|]. intros [_ (? & ? & [=] & _)].
Qed.

Lemma elem_of_scopeHashes idx pat h :
  h ∈ scopeHashes idx pat ↔ passesScope idx pat h.
Proof.
  unfold scopeHashes, passesScope.
  rewrite list_elem_of_In, in_concat. split.
  - intros (hs & Hhs & Hh).
    apply in_map_iff in Hhs as ([k hs'] & <- & Hf).
    apply filter_In in Hf as [Hin Hm]. simpl in *.
    exists k, hs'. rewrite !list_elem_of_In. auto.
  - intros (k & hs & Hin & Hm & Hh). exists hs.
    split; [|by apply list_elem_of_In].
    apply in_map_iff. exists (k, hs). split; [reflexivity|].
    apply filter_In. split; [by apply list_elem_of_In|exact Hm].
Qed.

Lemma passesAll_presentFilters idx p h :
  passesAll idx p h ↔ Forall (λ l, h ∈ l) (presentFilters idx p).
Proof.
  unfold passesAll, presentFilters. rewrite !Forall_app.
  assert (Hone : ∀ (o : option string) (hashes : string → list string)
                   (passes : string → Prop),
            (∀ s, h ∈ hashes s ↔ passes s) →
            (∀ c s, o = Some (String c s) → passes (String c s))
            ↔ Forall (λ l, h ∈ l)
                match o with
                | Some (String c s) => [hashes (String c s)]
                | _ => []
                end).
  { intros o hashes passes Hiff. destruct o as [[|c s]|].
    - split; [constructor|discriminate].
    - rewrite Forall_singleton, Hiff. split; [eauto|].
      intros Hp c' s' [= <- <-]. exact Hp.
    - split; [constructor|discriminate]. }
  rewrite <- (Hone (p_session p) (ownSessionHashes idx)
                (λ s, passesSession idx s h)),
    <- (Hone (p_decidedAgainst p) (ownDecidedAgainstHashes idx)
          (λ s, passesDecidedAgainst idx s h)),
    <- (Hone (p_scope p) (scopeHashes idx) (λ s, passesScope idx s h));
    [|intros; apply elem_of_scopeHashes
     |intros; apply elem_of_decidedAgainstHashes
     |intros; apply elem_of_sessionHashes].
  assert (Hint :
    (∀ i is', p_intents p = Some (i :: is') → passesIntents idx (i :: is') h)
    ↔ Forall (λ l, h ∈ l)
        match p_intents p with
        | Some (i :: is') => [ownIntentHashes idx (i :: is')]
        | _ => []
        end).
  { destruct (p_intents p) as [[|i is']|].
    - split; [constructor|discriminate].
    - rewrite Forall_singleton, elem_of_intentHashes. split; [eauto|].
      intros Hp i' is'' [= <- <-]. exact Hp.
    - split; [constructor|discriminate]. }
  rewrite Hint. reflexivity.
Qed.


Lemma inEvery_Forall fs h : inEvery fs h = true ↔ Forall (λ l, h ∈ l) fs.
Proof.
  unfold inEvery. rewrite forallb_forall, Forall_forall.
  split; intros H l Hl.
  - eapply bool_decide_eq_true_1, H. by apply list_elem_of_In.
  - apply bool_decide_eq_true_2, H. by apply list_elem_of_In.
Qed.

Lemma sliceTo_nonneg {A} (l : list A) (e : Z) :
  (0 ≤ e)%Z → sliceTo l e = take (Z.to_nat e) l.
Proof.
  intros He. unfold sliceTo. destruct (Z.ltb_spec e 0); [lia|reflexivity].
Qed.

(** What [queryIndexForHashes] returns when it reaches no inherited
    property. *)
Lemma queryIndexForHashes_own unsafeProto idx p :
  reachesPrototype unsafeProto idx p = false →
  queryIndexForHashes unsafeProto idx p
  = Ok match presentFilters idx p with
       | [] => []
       | f :: fs =>
           sliceTo (List.filter (inEvery fs) (newSet f))
             (limitOrDefault (p_limit p))
       end.
Proof.
  intros Hown. unfold queryIndexForHashes.
  rewrite (queryCandidates_own _ _ _ Hown), fold_presentFilters.
  destruct (presentFilters idx p); reflexivity.
Qed.

Lemma queryIndexForHashes_inherited unsafeProto idx p :
  reachesPrototype unsafeProto idx p = true →
  ∃ e, queryIndexForHashes unsafeProto idx p = Fail e.
Proof.
  intros Hinh. unfold queryIndexForHashes.
  destruct (queryCandidates_inherited _ _ _ Hinh) as [e ->]. eauto.
Qed.

(** A query that returns has reached no inherited property. *)
Lemma queryIndexForHashes_returns unsafeProto idx p hs :
  queryIndexForHashes unsafeProto idx p = Ok hs →
  reachesPrototype unsafeProto idx p = false.
Proof.
  intros Hq. destruct (reachesPrototype unsafeProto idx p) eqn:Hr;
    [|reflexivity].
  destruct (queryIndexForHashes_inherited _ _ _ Hr) as [e He]. congruence.
Qed.




Example wordBoundaryMatch_redis :
  wordBoundaryMatch "Redis sentinel" "redis" = true
  ∧ wordBoundaryMatch "Redis sentinel" "Red" = false
  ∧ wordBoundaryMatch "use (Redis)" "redis" = true.
Proof. repeat split; reflexivity. Qed.

(** ** The trailer parser *)

Lemma skipBlankBack_le lines n : skipBlankBack lines n ≤ n.
Proof.
  induction n as [|i IH]; simpl; [lia|].
  destruct (String.eqb _ _); lia.
Qed.

Lemma skipBlankBack_blank lines n i :
  skipBlankBack lines n ≤ i < n → bodyLine (lineAt lines i) = false.
Proof.
  induction n as [|m IH]; simpl; [lia|].
  destruct (String.eqb_spec (Js.trim (lineAt lines m)) EmptyString) as [Hb|Hb].
  - intros Hi. destruct (decide (i = m)) as [->|Hne].
    + unfold bodyLine, nonEmpty. rewrite Hb. reflexivity.
    + apply IH. lia.
  - lia.
Qed.

(** From [trailerStart] on, every line is blank or a recognized trailer. *)
Lemma scanBack_tail lines : ∀ n ts,
  n ≤ ts ≤ length lines →
  (∀ i, n ≤ i < length lines → bodyLine (lineAt lines i) = false) →
  ∀ i, scanBack lines n ts ≤ i < length lines →
       bodyLine (lineAt lines i) = false.
Proof.
  induction n as [|m IH]; intros ts Hts Htail i; simpl.
  - intros Hi. apply Htail. lia.
  - assert (Hstep : ∀ ts', m ≤ ts' ≤ length lines →
              bodyLine (lineAt lines m) = false →
              scanBack lines m ts' ≤ i < length lines →
              bodyLine (lineAt lines i) = false).
    { intros ts' Hts' Hm. apply IH; [exact Hts'|].
      intros j Hj. destruct (decide (j = m)) as [->|Hne]; [exact Hm|].
      apply Htail. lia. }
    destruct (String.eqb_spec (Js.trim (lineAt lines m)) EmptyString)
      as [Hb|Hb].
    + assert (Hm : bodyLine (lineAt lines m) = false).
      { unfold bodyLine, nonEmpty. rewrite Hb. reflexivity. }
      destruct (skipBlankBack lines m) as [|j].
      * intros Hi. apply Htail. lia.
      * destruct (recognizedTrailer _).
        -- apply Hstep; [lia|exact Hm].
        -- intros Hi. apply Htail. lia.
    + destruct (recognizedTrailer (Js.trim (lineAt lines m))) eqn:Hr.
      * apply Hstep; [lia|]. unfold bodyLine. rewrite Hr.
        apply andb_false_r.
      * lia.
Qed.

Lemma findTrailerStart_le lines : findTrailerStart lines ≤ length lines.
Proof.
  unfold findTrailerStart.
  assert (H : ∀ n ts, n ≤ ts ≤ length lines →
                scanBack lines n ts ≤ length lines).
  { induction n as [|m IH]; intros ts Hts; simpl; [lia|].
    destruct (String.eqb _ _).
    - destruct (skipBlankBack lines m); [lia|].
      destruct (recognizedTrailer _); [apply IH|]; lia.
    - destruct (recognizedTrailer _); [apply IH|]; lia. }
  apply H. pose proof (skipBlankBack_le lines (length lines)). lia.
Qed.

(** A body line lies above [trailerStart]. *)
Lemma bodyLine_above_trailers lines i :
  i < length lines → bodyLine (lineAt lines i) = true →
  i < findTrailerStart lines.
Proof.
  intros Hi Hbody.
  destruct (Nat.lt_ge_cases i (findTrailerStart lines)) as [?|Hge];
    [assumption|].
  pose proof (skipBlankBack_le lines (length lines)) as Hle.
  assert (Hfalse : bodyLine (lineAt lines i) = false).
  { unfold findTrailerStart in Hge.
    eapply scanBack_tail; [| |split; [exact Hge|exact Hi]].
    - lia.
    - intros j Hj. eapply skipBlankBack_blank. exact Hj. }
  congruence.
Qed.

(** C5: the webhook scenario parses with the URL line as body, the intent
    [enable-capability] and the scope [api/webhooks]; and in every message
    a line that is neither blank nor a recognized trailer lies above the
    trailer block together with all lines above it, so that the body is
    made of a prefix of the lines that reaches beyond that line and no
    such line is handed to [parseTrailers]. *)
Theorem webhook_body_line_is_not_a_trailer :
  (∀ JSON_parse,
     ∃ c, parseCommitBlock JSON_parse webhookBlock = Ok c
          ∧ Commit.body c = "Configure via WEBHOOK_URL: https://example.com"
          ∧ Commit.intent c = Some "enable-capability"
          ∧ Commit.scope c = ["api/webhooks"])
  ∧ (∀ rawBody i,
       let lines := Js.split Js.LF rawBody in
       i < length lines →
       bodyLine (lineAt lines i) = true →
       ∃ ts, i < ts ≤ length lines
             ∧ take (S i) lines `prefix_of` take ts lines
             ∧ splitHeaderBodyTrailers rawBody
               = (Js.trim (Js.join Js.nl (take ts lines)),
                  List.filter nonEmpty (map Js.trim (drop ts lines)))
             ∧ Forall (λ l, bodyLine l = false) (drop ts lines)).
Proof.
  split.
  - intros JSON_parse. eexists. split; [vm_compute; reflexivity|].
    repeat split.
  - intros rawBody i lines Hi Hbody.
    pose proof (bodyLine_above_trailers lines i Hi Hbody) as Hlt.
    pose proof (findTrailerStart_le lines) as Hle.
    exists (findTrailerStart lines). split; [lia|]. split; [|split].
    + exists (take (findTrailerStart lines - S i) (drop (S i) lines)).
      rewrite take_take_drop. f_equal. lia.
    + reflexivity.
    + apply Forall_forall. intros l [k Hk]%list_elem_of_lookup.
      rewrite lookup_drop in Hk.
      pose proof (lookup_lt_Some _ _ _ Hk) as Hklt.
      assert (Hl : l = lineAt lines (findTrailerStart lines + k)).
      { unfold lineAt. symmetry. apply nth_lookup_Some with (d := EmptyString).
        exact Hk. }
      rewrite Hl.
      destruct (bodyLine (lineAt lines (findTrailerStart lines + k))) eqn:Hb;
        [|reflexivity].
      apply bodyLine_above_trailers in Hb; [lia|exact Hklt].
Qed.

Lemma webhook_body_line_is_not_a_trailer_witness :
  ∃ ts, 1 < ts ≤ 5
        ∧ splitHeaderBodyTrailers
            (Js.join Js.nl
               [EmptyString; "Configure via WEBHOOK_URL: https://example.com";
                EmptyString; "Intent: enable-capability";
                "Scope: api/webhooks"])
          = (Js.trim (Js.join Js.nl
               (take ts [EmptyString;
                         "Configure via WEBHOOK_URL: https://example.com";
                         EmptyString; "Intent: enable-capability";
                         "Scope: api/webhooks"])),
             List.filter nonEmpty
               (map Js.trim
                  (drop ts [EmptyString;
                            "Configure via WEBHOOK_URL: https://example.com";
                            EmptyString; "Intent: enable-capability";
                            "Scope: api/webhooks"]))).
Proof.
  destruct (proj2 webhook_body_line_is_not_a_trailer
              (Js.join Js.nl
                 [EmptyString;
                  "Configure via WEBHOOK_URL: https://example.com";
                  EmptyString; "Intent: enable-capability";
                  "Scope: api/webhooks"]) 1)
    as (ts & Hts & _ & Hsplit & _).
  - vm_compute. lia.
  - vm_compute. reflexivity.
  - exists ts. split; [exact Hts|exact Hsplit].
Defined.

Lemma find_existsb {A} (f : A → bool) l :
  existsb f l = match List.find f l with Some _ => true | None => false end.
Proof.
  induction l as [|x l IH]; simpl; [reflexivity|].
  destruct (f x); [reflexivity|exact IH].
Qed.

Lemma missingFieldsReason_ne s : missingFieldsReason ≠ nonConventionalReason s.
Proof. discriminate. Qed.

(** The three ways in which [parseCommitBlock] ends. *)
Lemma parseCommitBlock_cases JSON_parse block :
  (lacksRequiredLine block = true
   ∧ ∃ e, parseCommitBlock JSON_parse block = Fail e
          ∧ Commit.reason e = missingFieldsReason)
  ∨ (lacksRequiredLine block = false
     ∧ ∃ s, subjectText block = Some s
       ∧ ((conventional s = false
           ∧ ∃ e, parseCommitBlock JSON_parse block = Fail e
                  ∧ Commit.reason e = nonConventionalReason s)
          ∨ (conventional s = true
             ∧ ∃ c, parseCommitBlock JSON_parse block = Ok c))).
Proof.
  unfold lacksRequiredLine, hasLine, subjectText, conventional, Regex.test,
    parseCommitBlock.
  fold (blockLines block). rewrite !find_existsb.
  destruct (List.find (λ l, Js.startsWith l "Hash: ") (blockLines block))
    as [hashLine|];
    destruct (List.find (λ l, Js.startsWith l "Date: ") (blockLines block))
      as [dateLine|];
    destruct (List.find (λ l, Js.startsWith l "Subject: ") (blockLines block))
      as [subjectLine|];
    cbv beta iota zeta; cbn [negb andb fmap option_fmap option_map].
  2-8: left; split; [reflexivity|eexists; split; reflexivity].
  right. split; [reflexivity|].
  exists (Js.trim (Js.drop 9 subjectLine)). split; [reflexivity|].
  destruct (Regex.exec false HEADER_RE (Js.trim (Js.drop 9 subjectLine)))
    as [headerMatch|].
  - right. split; [reflexivity|].
    destruct (splitHeaderBodyTrailers _). eauto.
  - left. split; [reflexivity|]. eexists. split; reflexivity.
Qed.

(** C9: [parseCommitBlock] fails with the reason "missing required fields"
    exactly when a line starting with [Hash: ], [Date: ] or [Subject: ]
    is absent from the lines of the (trimmed) block, fails with the reason
    "non-conventional subject" exactly when the three lines are there and
    the text of the subject line does not match the header expression, and
    returns a commit exactly when the three lines are there and the
    subject matches. *)
Theorem parseCommitBlock_fails_exactly_when JSON_parse block :
  ((∃ e, parseCommitBlock JSON_parse block = Fail e
         ∧ Commit.reason e = missingFieldsReason)
   ↔ lacksRequiredLine block = true)
  ∧ ((∃ e s, parseCommitBlock JSON_parse block = Fail e
             ∧ subjectText block = Some s
             ∧ Commit.reason e = nonConventionalReason s)
     ↔ lacksRequiredLine block = false
       ∧ ∃ s, subjectText block = Some s ∧ conventional s = false)
  ∧ ((∃ c, parseCommitBlock JSON_parse block = Ok c)
     ↔ lacksRequiredLine block = false
       ∧ ∃ s, subjectText block = Some s ∧ conventional s = true).
Proof.
  destruct (parseCommitBlock_cases JSON_parse block)
    as [[Hl (e & He & Hr)]
       |[Hl (s & Hs & [[Hc (e & He & Hr)]|[Hc (c & Hok)]])]];
    rewrite Hl.
  - split; [|split].
    + split; eauto.
    + split; [|intros [[=] _]]. intros (e' & s & He' & _ & Hr').
      rewrite He in He'. injection He' as <-.
      rewrite Hr in Hr'. destruct (missingFieldsReason_ne _ Hr').
    + split; [|intros [[=] _]]. intros (c & Hok). congruence.
  - split; [|split].
    + split; [|discriminate]. intros (e' & He' & Hr').
      rewrite He in He'. injection He' as <-.
      rewrite Hr in Hr'. symmetry in Hr'.
      destruct (missingFieldsReason_ne _ Hr').
    + split; eauto 6.
    + split; [intros (c & Hok); congruence|].
      intros [_ (s' & Hs' & Hc')]. congruence.
  - split; [|split].
    + split; [|discriminate]. intros (e & He & _). congruence.
    + split; [intros (e & s' & He & _); congruence|].
      intros [_ (s' & Hs' & Hc')]. congruence.
    + split; eauto.
Qed.

Example parseCommitBlock_missing_hash : ∀ JSON_parse,
  ∃ e, parseCommitBlock JSON_parse
         (Js.join Js.nl ["Date: 2025-02-08T10:00:00+00:00";
                         "Subject: feat(auth): add login"]) = Fail e
       ∧ Commit.reason e = missingFieldsReason
       ∧ Commit.e_hash e = "unknown".
Proof. intros. eexists. split; [vm_compute; reflexivity|]. split; reflexivity. Qed.

Example parseCommitBlock_non_conventional : ∀ JSON_parse,
  ∃ e, parseCommitBlock JSON_parse
         (Js.join Js.nl ["Hash: 999888777666";
                         "Date: 2025-02-08T10:00:00+00:00";
                         "Subject: this is not a conventional commit"])
       = Fail e
       ∧ Commit.reason e
         = nonConventionalReason "this is not a conventional commit".
Proof. intros. eexists. split; [vm_compute; reflexivity|]. reflexivity. Qed.

(** ** The REPL driver *)

Example extractCodeBlock_js_fence :
  extractCodeBlock
    ("Here is the code:" ++ Js.nl ++ fenced "console.log(1);" ++ Js.nl
     ++ "Done.")
  = Some "console.log(1);".
Proof. vm_compute. reflexivity. Qed.

Example extractCodeBlock_no_fence :
  extractCodeBlock "The relevant context is about authentication and caching."
  = None.
Proof. vm_compute. reflexivity. Qed.

Example extractCodeBlock_empty_block :
  extractCodeBlock ("```js" ++ Js.nl ++ "   " ++ Js.nl ++ "```") = None.
Proof. vm_compute. reflexivity. Qed.

(** Closes a post-condition whose state is given explicitly. *)
Ltac close_post :=
  unfold loopEnds, blockEnds, turnEnds, leaves, returnOk, readClock,
    withinBudget, Exit in *;
  simpl in *;
  repeat split; intros; unfold Exit in *; simpl in *; simplify_eq;
  simpl in *;
  solve [lia | assumption | congruence].

Section ReplInvariants.

Variable w : World.
Variable rlmMaxTokens : Z.
Variable replConfig : ReplConfig.
Variable startTime : Z.

Local Abbreviation within := (withinBudget replConfig).
Local Abbreviation loopPost := (loopEnds replConfig).

Lemma trackedLlmCall_within messages st :
  within st →
  within (snd (trackedLlmCall w rlmMaxTokens replConfig messages st))
  ∧ keeps st (snd (trackedLlmCall w rlmMaxTokens replConfig messages st)).
Proof.
  unfold withinBudget, keeps, trackedLlmCall, llmBudgetLeft.
  intros [Hle Heq].
  destruct (Nat.ltb_spec (llmCallCount st) (maxLlmCalls replConfig)); simpl;
    repeat split; lia || congruence.
Qed.

Lemma handleGitLog_within args st :
  within st →
  within (snd (handleGitLog w args st)) ∧ keeps st (snd (handleGitLog w args st)).
Proof.
  unfold withinBudget, keeps, handleGitLog. intros [Hle Heq].
  destruct (sanitizeMessageArgs args) as [[sanitized|e]|]; simpl;
    repeat split; assumption.
Qed.

Lemma serve_within e : ∀ st,
  within st →
  within (snd (serve w rlmMaxTokens replConfig e st))
  ∧ keeps st (snd (serve w rlmMaxTokens replConfig e st)).
Proof.
  induction e as [messages resume IH|args resume IH| | |]; intros st Hst;
    cbn [serve].
  - pose proof (trackedLlmCall_within messages st Hst) as [Hw [Ht Hs]].
    destruct (trackedLlmCall w rlmMaxTokens replConfig messages st)
      as [[value|message|exception] st1]; simpl in *.
    + destruct (IH (Ok value) st1 Hw) as [Hw' [Ht' Hs']].
      repeat split; try apply Hw'; congruence.
    + destruct (IH (rejection message) st1 Hw) as [Hw' [Ht' Hs']].
      repeat split; try apply Hw'; congruence.
    + repeat split; try apply Hw; assumption.
  - pose proof (handleGitLog_within args st Hst) as [Hw [Ht Hs]].
    destruct (handleGitLog w args st) as [[response|cause] st1]; simpl in *.
    + match goal with
      | |- context [serve _ _ _ (resume ?r) st1] =>
          destruct (IH r st1 Hw) as [Hw' [Ht' Hs']]
      end.
      repeat split; try apply Hw'; congruence.
    + repeat split; try apply Hw; assumption.
  - simpl. repeat split; apply Hst.
  - simpl. repeat split; apply Hst.
  - simpl. repeat split; apply Hst.
Qed.

Lemma execute_within code st :
  within st →
  within (snd (execute w rlmMaxTokens replConfig code st))
  ∧ keeps st (snd (execute w rlmMaxTokens replConfig code st)).
Proof.
  intros Hst. unfold execute.
  match goal with
  | |- context [serve _ _ _ ?e ?st0] =>
      destruct (serve_within e st0) as [Hw [Ht Hs]]; [exact Hst|]
  end.
  repeat split; try apply Hw; assumption.
Qed.

Lemma replTurn_post i st :
  within st → length (trace st) ≤ i →
  turnEnds replConfig i st
    (replTurn w rlmMaxTokens replConfig startTime i st).
Proof.
  intros Hst Htr.
  unfold replTurn, budgetExhausted, readClock. cbv beta iota zeta.
  destruct Hst as [Hle Heq].
  destruct (_ || _) eqn:Hguard; [close_post|].
  apply orb_false_iff in Hguard as [_ Hleft].
  apply negb_false_iff in Hleft. unfold llmBudgetLeft in Hleft.
  apply Nat.ltb_lt in Hleft. simpl in Hleft.
  unfold countedLlmCall. cbv beta iota zeta.
  destruct (callLlm w _ _ _) as [llmResponse|message|exception];
    [|close_post..].
  destruct (extractCodeBlock llmResponse) as [code|]; [|close_post].
  match goal with
  | |- context [execute _ _ _ code ?s] => set (st1 := s)
  end.
  assert (Hst1 : within st1).
  { unfold withinBudget, st1. simpl. split; lia. }
  destruct (execute_within code st1 Hst1) as [Hw2 [Ht2 Hs2]].
  destruct (execute w rlmMaxTokens replConfig code st1)
    as [[[output|message]|cause] st2]; simpl in Hw2, Ht2, Hs2;
    destruct Hw2 as [Hle2 Heq2].
  - destruct (SandboxOutput.done output);
      destruct (SandboxOutput.doneAnswer output) as [[|c a]|];
      destruct (SandboxOutput.error output) as [[|c' e']|].
    all: unfold turnEnds, leaves, returnOk, readClock; cbv beta iota zeta;
      unfold loopEnds, withinBudget; simpl;
      rewrite ?length_app, ?Ht2, ?Hs2; simpl; close_post.
  - unfold turnEnds, withinBudget; simpl.
    rewrite ?length_app, ?Ht2, ?Hs2; simpl; close_post.
  - unfold turnEnds, loopEnds, withinBudget; simpl.
    rewrite ?Ht2, ?Hs2; simpl; close_post.
Qed.

Lemma replLoop_post remaining : ∀ i st,
  within st → length (trace st) ≤ i →
  loopPost i remaining st
    (replLoop w rlmMaxTokens replConfig startTime remaining i st).
Proof.
  induction remaining as [|remaining IH]; intros i st Hst Htr.
  { destruct Hst. close_post. }
  cbn [replLoop].
  pose proof (replTurn_post i st Hst Htr) as Hturn.
  destruct (replTurn w rlmMaxTokens replConfig startTime i st)
    as [exit st'|st']; simpl in Hturn.
  - destruct Hturn as (H1 & H2 & H3 & H4).
    split; [exact H1|]. split; [exact H2|]. simpl in *.
    split; [lia|]. intros r Hr. specialize (H4 r Hr). lia.
  - destruct Hturn as (H1 & H2 & H3).
    destruct (IH (S i) st' H1 H3) as (K1 & K2 & K3 & K4).
    split; [exact K1|]. split; [congruence|].
    split; [lia|]. intros r Hr. specialize (K4 r Hr). lia.
Qed.

Lemma completeFailure_post st :
  within st → length (trace st) ≤ maxIterations replConfig →
  blockEnds replConfig st (completeFailure w startTime st).
Proof.
  intros [Hle Heq] Htr. unfold blockEnds, completeFailure.
  close_post.
Qed.

Lemma afterLoop_post st :
  within st → length (trace st) ≤ maxIterations replConfig →
  blockEnds replConfig st (afterLoop w replConfig startTime st).
Proof.
  intros Hst Htr. unfold afterLoop.
  destruct (llmBudgetLeft replConfig st) eqn:Hleft;
    [|apply completeFailure_post; assumption].
  unfold llmBudgetLeft in Hleft. apply Nat.ltb_lt in Hleft.
  unfold budgetExhausted, readClock. cbv beta iota zeta.
  destruct Hst as [Hle Heq].
  destruct (negb _).
  - unfold countedLlmCall. cbv beta iota zeta.
    destruct (callLlm w _ _ _) as [value|message|exception].
    + unfold blockEnds. close_post.
    + unfold blockEnds, completeFailure. close_post.
    + unfold blockEnds. close_post.
  - unfold blockEnds, completeFailure. close_post.
Qed.

Lemma tryBlock_post st :
  within st → trace st = [] →
  blockEnds replConfig st (tryBlock w rlmMaxTokens replConfig startTime st).
Proof.
  intros Hst Htr. unfold tryBlock.
  pose proof (replLoop_post (maxIterations replConfig) 0 st Hst) as Hloop.
  rewrite Htr in Hloop. specialize (Hloop (Nat.le_refl 0)).
  destruct (replLoop w rlmMaxTokens replConfig startTime
              (maxIterations replConfig) 0 st) as [[outcome|] st'].
  - destruct Hloop as (H1 & H2 & H3 & H4). simpl in *.
    split; [exact H1|]. split; [exact H2|]. simpl.
    intros r ->. specialize (H4 r eq_refl). lia.
  - destruct Hloop as (H1 & H2 & H3 & _). simpl in *.
    destruct (afterLoop_post st' H1 H3) as (K1 & K2 & K3).
    split; [exact K1|]. split; [congruence|exact K3].
Qed.

(** The loop run up to the start of a turn it reaches. *)
Lemma replLoop_from_turn j : ∀ n st stj,
  stateAtTurn w rlmMaxTokens replConfig startTime j st = Some stj →
  j ≤ n →
  replLoop w rlmMaxTokens replConfig startTime n 0 st
  = replLoop w rlmMaxTokens replConfig startTime (n - j) j stj.
Proof.
  induction j as [|j IH]; intros n st stj.
  - intros [= <-] _. rewrite Nat.sub_0_r. reflexivity.
  - cbn [stateAtTurn].
    destruct (stateAtTurn w rlmMaxTokens replConfig startTime j st)
      as [st'|] eqn:Hj; [|discriminate].
    destruct (replTurn w rlmMaxTokens replConfig startTime j st')
      as [|st''] eqn:Hturn; [discriminate|].
    intros [= <-] Hn.
    rewrite (IH n st st' Hj) by lia.
    replace (n - j) with (S (n - S j)) by lia.
    cbn [replLoop]. rewrite Hturn. reflexivity.
Qed.

(** A turn that leaves the loop with an outcome decides the run. *)
Lemma tryBlock_leaves i st0 st st' outcome :
  stateAtTurn w rlmMaxTokens replConfig startTime i st0 = Some st →
  i < maxIterations replConfig →
  replTurn w rlmMaxTokens replConfig startTime i st = Leaves (Some outcome) st' →
  tryBlock w rlmMaxTokens replConfig startTime st0 = (outcome, st').
Proof.
  intros Hreach Hi Hturn. unfold tryBlock.
  rewrite (replLoop_from_turn i (maxIterations replConfig) st0 st Hreach)
    by lia.
  replace (maxIterations replConfig - i)
    with (S (maxIterations replConfig - S i)) by lia.
  cbn [replLoop]. rewrite Hturn. reflexivity.
Qed.

(** The turn in which the root response has no code block. *)
Lemma replTurn_no_code i st response :
  fst (budgetExhausted w replConfig startTime st) = false →
  llmBudgetLeft replConfig st = true →
  callLlm w (llmInvocations st) (conversation st) (maxOutputTokens replConfig)
  = LlmOk response →
  extractCodeBlock response = None →
  ∃ r st',
    replTurn w rlmMaxTokens replConfig startTime i st
    = Leaves (Some (Resolved (Ok r))) st'
    ∧ ReplResult.answer r = response
    ∧ ReplResult.iterations r = i + 1.
Proof.
  unfold replTurn, budgetExhausted, readClock, llmBudgetLeft, countedLlmCall.
  cbv beta iota zeta. simpl.
  intros -> -> -> ->. simpl. do 2 eexists. split; [reflexivity|].
  split; reflexivity.
Qed.

(** The turn in which the executed code called [done] with a non-empty
    answer. *)
Lemma replTurn_done i st response code output st2 c a :
  fst (budgetExhausted w replConfig startTime st) = false →
  llmBudgetLeft replConfig st = true →
  callLlm w (llmInvocations st) (conversation st) (maxOutputTokens replConfig)
  = LlmOk response →
  extractCodeBlock response = Some code →
  execute w rlmMaxTokens replConfig code
    (pushMessage {| role := assistant; content := response |}
       (snd (countedLlmCall w (conversation st) (maxOutputTokens replConfig)
               (snd (budgetExhausted w replConfig startTime st)))))
  = (Settled (Ok output), st2) →
  SandboxOutput.done output = true →
  SandboxOutput.doneAnswer output = Some (String c a) →
  ∃ r st',
    replTurn w rlmMaxTokens replConfig startTime i st
    = Leaves (Some (Resolved (Ok r))) st'
    ∧ ReplResult.answer r = String c a
    ∧ ReplResult.iterations r = i + 1.
Proof.
  unfold replTurn, budgetExhausted, readClock, llmBudgetLeft, countedLlmCall.
  cbv beta iota zeta. simpl.
  intros -> -> -> -> -> -> ->. simpl. do 2 eexists. split; [reflexivity|].
  split; reflexivity.
Qed.

End ReplInvariants.

Lemma runRepl_leaves w rlmMaxTokens replConfig systemPrompt prompt i st st'
  outcome :
  stateAtTurn w rlmMaxTokens replConfig (performance_now w 0) i
    (initialState systemPrompt prompt) = Some st →
  i < maxIterations replConfig →
  replTurn w rlmMaxTokens replConfig (performance_now w 0) i st
  = Leaves (Some outcome) st' →
  runRepl w rlmMaxTokens replConfig systemPrompt prompt
  = (outcome, finallyClause outcome st').
Proof.
  intros Hreach Hi Hturn. unfold runRepl.
  rewrite (tryBlock_leaves _ _ _ _ _ _ _ _ _ Hreach Hi Hturn). reflexivity.
Qed.



(** X8: the call counter never exceeds [maxLlmCalls] itself: the forced
    final call is guarded by [llmBudgetLeft] like every other call. *)
Lemma runRepl_llm_calls_within_budget
  w rlmMaxTokens replConfig systemPrompt prompt :
  llmCallCount (snd (runRepl w rlmMaxTokens replConfig systemPrompt prompt))
  ≤ maxLlmCalls replConfig.
Proof.
  unfold runRepl. cbv zeta.
  assert (Hinit : withinBudget replConfig (initialState systemPrompt prompt)).
  { split; simpl; lia. }
  pose proof (tryBlock_post w rlmMaxTokens replConfig (performance_now w 0)
                (initialState systemPrompt prompt) Hinit eq_refl)
    as ([Hle Heq] & _).
  destruct (tryBlock w rlmMaxTokens replConfig (performance_now w 0)
              (initialState systemPrompt prompt)) as [outcome st].
  destruct outcome; exact Hle.
Qed.


(** The end-to-end scenario: one code block that queries and calls [done]. *)
Example runRepl_query_and_done :
  let run := runRepl
               (scriptedWorld
                  [fenced "const commits = query({scope: 'auth'}); done('Found ' + commits.length + ' auth commits');"]
                  countingSandbox)
               256 testReplConfig "system prompt" "what auth changes?" in
  ∃ r, fst run = Resolved (Ok r)
       ∧ ReplResult.answer r = "Found 2 auth commits"
       ∧ ReplResult.iterations r = 1
       ∧ 1 ≤ ReplResult.llmCalls r.
Proof.
  eexists. split; [vm_compute; reflexivity|]. repeat split. simpl. lia.
Qed.

(** The three ways in which [runRepl] settles, each with the sandbox
    terminated. *)
Example runRepl_returns_and_terminates :
  let run := runRepl (scriptedWorld [fenced "done('ok')"] exampleSandbox)
               256 testReplConfig "system prompt" "task" in
  (∃ r, fst run = Resolved (Ok r) ∧ ReplResult.answer r = "ok"
        ∧ ReplResult.iterations r = 1)
  ∧ terminateCalls (snd run) = 1.
Proof. split; [eexists; split; [vm_compute; reflexivity|split; reflexivity]|reflexivity]. Qed.

Example runRepl_propagates_failure_and_terminates :
  let run := runRepl (scriptedWorld [] exampleSandbox)
               256 testReplConfig "system prompt" "task" in
  fst run = Resolved (Fail "No more responses")
  ∧ terminateCalls (snd run) = 1.
Proof. split; vm_compute; reflexivity. Qed.

Example runRepl_rejects_and_terminates :
  let run := runRepl
               {| callLlm := λ _ _ _, LlmThrow "connection reset";
                  execGitLog := λ _ _, GitLogOk EmptyString;
                  performance_now := λ k, Z.of_nat k;
                  runCode := λ _ _, TimedOut |}
               256 testReplConfig "system prompt" "task" in
  fst run = Rejected "connection reset"
  ∧ terminateCalls (snd run) = 1.
Proof. split; vm_compute; reflexivity. Qed.

Lemma run_Lit_mismatch {R} multiline l : ∀ before s caps (k : Regex.Cont R),
  Js.startsWith s l = false →
  Regex.run multiline (Regex.Lit l) before s caps k = None.
Proof.
  induction l as [|c l IH]; intros before s caps k; simpl; [discriminate|].
  destruct s as [|a s]; [reflexivity|].
  destruct (Ascii.eqb a c); simpl; [apply IH|reflexivity].
Qed.

(** The code calls [gitLog([5])]: the sanitizer throws on the number,
    inside the message handler, and the process ends. *)
Example runRepl_number_argument_ends_process :
  let run := runRepl (scriptedWorld [fenced "await gitLog([5])"]
                        numberArgSandbox)
               256 testReplConfig "system prompt" "task" in
  fst run = ProcessEnds SanitizeTypeError
  ∧ terminateCalls (snd run) = 0.
Proof. split; vm_compute; reflexivity. Qed.

(** A text without a line that starts with three backticks has no opening
    fence. *)
Lemma matchHere_no_fence before s :
  Regex.atLineStart true before && Js.startsWith s "```" = false →
  Regex.matchHere true openPattern before s = None.
Proof.
  intros Hhere.
  unfold Regex.matchHere, openPattern, Regex.Seq. cbn [foldr Regex.run].
  destruct (Regex.atLineStart true before); [|reflexivity].
  apply run_Lit_mismatch. exact Hhere.
Qed.

(** A text without a line that starts with three backticks has no opening
    fence. *)
Lemma no_fence_line_no_match response :
  hasFenceLine None response = false →
  Regex.exec true openPattern response = None.
Proof.
  unfold Regex.exec. generalize 0 as pos. generalize (@None ascii) as before.
  induction response as [|c s IH]; intros before pos Hfence;
    cbn [hasFenceLine] in Hfence;
    apply orb_false_iff in Hfence as [Hhere Hrest];
    cbn [Regex.execFrom]; rewrite (matchHere_no_fence _ _ Hhere).
  - reflexivity.
  - apply IH. exact Hrest.
Qed.

Lemma no_fence_no_code response :
  Regex.exec true openPattern response = None →
  extractCodeBlock response = None.
Proof. unfold extractCodeBlock. intros ->. reflexivity. Qed.

(** C7, the claim as stated fails: the second root response has no fenced
    block and is returned as the answer, with an iteration count of 2. *)
Lemma no_fence_response_in_second_turn :
  let run := runRepl
               (scriptedWorld [fenced "console.log('x');"; "Plain answer."]
                  exampleSandbox)
               256 testReplConfig "system prompt" "task" in
  Regex.exec true openPattern "Plain answer." = None
  ∧ ∃ r, fst run = Resolved (Ok r)
         ∧ ReplResult.answer r = "Plain answer."
         ∧ ReplResult.iterations r = 2.
Proof.
  split; [vm_compute; reflexivity|].
  eexists. split; [vm_compute; reflexivity|]. split; reflexivity.
Qed.

(** C7 (amended): when the root response obtained in turn [i] of the loop
    (counted from 0) contains no fenced code block, [runRepl] returns that
    entire response as the answer, and the returned iteration count is
    [i + 1]: 1 for the first response. *)
Theorem no_fence_response_is_the_answer
  w rlmMaxTokens replConfig systemPrompt prompt i st response :
  i < maxIterations replConfig →
  stateAtTurn w rlmMaxTokens replConfig (performance_now w 0) i
    (initialState systemPrompt prompt) = Some st →
  fst (budgetExhausted w replConfig (performance_now w 0) st) = false →
  llmBudgetLeft replConfig st = true →
  callLlm w (llmInvocations st) (conversation st) (maxOutputTokens replConfig)
  = LlmOk response →
  Regex.exec true openPattern response = None →
  ∃ r, fst (runRepl w rlmMaxTokens replConfig systemPrompt prompt)
       = Resolved (Ok r)
       ∧ ReplResult.answer r = response
       ∧ ReplResult.iterations r = i + 1.
Proof.
  intros Hi Hreach Hclock Hleft Hllm Hfence.
  destruct (replTurn_no_code w rlmMaxTokens replConfig (performance_now w 0)
              i st response Hclock Hleft Hllm (no_fence_no_code _ Hfence))
    as (r & st' & Hturn & Hanswer & Hiter).
  exists r. rewrite (runRepl_leaves _ _ _ _ _ _ _ _ _ Hreach Hi Hturn).
  auto.
Qed.

Lemma no_fence_response_is_the_answer_witness :
  ∃ r, fst (runRepl
              (scriptedWorld [fenced "console.log('x');"; "Plain answer."]
                 exampleSandbox)
              256 testReplConfig "system prompt" "task")
       = Resolved (Ok r)
       ∧ ReplResult.answer r = "Plain answer."
       ∧ ReplResult.iterations r = 1 + 1.
Proof.
  eapply (no_fence_response_is_the_answer
            (scriptedWorld [fenced "console.log('x');"; "Plain answer."]
               exampleSandbox)
            256 testReplConfig "system prompt" "task" 1).
  - vm_compute. lia.
  - vm_compute. reflexivity.
  - vm_compute. reflexivity.
  - vm_compute. reflexivity.
  - vm_compute. reflexivity.
  - vm_compute. reflexivity.
Defined.

(** X9: when the loop ends without a [return] and both budgets are left,
    the response to the forced final call is the answer, whatever it
    contains, and the iteration count is [maxIterations + 1]. *)
Lemma forced_final_response_is_the_answer
  w rlmMaxTokens replConfig systemPrompt prompt st value :
  replLoop w rlmMaxTokens replConfig (performance_now w 0)
    (maxIterations replConfig) 0 (initialState systemPrompt prompt)
  = (None, st) →
  llmBudgetLeft replConfig st = true →
  fst (budgetExhausted w replConfig (performance_now w 0) st) = false →
  callLlm w (llmInvocations st)
    (conversation st ++ [{| role := user; content := exhaustedTurn |}])
    (maxOutputTokens replConfig)
  = LlmOk value →
  ∃ r, fst (runRepl w rlmMaxTokens replConfig systemPrompt prompt)
       = Resolved (Ok r)
       ∧ ReplResult.answer r = value
       ∧ ReplResult.iterations r = maxIterations replConfig + 1.
Proof.
  intros Hloop Hleft Hclock Hllm.
  unfold runRepl, tryBlock. cbv zeta. rewrite Hloop.
  unfold afterLoop. rewrite Hleft.
  revert Hclock Hllm.
  unfold budgetExhausted, readClock, countedLlmCall. cbv beta iota zeta.
  simpl. intros -> ->. simpl. eexists. split; [reflexivity|].
  split; reflexivity.
Qed.

(** X10: when the executed code of turn [i] ends with a non-empty
    [doneSignal], that string is the answer, and the iteration count is
    [i + 1]. *)
Lemma done_answer_is_returned
  w rlmMaxTokens replConfig systemPrompt prompt i st response code output st2
  c a :
  i < maxIterations replConfig →
  stateAtTurn w rlmMaxTokens replConfig (performance_now w 0) i
    (initialState systemPrompt prompt) = Some st →
  fst (budgetExhausted w replConfig (performance_now w 0) st) = false →
  llmBudgetLeft replConfig st = true →
  callLlm w (llmInvocations st) (conversation st) (maxOutputTokens replConfig)
  = LlmOk response →
  extractCodeBlock response = Some code →
  execute w rlmMaxTokens replConfig code
    (pushMessage {| role := assistant; content := response |}
       (snd (countedLlmCall w (conversation st) (maxOutputTokens replConfig)
               (snd (budgetExhausted w replConfig (performance_now w 0) st)))))
  = (Settled (Ok output), st2) →
  SandboxOutput.done output = true →
  SandboxOutput.doneAnswer output = Some (String c a) →
  ∃ r, fst (runRepl w rlmMaxTokens replConfig systemPrompt prompt)
       = Resolved (Ok r)
       ∧ ReplResult.answer r = String c a
       ∧ ReplResult.iterations r = i + 1.
Proof.
  intros Hi Hreach Hclock Hleft Hllm Hcode Hexec Hdone Hanswer.
  destruct (replTurn_done w rlmMaxTokens replConfig (performance_now w 0)
              i st response code output st2 c a
              Hclock Hleft Hllm Hcode Hexec Hdone Hanswer)
    as (r & st' & Hturn & Hans & Hiter).
  exists r. rewrite (runRepl_leaves _ _ _ _ _ _ _ _ _ Hreach Hi Hturn).
  auto.
Qed.

(** The output of the worker carries [done = true] exactly when
    [done] was called, and [doneAnswer] is then the string made of the
    argument of its last call. *)
Lemma workerOutput_done stdoutBuffer rv err doneCalls :
  let output :=
    workerOutput stdoutBuffer rv err (doneSignalAfter doneCalls) in
  (SandboxOutput.done output = true ↔ doneCalls ≠ [])
  ∧ SandboxOutput.doneAnswer output = last doneCalls ≫= done.
Proof.
  unfold workerOutput, doneSignalAfter. simpl.
  induction doneCalls as [|answer doneCalls IH] using rev_ind; simpl.
  - split; [|reflexivity]. split; [discriminate|congruence].
  - rewrite fold_left_app, last_snoc. simpl. split; [|reflexivity].
    split; [|reflexivity]. intros _ Hnil.
    apply app_eq_nil in Hnil as [_ [=]].
Qed.

(** C8 (as the code has it): the code [done('')] sets the done signal to
    the empty string, the output carries [done = true] and the non-null
    empty [doneAnswer], and [runRepl] does not return it: the test
    [output.done && output.doneAnswer] takes the empty string for false,
    the loop goes on, and the answer of the run is the next response. *)
Theorem done_with_empty_answer_is_not_returned :
  let output :=
    workerOutput EmptyString None None (doneSignalAfter [VString EmptyString])
  in
  let run := runRepl
               (scriptedWorld [fenced "done('')"; "Second answer."]
                  exampleSandbox)
               256 testReplConfig "system prompt" "task" in
  SandboxOutput.done output = true
  ∧ SandboxOutput.doneAnswer output = Some EmptyString
  ∧ exampleSandbox "done('')"
    = Finished EmptyString None None [VString EmptyString]
  ∧ ∃ r, fst run = Resolved (Ok r)
         ∧ ReplResult.answer r = "Second answer."
         ∧ ReplResult.iterations r = 2.
Proof.
  split; [reflexivity|]. split; [reflexivity|]. split; [reflexivity|].
  eexists. split; [vm_compute; reflexivity|]. split; reflexivity.
Qed.

(** ** The configuration *)

Lemma loadRlmConfig_missing_file gitDir readTextFile JSON_parse :
  (∀ path, getConfigPath gitDir = Ok path → readTextFile path = None) →
  loadRlmConfig gitDir readTextFile JSON_parse = DEFAULT_CONFIG.
Proof.
  intros Hmissing. unfold loadRlmConfig.
  destruct (getConfigPath gitDir) as [path|e]; [|reflexivity].
  rewrite (Hmissing path eq_refl). reflexivity.
Qed.

(** C10 (as the code has it): with the configuration file missing,
    [loadRlmConfig] returns [DEFAULT_CONFIG]: disabled, the local endpoint,
    5000 ms and 256 tokens; the four REPL settings are not properties of
    that object, and [replConfigFromRlm] reads [undefined] for each. *)
Theorem loadRlmConfig_missing_file_has_no_repl_defaults :
  let config :=
    loadRlmConfig (Ok ".git") (λ _, None) (λ _, None) in
  config = DEFAULT_CONFIG
  ∧ RlmConfig.enabled config = false
  ∧ RlmConfig.endpoint config = "http://localhost:11434"
  ∧ RlmConfig.timeoutMs config = 5000%Z
  ∧ RlmConfig.maxTokens config = 256%Z
  ∧ configProperty config "replMaxIterations" = None
  ∧ configProperty config "replMaxLlmCalls" = None
  ∧ configProperty config "replTimeoutBudgetMs" = None
  ∧ configProperty config "replMaxOutputTokens" = None
  ∧ replConfigFromRlm config = (None, None, None, None).
Proof. repeat split. Qed.

(** ** Further properties of the sanitizer *)

(** X1: no element of a list returned by [sanitizeGitLogArgs] contains one
    of the characters of [DANGEROUS_CHARS]: the count pushed after a [-n]
    is the numeral of [Math.min(n, 50)], not the token that was read. *)
Theorem sanitized_args_have_no_dangerous_character args out a :
  sanitizeGitLogArgs args = Ok out → a ∈ out → DANGEROUS_CHARS a = false.
Proof.
  intros Hok Hin. pose proof (sanitize_output_clean args out Hok) as Hall.
  rewrite Forall_forall in Hall. exact (Hall a Hin).
Qed.

Lemma sanitized_args_have_no_dangerous_character_witness :
  DANGEROUS_CHARS "50" = false.
Proof.
  apply (sanitized_args_have_no_dangerous_character
           ["--format=%H %s"; "-n"; "500;x"] ["--format=%H %s"; "-n"; "50"]).
  - vm_compute. reflexivity.
  - do 2 apply list_elem_of_further. apply list_elem_of_here.
Defined.

Lemma sanitize_examined_args_clean_witness :
  DANGEROUS_CHARS "--grep=fix" = false.
Proof.
  apply (sanitize_examined_args_clean ["--grep=fix"; "-n"; "5;x"]
           ["--grep=fix"; "-n"; "5"] 0 "--grep=fix").
  - vm_compute. reflexivity.
  - reflexivity.
  - exact I.
Defined.

Lemma sanitize_double_dash_allowed_witness :
  allowedFlag (flagPortion "--since=2024-01-01") = true.
Proof.
  apply (sanitize_double_dash_allowed ["HEAD"; "--since=2024-01-01"]
           ["HEAD"; "--since=2024-01-01"] "--since=2024-01-01").
  - vm_compute. reflexivity.
  - apply list_elem_of_further, list_elem_of_here.
  - reflexivity.
Defined.

Lemma sanitize_single_letter_rejected_witness :
  isOk (sanitizeGitLogArgs ["--no-merges"; "-p"]) = false.
Proof.
  apply (sanitize_single_letter_rejected ["--no-merges"; "-p"] "-p").
  - apply list_elem_of_further, list_elem_of_here.
  - reflexivity.
  - discriminate.
Defined.

Lemma sanitize_n_capped_witness :
  ∃ N, Js.parseInt "50" = Some N ∧ (1 ≤ N ≤ 50)%Z.
Proof.
  apply (sanitize_n_capped ["-n"; "500"] ["-n"; "50"] 0 "50").
  - vm_compute. reflexivity.
  - reflexivity.
  - reflexivity.
Defined.

(** *** Sanitizing twice *)

Lemma count_reads_back_upto_50 :
  forallb (λ k, match Js.parseInt (Js.numberToString (Z.of_nat k)) with
                | Some v => (v =? Z.of_nat k)%Z
                | None => false
                end) (seq 1 50)
  = true.
Proof. vm_compute. reflexivity. Qed.

Lemma count_reads_back (n : Z) :
  (1 ≤ n ≤ 50)%Z → Js.parseInt (Js.numberToString n) = Some n.
Proof.
  intros Hn. pose proof count_reads_back_upto_50 as H.
  rewrite forallb_forall in H. specialize (H (Z.to_nat n)).
  rewrite Z2Nat.id in H by lia.
  destruct (Js.parseInt (Js.numberToString n)) as [v|].
  - f_equal. apply Z.eqb_eq, H, in_seq. lia.
  - discriminate H. apply in_seq. lia.
Qed.

(** X6: sanitizing is idempotent: a list that the sanitizer has returned
    passes the sanitizer again, unchanged. *)
Theorem sanitizeGitLogArgs_idempotent args : ∀ out,
  sanitizeGitLogArgs args = Ok out → sanitizeGitLogArgs out = Ok out.
Proof.
  induction args as [| x | x y l IHl IHyl] using list_pair_ind; intros out.
  - intros [= <-]. reflexivity.
  - intros Hok. pose proof Hok as Hout. revert Hout.
    rewrite sanitizeGitLogArgs_cons.
    repeat case_match; try discriminate; intros [= <-]; exact Hok.
  - rewrite sanitizeGitLogArgs_cons.
    destruct (DANGEROUS_CHARS x) eqn:Hx; [discriminate|].
    destruct (Js.startsWith x "--") eqn:Hdd.
    { destruct (allowedFlag _) eqn:Hal; [|discriminate].
      intros (out' & Hok & ->)%prependOk_Ok_inv.
      change ([x] ++ out') with (x :: out').
      rewrite sanitizeGitLogArgs_cons, Hx, Hdd, Hal, (IHyl out' Hok).
      reflexivity. }
    destruct (String.eqb x "-n") eqn:Hn.
    { destruct (Js.parseInt y) as [n|]; [|discriminate].
      destruct (Z.ltb_spec n 1); [discriminate|].
      intros (out' & Hok & ->)%prependOk_Ok_inv.
      change ([x; ?v] ++ out') with (x :: v :: out').
      rewrite sanitizeGitLogArgs_cons, Hx, Hdd, Hn.
      rewrite count_reads_back by lia.
      destruct (Z.ltb_spec (Z.min n 50) 1); [lia|].
      rewrite Z.min_l by lia. rewrite (IHl out' Hok). reflexivity. }
    destruct (singleLetterFlag x) eqn:Hs; [discriminate|].
    intros (out' & Hok & ->)%prependOk_Ok_inv.
    change ([x] ++ out') with (x :: out').
    rewrite sanitizeGitLogArgs_cons, Hx, Hdd, Hn, Hs, (IHyl out' Hok).
    reflexivity.
Qed.

Lemma sanitizeGitLogArgs_idempotent_witness :
  sanitizeGitLogArgs ["--format=%H"; "-n"; "50"; "-n5"]
  = Ok ["--format=%H"; "-n"; "50"; "-n5"].
Proof.
  apply (sanitizeGitLogArgs_idempotent ["--format=%H"; "-n"; " 500abc"; "-n5"]).
  vm_compute. reflexivity.
Defined.

(** ** The sanitizer on the arguments of a message *)

(** One turn of the loop on a string. *)
Lemma sanitizeMessageLoop_string s rest sanitized :
  sanitizeMessageLoop (ArgString s :: rest) sanitized =
    if DANGEROUS_CHARS s then Some (Fail (DangerousCharacter s))
    else if Js.startsWith s "--" then
      if allowedFlag (flagPortion s)
      then sanitizeMessageLoop rest (sanitized ++ [s])
      else Some (Fail (DisallowedFlag (flagPortion s)))
    else if String.eqb s "-n" then
      match rest with
      | [] => Some (Ok (sanitized ++ [s]))
      | ArgUndefined :: _ => sanitizeMessageLoop rest (sanitized ++ [s])
      | next :: rest' =>
          match Js.parseInt (argText next) with
          | None => Some (Fail (InvalidN (argText next)))
          | Some n =>
              if (n <? 1)%Z then Some (Fail (InvalidN (argText next)))
              else sanitizeMessageLoop rest'
                     (sanitized ++ [s; Js.numberToString (Z.min n 50)])
          end
      end
    else if singleLetterFlag s then Some (Fail (DisallowedFlag s))
    else sanitizeMessageLoop rest (sanitized ++ [s]).
Proof. reflexivity. Qed.

(** One turn of the loop on a [String] object: it is never the flag
    [-n]. *)
Lemma sanitizeMessageLoop_string_object s rest sanitized :
  sanitizeMessageLoop (ArgStringObject s :: rest) sanitized =
    if DANGEROUS_CHARS s then Some (Fail (DangerousCharacter s))
    else if Js.startsWith s "--" then
      if allowedFlag (flagPortion s)
      then sanitizeMessageLoop rest (sanitized ++ [s])
      else Some (Fail (DisallowedFlag (flagPortion s)))
    else if singleLetterFlag s then Some (Fail (DisallowedFlag s))
    else sanitizeMessageLoop rest (sanitized ++ [s]).
Proof. reflexivity. Qed.

(** On an array of strings the handler's call of the sanitizer is the
    function at its declared type. *)
Lemma sanitizeMessageLoop_strings args : ∀ sanitized,
  sanitizeMessageLoop (map ArgString args) sanitized
  = Some (sanitizeLoop args sanitized).
Proof.
  induction args as [| a | a b l IHl IHbl] using list_pair_ind;
    intros sanitized.
  - reflexivity.
  - simpl. repeat case_match; reflexivity.
  - change (map ArgString (a :: b :: l))
      with (ArgString a :: ArgString b :: map ArgString l).
    rewrite sanitizeMessageLoop_string, sanitizeLoop_cons.
    change (ArgString b :: map ArgString l) with (map ArgString (b :: l)).
    destruct (DANGEROUS_CHARS a); [reflexivity|].
    destruct (Js.startsWith a "--").
    { destruct (allowedFlag _); [apply IHbl|reflexivity]. }
    destruct (String.eqb a "-n").
    { change (map ArgString (b :: l)) with (ArgString b :: map ArgString l).
      cbn [argText].
      destruct (Js.parseInt b) as [n|]; [|reflexivity].
      destruct (n <? 1)%Z; [reflexivity|]. apply IHl. }
    destruct (singleLetterFlag a); [reflexivity|]. apply IHbl.
Qed.

Lemma sanitizeMessageArgs_strings args :
  sanitizeMessageArgs (map ArgString args) = Some (sanitizeGitLogArgs args).
Proof. apply sanitizeMessageLoop_strings. Qed.

(** An array that the handler's call of the sanitizer accepts: the list
    returned is the one the sanitizer returns on the texts of its
    elements. *)
Lemma sanitizeMessageLoop_Ok args : ∀ sanitized out,
  sanitizeMessageLoop args sanitized = Some (Ok out) →
  sanitizeLoop (map argText args) sanitized = Ok out.
Proof.
  induction args as [| a | a b l IHl IHbl] using list_pair_ind;
    intros sanitized out.
  - intros [= <-]. reflexivity.
  - destruct a as [s|s| |s]; simpl; repeat case_match; try discriminate;
      try (intros [= <-]; reflexivity).
    all: try (match goal with
              | H : String.eqb _ _ = true |- _ =>
                  apply String.eqb_eq in H; subst; discriminate
              end).
  - change (map argText (a :: b :: l))
      with (argText a :: map argText (b :: l)).
    rewrite sanitizeLoop_cons.
    destruct a as [s|s| |s]; cbn [argText].
    + rewrite sanitizeMessageLoop_string.
      destruct (DANGEROUS_CHARS s); [discriminate|].
      destruct (Js.startsWith s "--").
      { destruct (allowedFlag _); [apply IHbl|discriminate]. }
      destruct (String.eqb s "-n").
      { change (map argText (b :: l)) with (argText b :: map argText l).
        destruct b as [t|t| |t]; cbn [argText];
          try (destruct (Js.parseInt t) as [n|]; [|discriminate];
               destruct (n <? 1)%Z; [discriminate|]; apply IHl).
        simpl. discriminate. }
      destruct (singleLetterFlag s); [discriminate|]. apply IHbl.
    + rewrite sanitizeMessageLoop_string_object.
      destruct (DANGEROUS_CHARS s); [discriminate|].
      destruct (Js.startsWith s "--").
      { destruct (allowedFlag _); [apply IHbl|discriminate]. }
      destruct (String.eqb_spec s "-n") as [->|_]; [discriminate|].
      destruct (singleLetterFlag s); [discriminate|]. apply IHbl.
    + simpl. discriminate.
    + simpl. destruct (DANGEROUS_CHARS s); discriminate.
Qed.

Lemma sanitizeMessageArgs_Ok args out :
  sanitizeMessageArgs args = Some (Ok out) →
  sanitizeGitLogArgs (map argText args) = Ok out.
Proof. apply sanitizeMessageLoop_Ok. Qed.

(** ** The host and the injected git command *)

Section GitLogArguments.

Variable w : World.
Variable g : nat → list string → GitLogOutcome.
Variable rlmMaxTokens : Z.
Variable replConfig : ReplConfig.
Variable startTime : Z.

Hypothesis g_on_sanitized : ∀ k args sanitized,
  sanitizeGitLogArgs args = Ok sanitized →
  g k sanitized = execGitLog w k sanitized.

Lemma handleGitLog_withGitLog args st :
  handleGitLog (withGitLog w g) args st = handleGitLog w args st.
Proof.
  unfold handleGitLog.
  destruct (sanitizeMessageArgs args) as [[sanitized|e]|] eqn:Hok;
    [|reflexivity..].
  simpl. rewrite (g_on_sanitized _ _ _ (sanitizeMessageArgs_Ok _ _ Hok)).
  reflexivity.
Qed.

Lemma serve_withGitLog e : ∀ st,
  serve (withGitLog w g) rlmMaxTokens replConfig e st
  = serve w rlmMaxTokens replConfig e st.
Proof.
  induction e as [messages resume IH|args resume IH| | |]; intros st;
    cbn [serve]; [| |reflexivity..].
  - change (trackedLlmCall (withGitLog w g) rlmMaxTokens replConfig messages st)
      with (trackedLlmCall w rlmMaxTokens replConfig messages st).
    destruct (trackedLlmCall w rlmMaxTokens replConfig messages st)
      as [[value|message|exception] st']; [apply IH..|reflexivity].
  - rewrite handleGitLog_withGitLog.
    destruct (handleGitLog w args st) as [[response|cause] st'];
      [apply IH|reflexivity].
Qed.

Lemma execute_withGitLog code st :
  execute (withGitLog w g) rlmMaxTokens replConfig code st
  = execute w rlmMaxTokens replConfig code st.
Proof. unfold execute. apply serve_withGitLog. Qed.

Lemma replTurn_withGitLog i st :
  replTurn (withGitLog w g) rlmMaxTokens replConfig startTime i st
  = replTurn w rlmMaxTokens replConfig startTime i st.
Proof.
  unfold replTurn.
  change (budgetExhausted (withGitLog w g)) with (budgetExhausted w).
  destruct (budgetExhausted w replConfig startTime st) as [exhausted st1].
  destruct (exhausted || negb (llmBudgetLeft replConfig st1)); [reflexivity|].
  change (countedLlmCall (withGitLog w g)) with (countedLlmCall w).
  destruct (countedLlmCall w (conversation st1) (maxOutputTokens replConfig)
              st1) as [[response|message|exception] st2]; [|reflexivity..].
  destruct (extractCodeBlock response) as [code|]; [|reflexivity].
  rewrite execute_withGitLog. reflexivity.
Qed.

Lemma replLoop_withGitLog remaining : ∀ i st,
  replLoop (withGitLog w g) rlmMaxTokens replConfig startTime remaining i st
  = replLoop w rlmMaxTokens replConfig startTime remaining i st.
Proof.
  induction remaining as [|remaining IH]; intros i st; [reflexivity|].
  cbn [replLoop]. rewrite replTurn_withGitLog.
  destruct (replTurn w rlmMaxTokens replConfig startTime i st);
    [reflexivity|apply IH].
Qed.

Lemma tryBlock_withGitLog st :
  tryBlock (withGitLog w g) rlmMaxTokens replConfig startTime st
  = tryBlock w rlmMaxTokens replConfig startTime st.
Proof. unfold tryBlock. rewrite replLoop_withGitLog. reflexivity. Qed.

End GitLogArguments.

(** X7: whatever the executed code asks for, the injected git command only
    ever receives argument lists that the sanitizer has returned: a run
    does not depend on what the command would do with any other list. *)
Theorem git_log_receives_only_sanitized_arguments
  w g rlmMaxTokens replConfig systemPrompt prompt :
  (∀ k args sanitized,
     sanitizeGitLogArgs args = Ok sanitized →
     g k sanitized = execGitLog w k sanitized) →
  runRepl (withGitLog w g) rlmMaxTokens replConfig systemPrompt prompt
  = runRepl w rlmMaxTokens replConfig systemPrompt prompt.
Proof.
  intros Hg. unfold runRepl. cbv zeta.
  change (performance_now (withGitLog w g)) with (performance_now w).
  rewrite (tryBlock_withGitLog w g rlmMaxTokens replConfig _ Hg).
  reflexivity.
Qed.
Lemma git_log_receives_only_sanitized_arguments_witness :
  let w := scriptedWorld [fenced "gitLog"] gitLogSandbox in
  let g := λ (_ : nat) (args : list string),
             if existsb DANGEROUS_CHARS args
             then GitLogOk "deleted" else GitLogOk "abc123 fix: auth bug" in
  runRepl (withGitLog w g) 256 testReplConfig "system prompt" "task"
  = runRepl w 256 testReplConfig "system prompt" "task".
Proof.
  intros w g.
  apply (git_log_receives_only_sanitized_arguments w g 256 testReplConfig).
  intros k args sanitized Hok. unfold g.
  pose proof (sanitize_output_clean args sanitized Hok) as Hclean.
  replace (existsb DANGEROUS_CHARS sanitized) with false; [reflexivity|].
  symmetry. clear Hok. induction Hclean as [|a l Ha _ IH]; [reflexivity|].
  simpl. rewrite Ha. exact IH.
Defined.

(** ** Further properties of the REPL loop *)

Lemma forced_final_response_is_the_answer_witness :
  ∃ r, fst (runRepl
              (scriptedWorld
                 [fenced "console.log('iter1');"; fenced "console.log('iter2');";
                  "Forced final answer."]
                 exampleSandbox)
              256
              {| maxIterations := 2; maxLlmCalls := 10;
                 timeoutBudgetMs := 15000; maxOutputTokens := 512 |}
              "system prompt" "task")
       = Resolved (Ok r)
       ∧ ReplResult.answer r = "Forced final answer."
       ∧ ReplResult.iterations r = 2 + 1.
Proof.
  eapply (forced_final_response_is_the_answer
            (scriptedWorld
               [fenced "console.log('iter1');"; fenced "console.log('iter2');";
                "Forced final answer."]
               exampleSandbox)
            256
            {| maxIterations := 2; maxLlmCalls := 10;
               timeoutBudgetMs := 15000; maxOutputTokens := 512 |}
            "system prompt" "task").
  - vm_compute. reflexivity.
  - vm_compute. reflexivity.
  - vm_compute. reflexivity.
  - vm_compute. reflexivity.
Defined.

Lemma done_answer_is_returned_witness :
  ∃ r, fst (runRepl
              (scriptedWorld [fenced "console.log('x');"; fenced "done('ok')"]
                 exampleSandbox)
              256 testReplConfig "system prompt" "task")
       = Resolved (Ok r)
       ∧ ReplResult.answer r = "ok"
       ∧ ReplResult.iterations r = 1 + 1.
Proof.
  eapply (done_answer_is_returned
            (scriptedWorld [fenced "console.log('x');"; fenced "done('ok')"]
               exampleSandbox)
            256 testReplConfig "system prompt" "task" 1).
  - vm_compute. lia.
  - vm_compute. reflexivity.
  - vm_compute. reflexivity.
  - vm_compute. reflexivity.
  - vm_compute. reflexivity.
  - vm_compute. reflexivity.
  - vm_compute. reflexivity.
  - vm_compute. reflexivity.
  - vm_compute. reflexivity.
Defined.

(** The turn in which the root call fails or rejects. *)
Lemma replTurn_root_failure w rlmMaxTokens replConfig startTime i st :
  fst (budgetExhausted w replConfig startTime st) = false →
  llmBudgetLeft replConfig st = true →
  match callLlm w (llmInvocations st) (conversation st)
          (maxOutputTokens replConfig) with
  | LlmFail message =>
      ∃ st', replTurn w rlmMaxTokens replConfig startTime i st
             = Leaves (Some (Resolved (Fail message))) st'
  | LlmThrow exception =>
      ∃ st', replTurn w rlmMaxTokens replConfig startTime i st
             = Leaves (Some (Rejected exception)) st'
  | LlmOk _ => True
  end.
Proof.
  unfold replTurn, budgetExhausted, readClock, llmBudgetLeft, countedLlmCall.
  cbv beta iota zeta. simpl. intros -> ->. simpl.
  destruct (callLlm w (llmInvocations st) (conversation st)
              (maxOutputTokens replConfig)) as [value|message|exception];
    [exact I|eexists; reflexivity..].
Qed.

(** X11: a failure of the root call of a turn ends the run with that
    failure, and a rejection of the call rejects the run: neither is
    retried or replaced by a degraded answer. *)
Theorem root_llm_failure_is_propagated
  w rlmMaxTokens replConfig systemPrompt prompt i st outcome :
  i < maxIterations replConfig →
  stateAtTurn w rlmMaxTokens replConfig (performance_now w 0) i
    (initialState systemPrompt prompt) = Some st →
  fst (budgetExhausted w replConfig (performance_now w 0) st) = false →
  llmBudgetLeft replConfig st = true →
  callLlm w (llmInvocations st) (conversation st) (maxOutputTokens replConfig)
  = outcome →
  match outcome with
  | LlmFail message =>
      fst (runRepl w rlmMaxTokens replConfig systemPrompt prompt)
      = Resolved (Fail message)
  | LlmThrow exception =>
      fst (runRepl w rlmMaxTokens replConfig systemPrompt prompt)
      = Rejected exception
  | LlmOk _ => True
  end.
Proof.
  intros Hi Hreach Hclock Hleft Hllm.
  pose proof (replTurn_root_failure w rlmMaxTokens replConfig
                (performance_now w 0) i st Hclock Hleft) as Hturn.
  rewrite Hllm in Hturn.
  destruct outcome as [value|message|exception];
    [exact I| |]; destruct Hturn as [st' Hturn];
    rewrite (runRepl_leaves _ _ _ _ _ _ _ _ _ Hreach Hi Hturn); reflexivity.
Qed.

Lemma root_llm_failure_is_propagated_witness :
  fst (runRepl (scriptedWorld [fenced "console.log('x');"] exampleSandbox)
         256 testReplConfig "system prompt" "task")
  = Resolved (Fail "No more responses").
Proof.
  eapply (root_llm_failure_is_propagated
            (scriptedWorld [fenced "console.log('x');"] exampleSandbox)
            256 testReplConfig "system prompt" "task" 1 _
            (LlmFail "No more responses")).
  - vm_compute. lia.
  - vm_compute. reflexivity.
  - vm_compute. reflexivity.
  - vm_compute. reflexivity.
  - vm_compute. reflexivity.
Defined.

(** X12: with an LLM budget of zero the run calls neither the model nor
    the sandbox and still resolves: the answer is [No output produced],
    with no iteration, no call and an empty trace. *)
Theorem no_llm_budget_no_call w rlmMaxTokens replConfig systemPrompt prompt :
  maxLlmCalls replConfig = 0 →
  let run := runRepl w rlmMaxTokens replConfig systemPrompt prompt in
  llmInvocations (snd run) = 0
  ∧ executions (snd run) = 0
  ∧ ∃ r, fst run = Resolved (Ok r)
         ∧ ReplResult.answer r = "No output produced"
         ∧ ReplResult.iterations r = 0
         ∧ ReplResult.llmCalls r = 0
         ∧ ReplResult.trace r = [].
Proof.
  intros Hzero. unfold runRepl, tryBlock. cbv zeta.
  assert (Hloop :
    ∃ st, replLoop w rlmMaxTokens replConfig (performance_now w 0)
            (maxIterations replConfig) 0 (initialState systemPrompt prompt)
          = (None, st)
          ∧ llmCallCount st = 0 ∧ llmInvocations st = 0 ∧ executions st = 0
          ∧ trace st = []).
  { destruct (maxIterations replConfig) as [|n].
    - eexists. split; [reflexivity|]. repeat split.
    - cbn [replLoop].
      unfold replTurn, budgetExhausted, readClock, llmBudgetLeft.
      cbv beta iota zeta. simpl. rewrite Hzero, orb_true_r.
      eexists. split; [reflexivity|]. repeat split. }
  destruct Hloop as (st & -> & Hcount & Hinv & Hexec & Htrace).
  unfold afterLoop, llmBudgetLeft. rewrite Hzero, Hcount. simpl.
  unfold completeFailure, returnOk, readClock. rewrite Htrace. simpl.
  split; [exact Hinv|]. split; [exact Hexec|].
  eexists. split; [reflexivity|]. simpl. repeat split. exact Hcount.
Qed.

Lemma no_llm_budget_no_call_witness :
  ∃ r, fst (runRepl (scriptedWorld [fenced "done('ok')"] exampleSandbox) 256
              {| maxIterations := 6; maxLlmCalls := 0;
                 timeoutBudgetMs := 15000; maxOutputTokens := 512 |}
              "system prompt" "task")
       = Resolved (Ok r)
       ∧ ReplResult.answer r = "No output produced"
       ∧ ReplResult.iterations r = 0
       ∧ ReplResult.llmCalls r = 0
       ∧ ReplResult.trace r = [].
Proof.
  apply (no_llm_budget_no_call
           (scriptedWorld [fenced "done('ok')"] exampleSandbox) 256
           {| maxIterations := 6; maxLlmCalls := 0;
              timeoutBudgetMs := 15000; maxOutputTokens := 512 |}
           "system prompt" "task").
  reflexivity.
Defined.
Section ModelAlwaysAnswers.

Variable w : World.
Variable rlmMaxTokens : Z.
Variable replConfig : ReplConfig.
Variable startTime : Z.

Hypothesis callLlm_ok : ∀ k messages maxTokens,
  ∃ value, callLlm w k messages maxTokens = LlmOk value.





End ModelAlwaysAnswers.




(** ** Further properties of the worker's matching and query *)

Lemma toLowerCase_app s t :
  Js.toLowerCase (s ++ t)%string
  = (Js.toLowerCase s ++ Js.toLowerCase t)%string.
Proof. induction s as [|c s IH]; simpl; [|rewrite IH]; reflexivity. Qed.

Lemma toLowerCase_length s : String.length (Js.toLowerCase s) = String.length s.
Proof. induction s as [|c s IH]; simpl; [|rewrite IH]; reflexivity. Qed.

Lemma startsWith_app_self s t : Js.startsWith (s ++ t)%string s = true.
Proof.
  induction s as [|c s IH]; simpl; [by destruct t|].
  rewrite Ascii.eqb_refl. exact IH.
Qed.

Lemma string_length_app s t :
  String.length (s ++ t)%string = String.length s + String.length t.
Proof. induction s as [|c s IH]; simpl; [|rewrite IH]; reflexivity. Qed.

Lemma length_omap_le {A B} (f : A → option B) l :
  length (omap f l) ≤ length l.
Proof.
  induction l as [|x l IH]; csimpl; [lia|]. destruct (f x); csimpl; lia.
Qed.

Lemma startsWith_app_app s t q :
  Js.startsWith (s ++ t)%string (s ++ q)%string = Js.startsWith t q.
Proof.
  induction s as [|c s IH]; simpl; [reflexivity|].
  rewrite Ascii.eqb_refl. exact IH.
Qed.

Lemma startsWith_trans s : ∀ p q,
  Js.startsWith s p = true → Js.startsWith p q = true →
  Js.startsWith s q = true.
Proof.
  induction s as [|a s IH]; intros [|b p] [|c q]; simpl;
    try reflexivity; try discriminate.
  intros [Hab Hsp]%andb_true_iff [Hbc Hpq]%andb_true_iff.
  apply Ascii.eqb_eq in Hab, Hbc. subst.
  rewrite Ascii.eqb_refl. simpl. eauto.
Qed.

Lemma startsWith_length s : ∀ p,
  Js.startsWith s p = true → String.length p ≤ String.length s.
Proof.
  induction s as [|a s IH]; intros [|b p]; simpl; try lia; try discriminate.
  intros [_ Hsp]%andb_true_iff. apply IH in Hsp. lia.
Qed.

Lemma scopeMatches_cases k p :
  scopeMatches k p = true
  ↔ Js.toLowerCase k = Js.toLowerCase p
    ∨ Js.startsWith (Js.toLowerCase k) (Js.toLowerCase p ++ "/")%string = true.
Proof.
  unfold scopeMatches. cbv zeta.
  rewrite startsWith_app_char, orb_true_iff, String.eqb_eq. reflexivity.
Qed.

(** X14: scope matching follows the hierarchy transitively: a key that
    matches a pattern matches every pattern that this pattern, read as a
    key, matches. *)
Theorem scopeMatches_transitive a b c :
  scopeMatches a b = true → scopeMatches b c = true →
  scopeMatches a c = true.
Proof.
  rewrite !scopeMatches_cases.
  intros [Hab|Hab] [Hbc|Hbc].
  - left. congruence.
  - right. rewrite Hab. exact Hbc.
  - right. rewrite <- Hbc. exact Hab.
  - right. apply (startsWith_trans _ (Js.toLowerCase b)); [|exact Hbc].
    apply (startsWith_trans _ _ _ Hab), startsWith_app_self.
Qed.

Lemma scopeMatches_transitive_witness :
  scopeMatches "Auth/Login/Flow" "auth" = true.
Proof.
  apply (scopeMatches_transitive "Auth/Login/Flow" "auth/LOGIN" "auth");
    reflexivity.
Defined.

(** A scope key matches itself and each of its ancestors, whatever
    the case of the letters, and never a pattern below itself. *)
Theorem scopeMatches_ancestor_not_descendant p rest :
  scopeMatches p p = true
  ∧ scopeMatches (p ++ "/" ++ rest) (Js.toLowerCase p) = true
  ∧ scopeMatches (Js.toLowerCase p ++ "/" ++ rest) p = true
  ∧ scopeMatches p (p ++ "/" ++ rest) = false.
Proof.
  split; [apply scopeMatches_cases; by left|].
  assert (Hidem : ∀ s, Js.toLowerCase (Js.toLowerCase s) = Js.toLowerCase s).
  { intros s. induction s as [|c s IH]; simpl; [reflexivity|].
    rewrite IH. f_equal.
    destruct c as [[] [] [] [] [] [] [] []]; reflexivity. }
  split; [|split].
  - apply scopeMatches_cases. right.
    rewrite Hidem, toLowerCase_app, toLowerCase_app. simpl.
    apply startsWith_app_app.
  - apply scopeMatches_cases. right.
    rewrite toLowerCase_app, toLowerCase_app, Hidem. simpl.
    apply startsWith_app_app.
  - apply not_true_is_false. intros Hm. apply scopeMatches_cases in Hm.
    assert (Hlen : String.length (Js.toLowerCase (p ++ "/" ++ rest))
                   = String.length p + 1 + String.length rest).
    { rewrite toLowerCase_length, !string_length_app. simpl. lia. }
    destruct Hm as [Heq|Hpre].
    + apply (f_equal String.length) in Heq.
      rewrite Hlen, toLowerCase_length in Heq. lia.
    + apply startsWith_length in Hpre.
      rewrite string_length_app, Hlen, toLowerCase_length in Hpre. lia.
Qed.

(** X15: every commit returned by [query] is stored in the index under a
    hash that passes every filter present in the parameters. *)
Theorem query_returns_stored_commits unsafeProto idx p found c :
  query unsafeProto idx p = Ok found →
  StoredCommit c ∈ found →
  ∃ h, commits idx !! h = Some c ∧ passesAll idx p h.
Proof.
  unfold query.
  destruct (queryIndexForHashes unsafeProto idx p) as [hs|e] eqn:Hq;
    [|discriminate].
  intros [= <-]. unfold commitsOf, getProperty.
  intros (h & Hh & Hc)%list_elem_of_omap.
  exists h. split.
  { destruct (commits idx !! h) as [c'|]; [congruence|].
    destruct (onPrototype unsafeProto h); discriminate. }
  revert Hh.
  rewrite (queryIndexForHashes_own _ _ _
             (queryIndexForHashes_returns _ _ _ _ Hq)) in Hq.
  injection Hq as <-.
  rewrite passesAll_presentFilters.
  destruct (presentFilters idx p) as [|f fs]; [intros Hin; inversion Hin|].
  intros Hin.
  assert (Hall : h ∈ List.filter (inEvery fs) (newSet f)).
  { revert Hin. unfold sliceTo.
    destruct (_ <? _)%Z; intros Hin;
      exact (elem_of_sublist _ _ _ Hin (sublist_take _ _)). }
  apply elem_of_List_filter in Hall as [Hf Hfs].
  constructor; [by apply elem_of_newSet|by apply inEvery_Forall].
Qed.

Lemma query_returns_stored_commits_witness :
  ∃ h, commits fixtureIndex !! h
       = Some {| hash := "bbb"; date := "2025-01-02";
                 subject := "fix cache ttl"; intent := Some "fix-defect";
                 scope := ["cache"]; session := Some "s1";
                 decidedAgainst := ["Redis sentinel"] |}
       ∧ passesAll fixtureIndex
           {| p_scope := None; p_intents := None; p_session := None;
              p_decidedAgainst := Some "redis"; p_limit := None |} h.
Proof.
  eapply (query_returns_stored_commits false fixtureIndex
            {| p_scope := None; p_intents := None; p_session := None;
               p_decidedAgainst := Some "redis"; p_limit := None |}).
  - vm_compute. reflexivity.
  - apply list_elem_of_here.
Defined.

(** X16: with a limit that is not negative, [query] returns at most
    [limit] commits, and at most 20 when the limit is absent or 0. *)
Theorem query_length_within_limit unsafeProto idx p found :
  (0 ≤ default 0 (p_limit p))%Z →
  query unsafeProto idx p = Ok found →
  length found ≤ Z.to_nat (limitOrDefault (p_limit p)).
Proof.
  intros Hlimit. unfold query, queryIndexForHashes.
  destruct (queryCandidates unsafeProto idx p) as [[cands|]|e];
    [|intros [= <-]; simpl; lia|discriminate].
  intros [= <-]. unfold commitsOf. etrans; [apply length_omap_le|].
  assert (Hpos : (0 ≤ limitOrDefault (p_limit p))%Z).
  { destruct (p_limit p) as [[|n|n]|]; simpl in *; lia. }
  rewrite sliceTo_nonneg by exact Hpos.
  rewrite length_take. lia.
Qed.

Lemma query_length_within_limit_witness :
  ∃ found,
    query false fixtureIndex
      {| p_scope := Some "auth"; p_intents := None; p_session := None;
         p_decidedAgainst := None; p_limit := Some 1%Z |} = Ok found
    ∧ length found ≤ 1.
Proof.
  eexists. split; [vm_compute; reflexivity|].
  apply (query_length_within_limit false fixtureIndex
           {| p_scope := Some "auth"; p_intents := None; p_session := None;
              p_decidedAgainst := None; p_limit := Some 1%Z |}).
  - simpl. lia.
  - vm_compute. reflexivity.
Defined.

(** ** Further properties of [extractCodeBlock] *)

Lemma isBlank_trimEnd s : Js.isBlank (Js.trimEnd s) = Js.isBlank s.
Proof.
  induction s as [|c s IH]; [reflexivity|].
  cbn [Js.trimEnd]. destruct (Js.isBlank (String c s)) eqn:Hb; [reflexivity|].
  simpl in *. rewrite IH. exact Hb.
Qed.

Lemma trimEnd_idem s : Js.trimEnd (Js.trimEnd s) = Js.trimEnd s.
Proof.
  induction s as [|c s IH]; [reflexivity|].
  cbn [Js.trimEnd]. destruct (Js.isBlank (String c s)) eqn:Hb; [reflexivity|].
  cbn [Js.trimEnd].
  replace (Js.isBlank (String c (Js.trimEnd s))) with false.
  - rewrite IH. reflexivity.
  - simpl in *. rewrite isBlank_trimEnd. symmetry. exact Hb.
Qed.

Lemma trimStart_fixed_trimEnd s :
  Js.trimStart s = s → Js.trimStart (Js.trimEnd s) = Js.trimEnd s.
Proof.
  destruct s as [|c s]; [reflexivity|].
  cbn [Js.trimEnd]. destruct (Js.isBlank (String c s)); [reflexivity|].
  simpl. destruct (Js.isWhiteSpace c) eqn:Hc; [|reflexivity].
  intros Heq. exfalso. apply (f_equal String.length) in Heq.
  assert (Hle : ∀ t, String.length (Js.trimStart t) ≤ String.length t).
  { intros t. induction t as [|a t IHt]; simpl; [lia|].
    destruct (Js.isWhiteSpace a); simpl; lia. }
  specialize (Hle s). simpl in Heq. lia.
Qed.

Lemma trimStart_idem s : Js.trimStart (Js.trimStart s) = Js.trimStart s.
Proof.
  induction s as [|c s IH]; [reflexivity|].
  simpl. destruct (Js.isWhiteSpace c) eqn:Hc; [exact IH|].
  simpl. rewrite Hc. reflexivity.
Qed.

Lemma trim_idem s : Js.trim (Js.trim s) = Js.trim s.
Proof.
  unfold Js.trim.
  rewrite (trimStart_fixed_trimEnd _ (trimStart_idem s)). apply trimEnd_idem.
Qed.

(** *** Occurrences of the closing fence *)

Lemma indexOf_tail c s p :
  Js.indexOf (String c s) p = None → Js.indexOf s p = None.
Proof.
  cbn [Js.indexOf]. destruct (Js.startsWith (String c s) p); [discriminate|].
  destruct (Js.indexOf s p); [discriminate|reflexivity].
Qed.

Lemma indexOf_trimStart s p :
  Js.indexOf s p = None → Js.indexOf (Js.trimStart s) p = None.
Proof.
  induction s as [|c s IH]; [auto|]. intros Hnone. simpl.
  destruct (Js.isWhiteSpace c); [|exact Hnone].
  apply IH, (indexOf_tail c), Hnone.
Qed.

Lemma startsWith_trimEnd s : ∀ p,
  Js.startsWith (Js.trimEnd s) p = true → Js.startsWith s p = true.
Proof.
  induction s as [|c s IH]; intros [|b p]; try reflexivity; [auto|].
  cbn [Js.trimEnd]. destruct (Js.isBlank (String c s)); [discriminate|].
  simpl. intros [-> Hp]%andb_true_iff. apply IH in Hp. rewrite Hp. reflexivity.
Qed.

Lemma indexOf_trimEnd s p :
  p ≠ EmptyString →
  Js.indexOf s p = None → Js.indexOf (Js.trimEnd s) p = None.
Proof.
  intros Hp. induction s as [|c s IH]; [auto|]. intros Hnone.
  pose proof (indexOf_tail _ _ _ Hnone) as Htail.
  cbn [Js.trimEnd]. destruct (Js.isBlank (String c s)) eqn:Hb.
  - destruct p; [contradiction|reflexivity].
  - cbn [Js.indexOf].
    destruct (Js.startsWith (String c (Js.trimEnd s)) p) eqn:Hs.
    + assert (Heq : Js.trimEnd (String c s) = String c (Js.trimEnd s)).
      { cbn [Js.trimEnd]. rewrite Hb. reflexivity. }
      rewrite <- Heq in Hs. apply startsWith_trimEnd in Hs.
      cbn [Js.indexOf] in Hnone. rewrite Hs in Hnone. discriminate.
    + rewrite (IH Htail). reflexivity.
Qed.

Lemma startsWith_take s : ∀ n p,
  Js.startsWith (Js.take n s) p = true → Js.startsWith s p = true.
Proof.
  induction s as [|c s IH]; intros [|n] [|b p]; try reflexivity;
    try discriminate.
  simpl. intros [-> Hp]%andb_true_iff. apply IH in Hp. rewrite Hp. reflexivity.
Qed.

Lemma indexOf_take s p : ∀ n,
  p ≠ EmptyString →
  Js.indexOf s p = Some n → Js.indexOf (Js.take n s) p = None.
Proof.
  intros n Hp. revert n.
  assert (Hempty : Js.indexOf EmptyString p = None).
  { destruct p; [contradiction|reflexivity]. }
  induction s as [|c s IH]; intros n.
  - destruct n; exact (λ _, Hempty).
  - cbn [Js.indexOf]. destruct (Js.startsWith (String c s) p) eqn:Hs.
    + intros [= <-]. exact Hempty.
    + destruct (Js.indexOf s p) as [m|]; [|discriminate].
      intros [= <-]. cbn [Js.take Js.indexOf].
      destruct (Js.startsWith (String c (Js.take m s)) p) eqn:Ht.
      * apply (startsWith_take (String c s) (S m)) in Ht. congruence.
      * rewrite (IH m eq_refl). reflexivity.
Qed.

(** X17: the code that [extractCodeBlock] returns is never empty, carries
    no white space at either end, and contains no closing fence (a line
    break followed by three backticks). *)
Theorem extracted_code_is_trimmed_and_fence_free response code :
  extractCodeBlock response = Some code →
  code ≠ EmptyString
  ∧ Js.trim code = code
  ∧ Js.indexOf code closingFence = None.
Proof.
  unfold extractCodeBlock.
  destruct (Regex.exec true openPattern response) as [openMatch|];
    [|discriminate].
  cbv zeta.
  set (rest := Js.drop _ response).
  set (raw := match Js.indexOf rest (String Js.LF "```") with
              | Some closeIdx => Js.take closeIdx rest
              | None => rest
              end).
  assert (Hraw : Js.indexOf raw closingFence = None).
  { unfold raw. change (String Js.LF "```") with closingFence.
    destruct (Js.indexOf rest closingFence) as [closeIdx|] eqn:Hclose;
      [|exact Hclose].
    apply indexOf_take; [discriminate|exact Hclose]. }
  destruct (Nat.ltb_spec 0 (String.length (Js.trim raw))) as [Hlen|];
    [|discriminate].
  intros [= <-]. split; [|split].
  - intros Heq. rewrite Heq in Hlen. simpl in Hlen. lia.
  - apply trim_idem.
  - unfold Js.trim. apply indexOf_trimEnd; [discriminate|].
    apply indexOf_trimStart, Hraw.
Qed.

Lemma extracted_code_is_trimmed_and_fence_free_witness :
  "query({scope: 'auth'})" ≠ EmptyString
  ∧ Js.trim "query({scope: 'auth'})" = "query({scope: 'auth'})"
  ∧ Js.indexOf "query({scope: 'auth'})" closingFence = None.
Proof.
  apply (extracted_code_is_trimmed_and_fence_free
           ("Let me look." ++ Js.nl ++ "```js  " ++ Js.nl
            ++ "  query({scope: 'auth'})  " ++ Js.nl ++ "```" ++ Js.nl
            ++ "```" ++ Js.nl ++ "done('x')" ++ Js.nl ++ "```")).
  vm_compute. reflexivity.
Defined.

(** A response in which no line starts with three backticks has no
    code block: [extractCodeBlock] returns [null]. *)
Theorem no_fence_line_no_code_block response :
  hasFenceLine None response = false → extractCodeBlock response = None.
Proof.
  intros Hfence. apply no_fence_no_code, no_fence_line_no_match, Hfence.
Qed.

Lemma no_fence_line_no_code_block_witness :
  extractCodeBlock ("Use ``` to fence code; " ++ Js.nl ++ " ```js is a tag.")
  = None.
Proof.
  apply (no_fence_line_no_code_block
           ("Use ``` to fence code; " ++ Js.nl ++ " ```js is a tag.")).
  vm_compute. reflexivity.
Defined.
(** *** A fenced block is read back *)

Lemma take_length_app p r : Js.take (String.length p) (p ++ r)%string = p.
Proof. induction p as [|c p IH]; simpl; [by destruct r|by rewrite IH]. Qed.

Lemma drop_length_app p r : Js.drop (String.length p) (p ++ r)%string = r.
Proof. induction p as [|c p IH]; simpl; [reflexivity|exact IH]. Qed.

Lemma drop_add s : ∀ n m, Js.drop (n + m) s = Js.drop m (Js.drop n s).
Proof.
  induction s as [|c s IH]; intros [|n] m; simpl; try reflexivity.
  - by destruct m.
  - apply IH.
Qed.

Lemma consumed_app p r : Regex.consumed (p ++ r)%string r = p.
Proof.
  unfold Regex.consumed. rewrite string_length_app.
  replace (String.length p + String.length r - String.length r)
    with (String.length p) by lia.
  apply take_length_app.
Qed.

Lemma lineTerminator_whiteSpace c :
  Js.isLineTerminator c = true → Js.isWhiteSpace c = true.
Proof.
  destruct c as [[] [] [] [] [] [] [] []]; vm_compute; intros H;
    (reflexivity || discriminate H).
Qed.

Lemma trimStart_length s : String.length (Js.trimStart s) ≤ String.length s.
Proof.
  induction s as [|c s IH]; simpl; [lia|].
  destruct (Js.isWhiteSpace c); simpl; lia.
Qed.

Lemma trimEnd_length s : String.length (Js.trimEnd s) ≤ String.length s.
Proof.
  induction s as [|c s IH]; [simpl; lia|].
  cbn [Js.trimEnd]. destruct (Js.isBlank (String c s)); simpl in *; lia.
Qed.

(** A non-empty text without white space around it starts with a
    character that is not white space. *)
Lemma trimmed_first_char code :
  Js.trim code = code → code ≠ EmptyString →
  ∃ c code', code = String c code' ∧ Js.isWhiteSpace c = false.
Proof.
  destruct code as [|c code']; [contradiction|]. intros Htrim _.
  exists c, code'. split; [reflexivity|].
  destruct (Js.isWhiteSpace c) eqn:Hc; [|reflexivity].
  exfalso. apply (f_equal String.length) in Htrim.
  unfold Js.trim in Htrim. cbn [Js.trimStart] in Htrim. rewrite Hc in Htrim.
  pose proof (trimEnd_length (Js.trimStart code')).
  pose proof (trimStart_length code'). simpl in Htrim. lia.
Qed.

(** The opening fence is matched where it stands, up to the end of its
    line. *)
Lemma matchHere_fence before lang c code' tail :
  Regex.atLineStart true before = true →
  lang ∈ fenceLanguages →
  Js.isWhiteSpace c = false →
  Regex.matchHere true openPattern before
    ("```" ++ lang ++ Js.nl ++ String c code' ++ tail)
  = Some (Js.nl ++ String c code' ++ tail, [])%string.
Proof.
  intros Hstart Hlang Hc.
  assert (Hlt : Js.isLineTerminator c = false).
  { destruct (Js.isLineTerminator c) eqn:Hl; [|reflexivity].
    apply lineTerminator_whiteSpace in Hl. congruence. }
  unfold Regex.matchHere, openPattern, Regex.Seq, fenceLanguages in *.
  cbn [foldr Regex.run]. rewrite Hstart.
  repeat (apply elem_of_cons in Hlang as [->|Hlang]);
    [| | |inversion Hlang];
    simpl; rewrite Hc; simpl; rewrite Hlt; reflexivity.
Qed.

Lemma startsWith_fence_prefix c pre X :
  Regex.atLineStart true (lastChar (Some c) pre) = true →
  Js.startsWith (String c (pre ++ X)) "```"
  = Js.startsWith (String c pre) "```".
Proof.
  assert (Hnot : ∀ a, Js.isLineTerminator a = true → Ascii.eqb a "`" = false).
  { intros a Ha. destruct (Ascii.eqb_spec a "`") as [->|]; [|reflexivity].
    discriminate Ha. }
  destruct pre as [|b [|d pre]]; simpl.
  - intros Hc. rewrite (Hnot c Hc). reflexivity.
  - intros Hb. rewrite (Hnot b Hb), !andb_false_r. reflexivity.
  - intros _. reflexivity.
Qed.

(** The search for the opening fence passes over lines that do not start
    with three backticks. *)
Lemma execFrom_skip pre : ∀ before pos X,
  hasFenceLine before pre = false →
  Regex.atLineStart true (lastChar before pre) = true →
  Regex.execFrom true openPattern before (pre ++ X) pos
  = Regex.execFrom true openPattern (lastChar before pre) X
      (pos + String.length pre).
Proof.
  induction pre as [|c pre IH]; intros before pos X.
  - intros _ _. simpl. rewrite Nat.add_0_r. reflexivity.
  - cbn [hasFenceLine lastChar].
    intros [Hhere Hrest]%orb_false_iff Hlast.
    change (String c pre ++ X)%string with (String c (pre ++ X)).
    cbn [Regex.execFrom]. rewrite matchHere_no_fence.
    + rewrite (IH (Some c) (S pos) X Hrest Hlast). f_equal. simpl. lia.
    + rewrite (startsWith_fence_prefix c pre X Hlast). exact Hhere.
Qed.

Lemma execFrom_here multiline r before s pos rest caps :
  Regex.matchHere multiline r before s = Some (rest, caps) →
  Regex.execFrom multiline r before s pos
  = Some {| Regex.index := pos; Regex.matched := Regex.consumed s rest;
            Regex.groups := caps |}.
Proof. intros Hm. destruct s; simpl; rewrite Hm; reflexivity. Qed.

Lemma startsWith_straddle a c post :
  Js.startsWith (String a c) closingFence = false →
  Js.startsWith (String a (c ++ closingFence ++ post)) closingFence = false.
Proof.
  unfold closingFence.
  destruct c as [|b [|d [|e c]]]; simpl;
    repeat match goal with
           | |- context [Ascii.eqb ?x ?y] =>
               destruct (Ascii.eqb_spec x y); subst; simpl;
               try discriminate; try reflexivity
           end.
Qed.

Lemma indexOf_app_fence c post :
  Js.indexOf c closingFence = None →
  Js.indexOf (c ++ closingFence ++ post) closingFence
  = Some (String.length c).
Proof.
  induction c as [|a c IH]; [reflexivity|].
  intros Hnone. pose proof (indexOf_tail _ _ _ Hnone) as Htail.
  change (String a c ++ closingFence ++ post)%string
    with (String a (c ++ closingFence ++ post)).
  cbn [Js.indexOf] in *.
  destruct (Js.startsWith (String a c) closingFence) eqn:Hs; [discriminate|].
  rewrite (startsWith_straddle a c post Hs), (IH Htail). reflexivity.
Qed.

(** X18: a response made of lines that do not start with three backticks,
    then a block fenced with [```], [```js] or [```javascript], then any
    text, yields the code of the block as it stands, when the code is
    non-empty, has no white space around it and no line that starts with
    three backticks. *)
Theorem extractCodeBlock_reads_fenced_code pre lang code post :
  hasFenceLine None pre = false →
  Regex.atLineStart true (lastChar None pre) = true →
  lang ∈ fenceLanguages →
  Js.trim code = code → code ≠ EmptyString →
  Js.indexOf (Js.nl ++ code) closingFence = None →
  extractCodeBlock
    (pre ++ "```" ++ lang ++ Js.nl ++ code ++ closingFence ++ post)
  = Some code.
Proof.
  intros Hpre Hlast Hlang Htrim Hne Hfence.
  destruct (trimmed_first_char code Htrim Hne) as (c & code' & Hcode & Hc).
  pose (openFence := ("```" ++ lang)%string).
  pose (rest := ((Js.nl ++ code) ++ closingFence ++ post)%string).
  change (extractCodeBlock (pre ++ openFence ++ rest) = Some code).
  assert (Hmatch :
    Regex.matchHere true openPattern (lastChar None pre) (openFence ++ rest)
    = Some (rest, [])).
  { unfold openFence, rest. rewrite Hcode.
    apply (matchHere_fence _ lang c code' _ Hlast Hlang Hc). }
  unfold extractCodeBlock, Regex.exec.
  rewrite (execFrom_skip pre None 0 _ Hpre Hlast).
  rewrite (execFrom_here _ _ _ _ _ _ _ Hmatch). cbv zeta.
  cbn [Regex.index Regex.matched]. rewrite consumed_app.
  rewrite Nat.add_0_l, drop_add, !drop_length_app.
  change (String Js.LF "```") with closingFence.
  unfold rest.
  rewrite (indexOf_app_fence _ post Hfence), take_length_app.
  change (Js.trim (Js.nl ++ code)) with (Js.trim code).
  rewrite Htrim, Hcode. reflexivity.
Qed.

Lemma extractCodeBlock_reads_fenced_code_witness :
  extractCodeBlock
    ("I will query the index." +:+ Js.nl +:+ "```" +:+ "javascript" +:+ Js.nl
     +:+ "const c = query({scope: 'auth'});" +:+ Js.nl
     +:+ "done(`${c.length}`)" +:+ closingFence +:+ Js.nl +:+ "That is all.")
  = Some ("const c = query({scope: 'auth'});" +:+ Js.nl
          +:+ "done(`${c.length}`)").
Proof.
  apply (extractCodeBlock_reads_fenced_code
           ("I will query the index." +:+ Js.nl) "javascript"
           ("const c = query({scope: 'auth'});" +:+ Js.nl
            +:+ "done(`${c.length}`)")
           (Js.nl +:+ "That is all.")).
  - vm_compute. reflexivity.
  - vm_compute. reflexivity.
  - do 2 apply list_elem_of_further. apply list_elem_of_here.
  - vm_compute. reflexivity.
  - discriminate.
  - vm_compute. reflexivity.
Defined.

(** ** Further properties of the parser *)

Lemma trailer_tail_not_body lines i :
  findTrailerStart lines ≤ i < length lines →
  bodyLine (lineAt lines i) = false.
Proof.
  intros [Hge Hi].
  destruct (bodyLine (lineAt lines i)) eqn:Hb; [|reflexivity].
  apply bodyLine_above_trailers in Hb; [lia|exact Hi].
Qed.

(** X19: every trailer line that [splitHeaderBodyTrailers] returns is a
    recognized trailer: it is trimmed, not empty, matches [TRAILER_RE] and
    carries a known key. *)
Theorem trailer_lines_are_recognized rawBody l :
  l ∈ snd (splitHeaderBodyTrailers rawBody) →
  recognizedTrailer l = true ∧ l ≠ EmptyString ∧ Js.trim l = l.
Proof.
  unfold splitHeaderBodyTrailers. cbv zeta. cbn [snd].
  set (lines := Js.split Js.LF rawBody).
  intros [Hin Hne]%elem_of_List_filter.
  apply list_elem_of_fmap in Hin as (l0 & -> & Hl0).
  apply list_elem_of_lookup in Hl0 as [k Hk].
  rewrite lookup_drop in Hk.
  pose proof (lookup_lt_Some _ _ _ Hk) as Hklt.
  assert (Hl : l0 = lineAt lines (findTrailerStart lines + k)).
  { unfold lineAt. symmetry. apply nth_lookup_Some with (d := EmptyString).
    exact Hk. }
  pose proof (trailer_tail_not_body lines (findTrailerStart lines + k)
                ltac:(lia)) as Hbody.
  rewrite <- Hl in Hbody. unfold bodyLine in Hbody. rewrite Hne in Hbody.
  simpl in Hbody. apply negb_false_iff in Hbody.
  split; [exact Hbody|]. split; [|apply trim_idem].
  intros Heq. unfold nonEmpty in Hne. rewrite Heq in Hne. discriminate.
Qed.

Lemma trailer_lines_are_recognized_witness :
  recognizedTrailer "Scope: api/webhooks" = true
  ∧ "Scope: api/webhooks" ≠ EmptyString
  ∧ Js.trim "Scope: api/webhooks" = "Scope: api/webhooks".
Proof.
  apply (trailer_lines_are_recognized
           ("Configure via WEBHOOK_URL: https://example.com" +:+ Js.nl
            +:+ Js.nl +:+ "Intent: enable-capability" +:+ Js.nl
            +:+ "  Scope: api/webhooks  " +:+ Js.nl)).
  vm_compute. apply list_elem_of_further, list_elem_of_here.
Defined.

(** *** The map built by [parseTrailers] *)

Lemma parseTrailers_fold lines key : ∀ acc : gmap string (list string),
  (∀ k vs, acc !! k = Some vs → vs ≠ [] ∧ knownTrailerKey k = true) →
  fold_left
    (λ (trailers : gmap string (list string)) line,
       match execTrailer (Js.trim line) with
       | Some (key, value) =>
           let normalizedKey := Js.toLowerCase key in
           if knownTrailerKey normalizedKey
           then <[normalizedKey :=
                    default [] (trailers !! normalizedKey) ++ [Js.trim value]]>
                  trailers
           else trailers
       | None => trailers
       end)
    lines acc !! key
  = match default [] (acc !! key)
          ++ (if knownTrailerKey key then omap (trailerValue key) lines
              else [])
    with
    | [] => None
    | vs => Some vs
    end.
Proof.
  induction lines as [|line lines IH]; intros acc Hacc.
  - simpl. destruct (acc !! key) as [vs|] eqn:Hk; simpl.
    + destruct (Hacc key vs Hk) as [Hne ->]. simpl. rewrite app_nil_r.
      destruct vs; [contradiction|reflexivity].
    + destruct (knownTrailerKey key); reflexivity.
  - cbn [fold_left]. rewrite IH; clear IH.
    + csimpl. unfold trailerValue.
      destruct (execTrailer (Js.trim line)) as [[k value]|]; [|reflexivity].
      cbv zeta.
      destruct (knownTrailerKey (Js.toLowerCase k)) eqn:Hknown.
      * destruct (String.eqb_spec (Js.toLowerCase k) key) as [Heq|Hne].
        -- subst key. rewrite lookup_insert_eq, Hknown. simpl.
           rewrite <- app_assoc. reflexivity.
        -- rewrite lookup_insert_ne by exact Hne. reflexivity.
      * destruct (String.eqb_spec (Js.toLowerCase k) key) as [Heq|Hne];
          [|reflexivity].
        subst key. rewrite Hknown, !app_nil_r. reflexivity.
    + intros k vs.
      destruct (execTrailer (Js.trim line)) as [[k' value]|]; [|apply Hacc].
      cbv zeta.
      destruct (knownTrailerKey (Js.toLowerCase k')) eqn:Hknown;
        [|apply Hacc].
      destruct (decide (Js.toLowerCase k' = k)) as [<-|Hne].
      * rewrite lookup_insert_eq. intros [= <-]. split; [|exact Hknown].
        intros [_ [=]]%app_eq_nil.
      * rewrite lookup_insert_ne by exact Hne. apply Hacc.
Qed.

(** X20: [parseTrailers] keeps, for each known key, the trimmed values of
    the lines that carry the key, in the order of the lines; a repeated
    key accumulates its values, and a key that is not known or has no
    line is absent from the result. *)
Theorem parseTrailers_values lines key :
  parseTrailers lines !! key
  = match (if knownTrailerKey key then omap (trailerValue key) lines else [])
    with
    | [] => None
    | vs => Some vs
    end.
Proof.
  unfold parseTrailers. rewrite parseTrailers_fold.
  - rewrite lookup_empty. reflexivity.
  - intros k vs. rewrite lookup_empty. discriminate.
Qed.

(** *** Trailers that are not set off by a blank line *)

Lemma split_not_nil sep s : Js.split sep s ≠ [].
Proof.
  destruct s as [|c s]; simpl; [discriminate|].
  destruct (Ascii.eqb c sep); [discriminate|].
  destruct (Js.split sep s); discriminate.
Qed.

Lemma join_split s : Js.join Js.nl (Js.split Js.LF s) = s.
Proof.
  unfold Js.join. induction s as [|c s IH]; [reflexivity|].
  cbn [Js.split]. pose proof (split_not_nil Js.LF s) as Hne.
  destruct (Ascii.eqb_spec c Js.LF) as [->|Hc].
  - destruct (Js.split Js.LF s) as [|l ls]; [contradiction|].
    change (String.concat Js.nl (EmptyString :: l :: ls))
      with (Js.nl +:+ String.concat Js.nl (l :: ls)).
    rewrite IH. reflexivity.
  - destruct (Js.split Js.LF s) as [|l ls]; [contradiction|].
    rewrite <- IH. destruct ls; reflexivity.
Qed.

Lemma scanBack_reaches_body above b ts : ∀ k trailerStart,
  bodyLine b = true →
  Forall (λ l, recognizedTrailer (Js.trim l) = true) ts →
  k ≤ length ts →
  scanBack (above ++ b :: ts) (length above + 1 + k) trailerStart
  = length (above ++ b :: ts).
Proof.
  intros k trailerStart
    [Hb Hnot%negb_true_iff]%andb_true_iff Hts.
  unfold nonEmpty in Hb. apply negb_true_iff in Hb.
  revert trailerStart. induction k as [|k IH]; intros trailerStart Hk.
  - replace (length above + 1 + 0) with (S (length above)) by lia.
    cbn [scanBack]. unfold lineAt.
    rewrite app_nth2, Nat.sub_diag by lia. cbn [nth].
    rewrite Hb, Hnot. reflexivity.
  - replace (length above + 1 + S k) with (S (length above + 1 + k)) by lia.
    cbn [scanBack]. unfold lineAt.
    rewrite app_nth2 by lia.
    replace (length above + 1 + k - length above) with (S k) by lia.
    cbn [nth].
    destruct (lookup_lt_is_Some_2 ts k ltac:(lia)) as [l Hl].
    rewrite (nth_lookup_Some _ _ EmptyString _ Hl).
    rewrite Forall_forall in Hts.
    pose proof (Hts l (list_elem_of_lookup_2 _ _ _ Hl)) as Hrec.
    rewrite Hrec.
    destruct (String.eqb_spec (Js.trim l) EmptyString) as [Hblank|_].
    { rewrite Hblank in Hrec. discriminate Hrec. }
    apply IH. lia.
Qed.

(** X21: trailers need a blank line above them.  When a line that is
    neither blank nor a recognized trailer is directly followed, up to the
    end of the message, by recognized trailers only, no trailer line is
    returned and the whole message is the body. *)
Theorem trailers_without_blank_line_are_body rawBody above b ts :
  Js.split Js.LF rawBody = above ++ b :: ts →
  bodyLine b = true →
  Forall (λ l, recognizedTrailer (Js.trim l) = true) ts →
  splitHeaderBodyTrailers rawBody = (Js.trim rawBody, []).
Proof.
  intros Hsplit Hb Hts.
  unfold splitHeaderBodyTrailers. cbv zeta.
  assert (Hstart : findTrailerStart (Js.split Js.LF rawBody)
                   = length (Js.split Js.LF rawBody)).
  { rewrite Hsplit. unfold findTrailerStart.
    assert (Hskip : skipBlankBack (above ++ b :: ts)
                      (length (above ++ b :: ts))
                    = length above + 1 + length ts).
    { rewrite length_app. cbn [length].
      replace (length above + S (length ts))
        with (S (length above + length ts)) by lia.
      cbn [skipBlankBack]. unfold lineAt.
      rewrite app_nth2 by lia.
      replace (length above + length ts - length above) with (length ts)
        by lia.
      assert (Hlast : Js.trim (nth (length ts) (b :: ts) EmptyString)
                      ≠ EmptyString).
      { destruct ts as [|t ts'] using rev_ind.
        - simpl. apply andb_true_iff in Hb as [Hb _].
          unfold nonEmpty in Hb. apply negb_true_iff in Hb.
          intros Heq. rewrite Heq in Hb. discriminate.
        - rewrite length_app. cbn [length].
          replace (length ts' + 1) with (S (length ts')) by lia.
          cbn [nth]. rewrite app_nth2, Nat.sub_diag by lia. cbn [nth].
          apply Forall_app in Hts as [_ Ht].
          rewrite Forall_singleton in Ht.
          intros Heq. rewrite Heq in Ht. discriminate Ht. }
      destruct (String.eqb_spec
                  (Js.trim (nth (length ts) (b :: ts) EmptyString))
                  EmptyString); [contradiction|lia]. }
    rewrite Hskip. apply scanBack_reaches_body; [exact Hb|exact Hts|lia]. }
  rewrite Hstart, firstn_all, drop_all, join_split. reflexivity.
Qed.

Lemma trailers_without_blank_line_are_body_witness :
  splitHeaderBodyTrailers
    ("Add the endpoint." +:+ Js.nl +:+ "Intent: enable-capability" +:+ Js.nl
     +:+ "Scope: api")
  = (Js.trim ("Add the endpoint." +:+ Js.nl +:+ "Intent: enable-capability"
              +:+ Js.nl +:+ "Scope: api"),
     []).
Proof.
  apply (trailers_without_blank_line_are_body _ [] "Add the endpoint."
           ["Intent: enable-capability"; "Scope: api"]).
  - vm_compute. reflexivity.
  - vm_compute. reflexivity.
  - repeat constructor.
Defined.

(** *** What the groups of a match hold *)

Lemma starLoop_some {R} p : ∀ s before caps (k : Regex.Cont R) res,
  Regex.starLoop p before s caps k = Some res →
  ∃ before' s', k before' s' caps = Some res.
Proof.
  induction s as [|c s IH]; intros before caps k res; cbn [Regex.starLoop].
  - eauto.
  - destruct (p c); [|eauto].
    destruct (Regex.starLoop p (Some c) s caps k) as [r|] eqn:Hloop; [|eauto].
    intros [= <-]. eapply IH, Hloop.
Qed.

(** An expression without the group [n] leaves the binding of [n] as it
    found it. *)
Lemma run_keeps_group {R} multiline n r :
  hasGroup n r = false →
  ∀ before s caps (k : Regex.Cont R) res,
    Regex.run multiline r before s caps k = Some res →
    ∃ before' s' caps',
      k before' s' caps' = Some res
      ∧ Regex.capture n caps' = Regex.capture n caps.
Proof.
  induction r as [|p|a IHa b IHb|a IHa b IHb|p|m a IHa| | |];
    cbn [hasGroup Regex.run]; intros Hn before s caps k res.
  - eauto.
  - destruct s as [|c s]; [discriminate|]. destruct (p c); [eauto|discriminate].
  - apply orb_false_iff in Hn as [Ha Hb].
    intros (b1 & s1 & c1 & Hrun & Hc1)%(IHa Ha).
    apply (IHb Hb) in Hrun as (b2 & s2 & c2 & Hk & Hc2).
    exists b2, s2, c2. split; [exact Hk|congruence].
  - apply orb_false_iff in Hn as [Ha Hb].
    destruct (Regex.run multiline a before s caps k) as [r|] eqn:Hrun.
    + intros [= <-]. apply (IHa Ha) in Hrun. exact Hrun.
    + apply (IHb Hb).
  - intros (b1 & s1 & Hk)%starLoop_some. eauto.
  - apply orb_false_iff in Hn as [Hm Ha].
    intros (b1 & s1 & c1 & Hk & Hc1)%(IHa Ha).
    exists b1, s1, ((m, Regex.consumed s s1) :: c1). split; [exact Hk|].
    rewrite <- Hc1. unfold Regex.capture. cbn [List.find fst].
    rewrite Hm. reflexivity.
  - destruct (Regex.atLineStart multiline before); [eauto|discriminate].
  - destruct (Regex.atLineEnd multiline s); [eauto|discriminate].
  - destruct (Regex.wordBoundary before (Regex.firstChar s));
      [eauto|discriminate].
Qed.

Lemma startsWith_split s : ∀ l,
  Js.startsWith s l = true → s = (l ++ Js.drop (String.length l) s)%string.
Proof.
  induction s as [|a s IH]; intros [|c l]; simpl; try reflexivity;
    try discriminate.
  intros [->%Ascii.eqb_eq Hl]%andb_true_iff.
  change (String c s = String c (l +:+ Js.drop (String.length l) s)).
  f_equal. apply IH, Hl.
Qed.

Lemma run_Lit_some {R} multiline l :
  ∀ before s caps (k : Regex.Cont R) res,
    Regex.run multiline (Regex.Lit l) before s caps k = Some res →
    Js.startsWith s l = true
    ∧ ∃ before', k before' (Js.drop (String.length l) s) caps = Some res.
Proof.
  induction l as [|c l IH]; intros before s caps k res; simpl.
  - intros Hk. split; [reflexivity|]. destruct s; eauto.
  - destruct s as [|a s]; [discriminate|].
    destruct (Ascii.eqb a c); [|discriminate]. apply IH.
Qed.

Lemma run_Alt_Lit_some {R} multiline ls :
  ∀ l0 before s caps (k : Regex.Cont R) res,
    Regex.run multiline (Regex.Alt (Regex.Lit l0) (map Regex.Lit ls))
      before s caps k = Some res →
    ∃ l before', l ∈ l0 :: ls ∧ Js.startsWith s l = true
      ∧ k before' (Js.drop (String.length l) s) caps = Some res.
Proof.
  induction ls as [|l1 ls IH]; intros l0 before s caps k res.
  - cbn [map Regex.Alt]. intros [Hs [b' Hk]]%run_Lit_some.
    exists l0, b'. split; [apply list_elem_of_here|]. auto.
  - cbn [map Regex.Alt Regex.run].
    destruct (Regex.run multiline (Regex.Lit l0) before s caps k) as [r|]
      eqn:Hrun.
    + intros [= <-]. apply run_Lit_some in Hrun as [Hs [b' Hk]].
      exists l0, b'. split; [apply list_elem_of_here|]. auto.
    + intros (l & b' & Hin & Hs & Hk)%IH.
      exists l, b'. split; [apply list_elem_of_further, Hin|]. auto.
Qed.

Lemma execFrom_some multiline r : ∀ s before pos m,
  Regex.execFrom multiline r before s pos = Some m →
  ∃ before' s' rest,
    Regex.matchHere multiline r before' s' = Some (rest, Regex.groups m).
Proof.
  induction s as [|c s IH]; intros before pos m; cbn [Regex.execFrom].
  - destruct (Regex.matchHere multiline r before EmptyString)
      as [[rest caps]|] eqn:Hm; [|discriminate].
    intros [= <-]. eauto.
  - destruct (Regex.matchHere multiline r before (String c s))
      as [[rest caps]|] eqn:Hm.
    + intros [= <-]. eauto.
    + apply IH.
Qed.

(** The first group of a header match is one of the ten types. *)
Lemma header_type_known s m :
  Regex.exec false HEADER_RE s = Some m →
  ∃ type, Regex.capture 1 (Regex.groups m) = Some type ∧ type ∈ headerTypes.
Proof.
  unfold Regex.exec.
  intros (before & s' & rest & Hm)%execFrom_some. revert Hm.
  unfold Regex.matchHere, HEADER_RE, Regex.Seq. cbn [foldr].
  match goal with
  | |- context [Regex.Then (Regex.Group 1 ?a) ?r] =>
      remember a as types eqn:Htypes; remember r as tail eqn:Htail
  end.
  cbn [Regex.run].
  destruct (Regex.atLineStart false before); [|discriminate].
  rewrite Htypes.
  intros (l & b1 & Hin & Hs & Hk)%run_Alt_Lit_some.
  apply run_keeps_group with (n := 1) in Hk as (b2 & s2 & c2 & Hk & Hc);
    [|rewrite Htail; reflexivity].
  injection Hk as _ <-. exists l. split; [|exact Hin].
  rewrite Hc. unfold Regex.capture. cbn [List.find fst Nat.eqb fmap
    option_fmap option_map snd].
  f_equal. rewrite (startsWith_split s' l Hs) at 1.
  apply consumed_app.
Qed.

(** X22: a parsed commit carries one of the ten conventional types, and
    its intent is absent or one of [INTENT_TYPES]: an intent trailer
    outside the vocabulary is dropped, not kept. *)
Theorem parsed_commit_type_and_intent_known JSON_parse block c :
  parseCommitBlock JSON_parse block = Ok c →
  Commit.type c ∈ headerTypes
  ∧ ∀ i, Commit.intent c = Some i → i ∈ INTENT_TYPES.
Proof.
  unfold parseCommitBlock. fold (blockLines block).
  destruct (List.find (λ l, Js.startsWith l "Hash: ") (blockLines block))
    as [hashLine|];
    destruct (List.find (λ l, Js.startsWith l "Date: ") (blockLines block))
      as [dateLine|];
    destruct (List.find (λ l, Js.startsWith l "Subject: ") (blockLines block))
      as [subjectLine|];
    cbv beta iota zeta; try discriminate.
  destruct (Regex.exec false HEADER_RE (Js.trim (Js.drop 9 subjectLine)))
    as [headerMatch|] eqn:Hexec; [|discriminate].
  destruct (header_type_known _ _ Hexec) as (type & Htype & Hin).
  destruct (splitHeaderBodyTrailers _) as [body trailerLines].
  intros [= <-]. cbn [Commit.type Commit.intent]. split.
  - rewrite Htype. exact Hin.
  - intros i.
    destruct (firstValue (parseTrailers trailerLines) "intent") as [raw|];
      [|discriminate].
    destruct (Js.truthy (Some raw) && isIntentType raw) eqn:Hok;
      [|discriminate].
    intros [= <-]. apply andb_true_iff in Hok as [_ Hok].
    unfold isIntentType in Hok. apply existsb_exists in Hok as (x & Hx & Heq).
    apply String.eqb_eq in Heq. subst x. apply list_elem_of_In, Hx.
Qed.

Lemma parsed_commit_type_and_intent_known_witness :
  "feat" ∈ headerTypes ∧ ∀ i, Some "enable-capability" = Some i → i ∈ INTENT_TYPES.
Proof.
  eapply (parsed_commit_type_and_intent_known (λ _, None) webhookBlock
            {| Commit.hash := "abc123def456";
               Commit.date := "2025-02-08T10:30:00+00:00";
               Commit.type := "feat";
               Commit.headerScope := Some "api";
               Commit.subject := "add webhook endpoint";
               Commit.body := "Configure via WEBHOOK_URL: https://example.com";
               Commit.intent := Some "enable-capability";
               Commit.scope := ["api/webhooks"];
               Commit.decidedAgainst := [];
               Commit.session := None;
               Commit.refs := [];
               Commit.context := None;
               Commit.breaking := None;
               Commit.raw := webhookBlock |}).
  vm_compute. reflexivity.
Defined.

(** ** Further properties of the configuration *)

(** X23: a configuration that [saveRlmConfig] has written is the one that
    [loadRlmConfig] reads back, when [JSON.parse] inverts
    [JSON.stringify] on its object. *)
Theorem saved_config_is_loaded
  gitDir JSON_stringify JSON_parse writeError fs fs' config :
  JSON_parse (JSON_stringify (configObject config))
  = Some (configObject config) →
  RlmConfig.version config = 1%Z →
  saveRlmConfig gitDir JSON_stringify writeError fs config = (Ok (), fs') →
  loadRlmConfig gitDir (λ path, fs' !! path) JSON_parse = config.
Proof.
  intros Hparse Hversion. unfold saveRlmConfig, loadRlmConfig.
  destruct (getConfigPath gitDir) as [path|e]; [|discriminate].
  destruct (writeError path); [discriminate|].
  intros [= <-]. cbv beta. unfold FileSystem in *.
  rewrite lookup_insert_eq, Hparse.
  destruct config as [version enabled endpoint model timeoutMs maxTokens].
  simpl in Hversion. subst version. reflexivity.
Qed.

Lemma saved_config_is_loaded_witness :
  loadRlmConfig (Ok ".git")
    (λ path,
       ({[ ".git/info/rlm-config.json" := "{...}" ]} : FileSystem) !! path)
    (λ _, Some (configObject
                  {| RlmConfig.version := 1; RlmConfig.enabled := true;
                     RlmConfig.endpoint := "http://localhost:11434";
                     RlmConfig.model := "llama3"; RlmConfig.timeoutMs := 9000;
                     RlmConfig.maxTokens := 128 |}))
  = {| RlmConfig.version := 1; RlmConfig.enabled := true;
       RlmConfig.endpoint := "http://localhost:11434";
       RlmConfig.model := "llama3"; RlmConfig.timeoutMs := 9000;
       RlmConfig.maxTokens := 128 |}.
Proof.
  apply (saved_config_is_loaded (Ok ".git") (λ _, "{...}") _ (λ _, None) ∅).
  - reflexivity.
  - reflexivity.
  - reflexivity.
Defined.

(** X24: the local model is never enabled by default: a loaded
    configuration has [enabled = true] only when the configuration file
    could be read and parsed to an object whose [version] is 1 and whose
    [enabled] is the boolean [true]. *)
Theorem rlm_enabled_only_by_file gitDir readTextFile JSON_parse :
  RlmConfig.enabled (loadRlmConfig gitDir readTextFile JSON_parse) = true →
  ∃ path content data,
    getConfigPath gitDir = Ok path
    ∧ readTextFile path = Some content
    ∧ JSON_parse content = Some (JObject data)
    ∧ jsonProperty data "version" = Some (JNumber 1)
    ∧ jsonProperty data "enabled" = Some (JBool true).
Proof.
  unfold loadRlmConfig.
  destruct (getConfigPath gitDir) as [path|e]; [|discriminate].
  destruct (readTextFile path) as [content|] eqn:Hread; [|discriminate].
  destruct (JSON_parse content) as [[| | | | |data]|] eqn:Hparse;
    try discriminate.
  destruct (jsonProperty data "version") as [[| |[|[| |]|]| | |]|] eqn:Hv;
    try discriminate.
  cbn [RlmConfig.enabled].
  destruct (jsonProperty data "enabled") as [[|[|]| | | |]|] eqn:He;
    try discriminate.
  intros _. exists path, content, data. auto.
Qed.

Lemma rlm_enabled_only_by_file_witness :
  ∃ path content data,
    getConfigPath (Ok ".git") = Ok path
    ∧ (λ _ : string, Some "{...}") path = Some content
    ∧ (λ _ : string,
         Some (JObject [("version", JNumber 1); ("enabled", JBool true)]))
        content
      = Some (JObject data)
    ∧ jsonProperty data "version" = Some (JNumber 1)
    ∧ jsonProperty data "enabled" = Some (JBool true).
Proof.
  apply (rlm_enabled_only_by_file (Ok ".git") (λ _, Some "{...}")
           (λ _, Some (JObject [("version", JNumber 1);
                                ("enabled", JBool true)]))).
  reflexivity.
Defined.

(** ** The prompt analyzer *)

Lemma scopeLoop_fold scopeKeys tokens : ∀ scopeHints consumedTokens,
  fold_left
    (λ '(scopeHints, consumedTokens) token,
       if existsb (λ scopeKey, scopeMatches scopeKey token) scopeKeys
       then (setAdd scopeHints token, setAdd consumedTokens token)
       else (scopeHints, consumedTokens))
    tokens (scopeHints, consumedTokens)
  = (let matching :=
       List.filter (λ t, existsb (λ k, scopeMatches k t) scopeKeys) tokens in
     (fold_left setAdd matching scopeHints,
      fold_left setAdd matching consumedTokens)).
Proof.
  induction tokens as [|t tokens IH]; intros sh ct; [reflexivity|].
  cbn [fold_left List.filter].
  destruct (existsb _ scopeKeys); rewrite IH; reflexivity.
Qed.

Lemma intentLoop_fold tokens : ∀ intentHints consumedTokens,
  fold_left
    (λ '(intentHints, consumedTokens) token,
       match synonymIntent token with
       | Some intent => (setAdd intentHints intent, setAdd consumedTokens token)
       | None => (intentHints, consumedTokens)
       end)
    tokens (intentHints, consumedTokens)
  = (fold_left setAdd (omap synonymIntent tokens) intentHints,
     fold_left setAdd
       (List.filter (λ t, bool_decide (is_Some (synonymIntent t))) tokens)
       consumedTokens).
Proof.
  induction tokens as [|t tokens IH]; intros ih ct; [reflexivity|].
  cbn [fold_left List.filter]. csimpl.
  destruct (synonymIntent t) as [intent|]; rewrite IH.
  - rewrite bool_decide_eq_true_2 by eauto. reflexivity.
  - rewrite bool_decide_eq_false_2 by (intros [? [=]]). reflexivity.
Qed.

Lemma trim_empty_blank s : Js.trim s = EmptyString → Js.isBlank s = true.
Proof.
  unfold Js.trim. induction s as [|c s IH]; [reflexivity|].
  cbn [Js.trimStart Js.isBlank].
  destruct (Js.isWhiteSpace c) eqn:Hc; [exact IH|].
  cbn [Js.trimEnd Js.isBlank]. rewrite Hc. discriminate.
Qed.

Lemma blank_trim_empty s : Js.isBlank s = true → Js.trim s = EmptyString.
Proof.
  unfold Js.trim. induction s as [|c s IH]; [reflexivity|].
  cbn [Js.trimStart Js.isBlank].
  intros [-> Hs]%andb_true_iff. apply IH, Hs.
Qed.

Lemma whiteSpace_blanked c :
  Js.isWhiteSpace c = true →
  Js.isWhiteSpace (blankNonToken (Js.lowerChar c)) = true.
Proof.
  destruct c as [[] [] [] [] [] [] [] []]; vm_compute; intros H;
    (reflexivity || discriminate H).
Qed.

Lemma splitRuns_blank s : ∀ inRun,
  Js.isBlank s = true →
  Forall (λ t, t = EmptyString)
    (splitRuns Js.isWhiteSpace inRun
       (replaceChars blankNonToken (Js.toLowerCase s))).
Proof.
  induction s as [|c s IH]; intros inRun; [repeat constructor|].
  cbn [Js.isBlank Js.toLowerCase replaceChars splitRuns].
  intros [Hc Hs]%andb_true_iff. rewrite (whiteSpace_blanked c Hc).
  destruct inRun; [|constructor; [reflexivity|]]; apply IH, Hs.
Qed.

(** A prompt of white space has no token. *)
Lemma tokenize_blank prompt : Js.trim prompt = EmptyString → tokenize prompt = [].
Proof.
  intros Hblank%trim_empty_blank. unfold tokenize.
  pose proof (splitRuns_blank prompt false Hblank) as Hall.
  induction Hall as [|t l -> _ IH]; [reflexivity|exact IH].
Qed.

Example extractPromptSignals_fix_auth :
  extractPromptSignals "fix the AUTH login bug" ["auth"; "auth/login"; "cache"]
  = {| scopeHints := ["auth"]; intentHints := ["fix-defect"];
       keywords := ["login"] |}.
Proof. vm_compute. reflexivity. Qed.

Example tokenize_example :
  tokenize "  Fix: the auth/login-flow (v2)!  x " 
  = ["fix"; "the"; "auth/login-flow"; "v2"].
Proof. vm_compute. reflexivity. Qed.

(** The signals, without the loops. *)
Lemma extractPromptSignals_sets prompt scopeKeys :
  extractPromptSignals prompt scopeKeys
  = let tokens := tokenize prompt in
    let matching :=
      List.filter (λ t, existsb (λ k, scopeMatches k t) scopeKeys) tokens in
    let consumedTokens :=
      fold_left setAdd
        (List.filter (λ t, bool_decide (is_Some (synonymIntent t))) tokens)
        (newSet matching) in
    {| scopeHints := newSet matching;
       intentHints := newSet (omap synonymIntent tokens);
       keywords :=
         newSet
           (List.filter
              (λ t, negb (bool_decide (t ∈ consumedTokens))
                    && negb (stopWord t))
              tokens) |}.
Proof.
  unfold extractPromptSignals.
  destruct (Js.truthy (Some (Js.trim prompt))) eqn:Htruthy; cbn [negb].
  - unfold scopeLoop, intentLoop.
    rewrite scopeLoop_fold. cbv beta iota zeta.
    rewrite intentLoop_fold. reflexivity.
  - assert (Hblank : Js.trim prompt = EmptyString).
    { destruct (Js.trim prompt); [reflexivity|discriminate]. }
    rewrite (tokenize_blank prompt Hblank). reflexivity.
Qed.

(** X25: the signals drawn from a prompt, as sets.  The scope hints are
    the tokens that match some scope key, the intent hints are the intents
    of the tokens that have a synonym entry, and the keywords are the
    tokens that match no scope key, have no synonym entry and are no stop
    word; none of the three lists has a duplicate.  A prompt of white
    space has no token and so no signal. *)
Theorem prompt_signals_characterized prompt scopeKeys :
  let signals := extractPromptSignals prompt scopeKeys in
  let tokens := tokenize prompt in
  (∀ t, t ∈ scopeHints signals
        ↔ t ∈ tokens ∧ ∃ k, k ∈ scopeKeys ∧ scopeMatches k t = true)
  ∧ (∀ i, i ∈ intentHints signals
          ↔ ∃ t, t ∈ tokens ∧ synonymIntent t = Some i)
  ∧ (∀ t, t ∈ keywords signals
          ↔ t ∈ tokens
            ∧ (∀ k, k ∈ scopeKeys → scopeMatches k t = false)
            ∧ synonymIntent t = None
            ∧ stopWord t = false)
  ∧ NoDup (scopeHints signals)
  ∧ NoDup (intentHints signals)
  ∧ NoDup (keywords signals).
Proof.
  cbv zeta. rewrite extractPromptSignals_sets. cbv zeta.
  cbn [scopeHints intentHints keywords].
  assert (Hmatch : ∀ t,
    existsb (λ k, scopeMatches k t) scopeKeys = true
    ↔ ∃ k, k ∈ scopeKeys ∧ scopeMatches k t = true).
  { intros t. rewrite existsb_exists.
    split; intros (k & Hk & Hm); exists k; split;
      try exact Hm; by apply list_elem_of_In. }
  split; [|split; [|split; [|split; [|split]]]];
    try apply NoDup_newSet.
  - intros t. rewrite elem_of_newSet, elem_of_List_filter, Hmatch.
    reflexivity.
  - intros i. rewrite elem_of_newSet, list_elem_of_omap. reflexivity.
  - intros t.
    rewrite elem_of_newSet, elem_of_List_filter, andb_true_iff,
      !negb_true_iff, bool_decide_eq_false, elem_of_fold_setAdd,
      elem_of_newSet, !elem_of_List_filter, bool_decide_eq_true.
    split.
    + intros (Ht & Hnot & Hstop). split; [exact Ht|]. split; [|split].
      * intros k Hk. destruct (scopeMatches k t) eqn:Hm; [|reflexivity].
        exfalso. apply Hnot. left. split; [exact Ht|].
        apply Hmatch. eauto.
      * destruct (synonymIntent t) as [i|] eqn:Hi; [|reflexivity].
        exfalso. apply Hnot. right. split; [exact Ht|]. by eexists.
      * exact Hstop.
    + intros (Ht & Hkeys & Hsyn & Hstop). split; [exact Ht|].
      split; [|exact Hstop].
      intros [[_ (k & Hk & Hm)%Hmatch]|[_ [i Hi]]].
      * rewrite (Hkeys k Hk) in Hm. discriminate.
      * rewrite Hsyn in Hi. discriminate.
Qed.

(** *** The shape of a token *)

Lemma token_or_space c :
  let c' := blankNonToken (Js.lowerChar c) in
  Js.isWhiteSpace c' = false → tokenChar c' = true.
Proof.
  destruct c as [[] [] [] [] [] [] [] []]; vm_compute; intros H;
    (reflexivity || discriminate H).
Qed.

Lemma splitRuns_tokenChars s : ∀ inRun,
  Forall (λ t, allChars tokenChar t = true)
    (splitRuns Js.isWhiteSpace inRun
       (replaceChars blankNonToken (Js.toLowerCase s))).
Proof.
  induction s as [|c s IH]; intros inRun; [repeat constructor|].
  cbn [Js.toLowerCase replaceChars splitRuns].
  destruct (Js.isWhiteSpace (blankNonToken (Js.lowerChar c))) eqn:Hc.
  - destruct inRun; [|constructor; [reflexivity|]]; apply IH.
  - pose proof (token_or_space c Hc) as Htok. specialize (IH false).
    destruct (splitRuns Js.isWhiteSpace false _) as [|piece pieces].
    + repeat constructor. simpl. rewrite Htok. reflexivity.
    + inversion IH as [|? ? Hpiece Hpieces]; subst.
      constructor; [|exact Hpieces]. simpl. rewrite Htok. exact Hpiece.
Qed.

Lemma prompt_signals_sets_tokens prompt scopeKeys t :
  (t ∈ scopeHints (extractPromptSignals prompt scopeKeys) →
   t ∈ tokenize prompt)
  ∧ (t ∈ keywords (extractPromptSignals prompt scopeKeys) →
     t ∈ tokenize prompt).
Proof.
  rewrite extractPromptSignals_sets. cbv zeta. cbn [scopeHints keywords].
  split; rewrite elem_of_newSet, elem_of_List_filter; tauto.
Qed.

(** X26: a token has at least two characters, all of them lower-case
    letters, digits, slashes, hyphens or underscores; so have the scope
    hints and the keywords, which are tokens. *)
Theorem tokens_are_lower_case_words prompt scopeKeys t :
  t ∈ tokenize prompt
  ∨ t ∈ scopeHints (extractPromptSignals prompt scopeKeys)
  ∨ t ∈ keywords (extractPromptSignals prompt scopeKeys) →
  1 < String.length t ∧ allChars tokenChar t = true.
Proof.
  assert (Htoken : t ∈ tokenize prompt →
                   1 < String.length t ∧ allChars tokenChar t = true).
  { unfold tokenize. intros [Hin Hlen]%elem_of_List_filter.
    split; [apply Nat.ltb_lt, Hlen|].
    pose proof (splitRuns_tokenChars prompt false) as Hall.
    rewrite Forall_forall in Hall. apply Hall, Hin. }
  pose proof (prompt_signals_sets_tokens prompt scopeKeys t) as [Hs Hk].
  intros [Ht|[Ht|Ht]]; auto.
Qed.

Lemma tokens_are_lower_case_words_witness :
  1 < String.length "auth/login" ∧ allChars tokenChar "auth/login" = true.
Proof.
  apply (tokens_are_lower_case_words "Fix the Auth/Login redirect!"
           ["auth"; "auth/login"] "auth/login").
  right. left. vm_compute. apply list_elem_of_here.
Defined.

(** The signals do not depend on the case of the letters of the
    prompt. *)
Theorem prompt_signals_ignore_case prompt1 prompt2 scopeKeys :
  Js.toLowerCase prompt1 = Js.toLowerCase prompt2 →
  extractPromptSignals prompt1 scopeKeys
  = extractPromptSignals prompt2 scopeKeys.
Proof.
  intros Hcase. rewrite !extractPromptSignals_sets.
  unfold tokenize. rewrite Hcase. reflexivity.
Qed.

Lemma prompt_signals_ignore_case_witness :
  extractPromptSignals "FIX the Auth LOGIN Bug" ["auth"; "cache"]
  = extractPromptSignals "fix the auth login bug" ["auth"; "cache"].
Proof.
  apply (prompt_signals_ignore_case "FIX the Auth LOGIN Bug"
           "fix the auth login bug").
  reflexivity.
Defined.

(** ** The working memory *)

Section WorkingMemoryProperties.

Variable gitDir : Result string string.
Variable JSON_stringify : Memory.t → string.
Variable JSON_parse : string → option Memory.t.
Variable writeError : string → option string.

Local Abbreviation load := (loadWorkingMemory gitDir JSON_parse).
Local Abbreviation add :=
  (addEntry gitDir JSON_stringify JSON_parse writeError).

(** What is read after a write that succeeded. *)
Lemma load_after_save fs fs' memory sessionId :
  saveWorkingMemory gitDir JSON_stringify writeError fs memory = (Ok (), fs') →
  JSON_parse (JSON_stringify memory) = Some memory →
  load fs' sessionId
  = if negb (String.eqb (Memory.sessionId memory) sessionId) then Ok None
    else if negb (Memory.version memory =? 1)%Z then Ok None
    else Ok (Some memory).
Proof.
  unfold saveWorkingMemory, loadWorkingMemory.
  destruct (getWorkingMemoryPath gitDir) as [path|e]; [|discriminate].
  destruct (writeError path); [discriminate|].
  intros [= <-] Hparse. unfold FileSystem in *.
  rewrite lookup_insert_eq, Hparse. reflexivity.
Qed.

(** One call of [addEntry] in a state whose memory is known. *)
Lemma addEntry_memory fs now sessionId entry existing path :
  getWorkingMemoryPath gitDir = Ok path →
  writeError path = None →
  load fs sessionId = Ok existing →
  let memory :=
    match existing with
    | Some value =>
        {| Memory.version := Memory.version value;
           Memory.sessionId := Memory.sessionId value;
           Memory.created := Memory.created value;
           Memory.updated := now;
           Memory.entries :=
             Memory.entries value ++ [withTimestamp entry now] |}
    | None =>
        {| Memory.version := 1;
           Memory.sessionId := sessionId;
           Memory.created := now;
           Memory.updated := now;
           Memory.entries := [withTimestamp entry now] |}
    end in
  add fs now sessionId entry
  = (Ok memory, <[path := JSON_stringify memory]> fs).
Proof.
  intros Hpath Hwrite Hload. cbv zeta. unfold addEntry.
  rewrite Hload. cbv zeta. unfold saveWorkingMemory.
  rewrite Hpath, Hwrite. reflexivity.
Qed.

End WorkingMemoryProperties.

Lemma memoryOf_snoc sessionId items item :
  memoryOf sessionId (items ++ [item])
  = match items with
    | [] =>
        {| Memory.version := 1;
           Memory.sessionId := sessionId;
           Memory.created := fst item;
           Memory.updated := fst item;
           Memory.entries := [withTimestamp (snd item) (fst item)] |}
    | _ =>
        let value := memoryOf sessionId items in
        {| Memory.version := Memory.version value;
           Memory.sessionId := Memory.sessionId value;
           Memory.created := Memory.created value;
           Memory.updated := fst item;
           Memory.entries :=
             Memory.entries value ++ [withTimestamp (snd item) (fst item)] |}
    end.
Proof.
  unfold memoryOf. rewrite last_snoc, map_app.
  destruct items as [|first items]; reflexivity.
Qed.

Lemma load_added_entries
  gitDir JSON_stringify JSON_parse writeError fs sessionId path items :
  getWorkingMemoryPath gitDir = Ok path →
  writeError path = None →
  loadWorkingMemory gitDir JSON_parse fs sessionId = Ok None →
  (∀ k, 1 ≤ k ≤ length items →
        JSON_parse (JSON_stringify (memoryOf sessionId (take k items)))
        = Some (memoryOf sessionId (take k items))) →
  loadWorkingMemory gitDir JSON_parse
    (addEntries gitDir JSON_stringify JSON_parse writeError fs sessionId items)
    sessionId
  = Ok match items with
       | [] => None
       | _ => Some (memoryOf sessionId items)
       end.
Proof.
  intros Hpath Hwrite Hfresh.
  induction items as [|item items IH] using rev_ind; intros Hparse.
  - exact Hfresh.
  - unfold addEntries. rewrite fold_left_app. cbn [fold_left].
    fold (addEntries gitDir JSON_stringify JSON_parse writeError fs sessionId
            items).
    assert (IH' := IH). clear IH.
    rewrite (addEntry_memory gitDir JSON_stringify JSON_parse writeError _
               (fst item) sessionId (snd item) _ path Hpath Hwrite
               (IH' ltac:(intros k Hk;
                           specialize (Hparse k);
                           rewrite length_app, take_app_le in Hparse by lia;
                           apply Hparse; simpl; lia))).
    cbn [snd].
    assert (Hmem :
      match match items with
            | [] => None
            | _ => Some (memoryOf sessionId items)
            end with
      | Some value =>
          {| Memory.version := Memory.version value;
             Memory.sessionId := Memory.sessionId value;
             Memory.created := Memory.created value;
             Memory.updated := fst item;
             Memory.entries :=
               Memory.entries value ++ [withTimestamp (snd item) (fst item)] |}
      | None =>
          {| Memory.version := 1;
             Memory.sessionId := sessionId;
             Memory.created := fst item;
             Memory.updated := fst item;
             Memory.entries := [withTimestamp (snd item) (fst item)] |}
      end = memoryOf sessionId (items ++ [item])).
    { rewrite memoryOf_snoc. destruct items; reflexivity. }
    rewrite Hmem. unfold loadWorkingMemory. rewrite Hpath.
    unfold FileSystem in *. rewrite lookup_insert_eq.
    specialize (Hparse (length (items ++ [item]))).
    rewrite firstn_all in Hparse. rewrite Hparse.
    + cbn [memoryOf Memory.sessionId Memory.version].
      rewrite String.eqb_refl. simpl.
      destruct (items ++ [item]) eqn:Happ; [|reflexivity].
      apply app_eq_nil in Happ as [_ [=]].
    + rewrite length_app. simpl. lia.
Qed.

(** X27: the working memory keeps what is added.  In a state without a
    memory for the session, after successful calls of [addEntry] for the
    entries [e1 .. en], [loadWorkingMemory] returns the memory of the
    session whose entries are [e1 .. en] in this order, each stamped with
    the time of its call; the memory is created at the first and updated
    at the last call.  [JSON.parse] is assumed to invert
    [JSON.stringify] on the memories that are written. *)
Theorem working_memory_keeps_added_entries
  gitDir JSON_stringify JSON_parse writeError fs sessionId path items :
  getWorkingMemoryPath gitDir = Ok path →
  writeError path = None →
  loadWorkingMemory gitDir JSON_parse fs sessionId = Ok None →
  items ≠ [] →
  (∀ k, 1 ≤ k ≤ length items →
        JSON_parse (JSON_stringify (memoryOf sessionId (take k items)))
        = Some (memoryOf sessionId (take k items))) →
  loadWorkingMemory gitDir JSON_parse
    (addEntries gitDir JSON_stringify JSON_parse writeError fs sessionId items)
    sessionId
  = Ok (Some (memoryOf sessionId items)).
Proof.
  intros Hpath Hwrite Hfresh Hne Hparse.
  rewrite (load_added_entries _ _ _ _ _ _ _ _ Hpath Hwrite Hfresh Hparse).
  destruct items; [contradiction|reflexivity].
Qed.

Lemma working_memory_keeps_added_entries_witness :
  loadWorkingMemory (Ok ".git") exampleParse
    (addEntries (Ok ".git") exampleStringify exampleParse (λ _, None) ∅ "s1"
       exampleItems)
    "s1"
  = Ok (Some (memoryOf "s1" exampleItems)).
Proof.
  apply (working_memory_keeps_added_entries (Ok ".git") exampleStringify
           exampleParse (λ _, None) ∅ "s1" ".git/info/working-memory.json"
           exampleItems).
  - reflexivity.
  - reflexivity.
  - reflexivity.
  - discriminate.
  - intros k Hk. destruct k as [|[|[|k]]]; simpl in Hk; try lia; reflexivity.
Defined.

(** X28: the memory of another session is neither returned nor merged.
    When the file holds the memory of a different session, [addEntry]
    starts a new memory with the one entry and overwrites the file, and
    the old session then has no memory to load. *)
Theorem other_session_memory_is_replaced
  gitDir JSON_stringify JSON_parse writeError fs now sessionId entry path
  content old :
  getWorkingMemoryPath gitDir = Ok path →
  writeError path = None →
  fs !! path = Some content →
  JSON_parse content = Some old →
  Memory.sessionId old ≠ sessionId →
  JSON_parse (JSON_stringify (memoryOf sessionId [(now, entry)]))
  = Some (memoryOf sessionId [(now, entry)]) →
  let run := addEntry gitDir JSON_stringify JSON_parse writeError fs now
               sessionId entry in
  fst run = Ok (memoryOf sessionId [(now, entry)])
  ∧ loadWorkingMemory gitDir JSON_parse (snd run) sessionId
    = Ok (Some (memoryOf sessionId [(now, entry)]))
  ∧ loadWorkingMemory gitDir JSON_parse (snd run) (Memory.sessionId old)
    = Ok None.
Proof.
  intros Hpath Hwrite Hfile Hold Hother Hparse. cbv zeta.
  assert (Hload : loadWorkingMemory gitDir JSON_parse fs sessionId = Ok None).
  { unfold loadWorkingMemory. rewrite Hpath, Hfile, Hold.
    destruct (String.eqb_spec (Memory.sessionId old) sessionId);
      [contradiction|reflexivity]. }
  rewrite (addEntry_memory gitDir JSON_stringify JSON_parse writeError fs now
             sessionId entry None path Hpath Hwrite Hload).
  cbn [fst snd]. split; [reflexivity|].
  unfold loadWorkingMemory. rewrite Hpath. unfold FileSystem in *.
  rewrite lookup_insert_eq.
  change {| Memory.version := 1; Memory.sessionId := sessionId;
            Memory.created := now; Memory.updated := now;
            Memory.entries := [withTimestamp entry now] |}
    with (memoryOf sessionId [(now, entry)]).
  rewrite Hparse. cbn [memoryOf Memory.sessionId Memory.version].
  rewrite String.eqb_refl. split; [reflexivity|].
  destruct (String.eqb_spec sessionId (Memory.sessionId old)) as [Heq|_];
    [|reflexivity].
  symmetry in Heq. contradiction.
Qed.

Lemma other_session_memory_is_replaced_witness :
  let entry := {| Entry.timestamp := EmptyString; Entry.tag := todo;
                  Entry.scope := []; Entry.text := "Check the cache";
                  Entry.source := None |} in
  let fs : FileSystem :=
    {[ ".git/info/working-memory.json" := "s1@2025-02-08T10:05:00.000Z" ]} in
  let run := addEntry (Ok ".git") exampleStringify exampleParse (λ _, None)
               fs "2025-02-09T09:00:00.000Z" "s2" entry in
  fst run = Ok (memoryOf "s2" [("2025-02-09T09:00:00.000Z", entry)])
  ∧ loadWorkingMemory (Ok ".git") exampleParse (snd run) "s2"
    = Ok (Some (memoryOf "s2" [("2025-02-09T09:00:00.000Z", entry)]))
  ∧ loadWorkingMemory (Ok ".git") exampleParse (snd run) "s1" = Ok None.
Proof.
  intros entry fs.
  apply (other_session_memory_is_replaced (Ok ".git") exampleStringify
           exampleParse (λ _, None) fs "2025-02-09T09:00:00.000Z" "s2" entry
           ".git/info/working-memory.json" "s1@2025-02-08T10:05:00.000Z"
           (memoryOf "s1" exampleItems)).
  - reflexivity.
  - reflexivity.
  - reflexivity.
  - reflexivity.
  - discriminate.
  - reflexivity.
Defined.

(** ** The consolidation of the working memory *)

Example collectScopes_example :
  collectScopes (map snd exampleItems) = ["auth"; "cache"].
Proof. vm_compute. reflexivity. Qed.

Lemma stringLe_trans : Transitive stringLe.
Proof.
  unfold stringLe, String.leb. intros a.
  induction a as [|ca a IH]; intros [|cb b] [|cc c]; simpl; try easy.
  unfold Ascii.compare.
  destruct (N.compare_spec (N_of_ascii ca) (N_of_ascii cb)),
    (N.compare_spec (N_of_ascii cb) (N_of_ascii cc)),
    (N.compare_spec (N_of_ascii ca) (N_of_ascii cc));
    try lia; try easy.
  apply IH.
Qed.

Lemma stringLe_total : Total stringLe.
Proof. intros a b. apply String.leb_total. Qed.

Lemma stringLe_antisym : AntiSymm eq stringLe.
Proof. intros a b. apply String.leb_antisym. Qed.

Lemma scopes_fold entries : ∀ acc,
  let scopes :=
    fold_left (λ scopes entry, fold_left setAdd (Entry.scope entry) scopes)
      entries acc in
  (NoDup acc → NoDup scopes)
  ∧ ∀ s, s ∈ scopes ↔ s ∈ acc ∨ ∃ e, e ∈ entries ∧ s ∈ Entry.scope e.
Proof.
  induction entries as [|entry entries IH]; intros acc; cbn [fold_left].
  - split; [auto|]. intros s. split; [auto|].
    intros [?|(e & He & _)]; [assumption|inversion He].
  - destruct (IH (fold_left setAdd (Entry.scope entry) acc)) as [Hnd Hin].
    split.
    + intros Hacc. apply Hnd, NoDup_fold_setAdd, Hacc.
    + intros s. rewrite Hin, elem_of_fold_setAdd. split.
      * intros [[?|Hs]|(e & He & Hs)]; [by left| |].
        -- right. exists entry. split; [apply list_elem_of_here|exact Hs].
        -- right. exists e. split; [apply list_elem_of_further, He|exact Hs].
      * intros [?|(e & He & Hs)]; [by left; left|].
        apply elem_of_cons in He as [->|He]; [by left; right|].
        right. eauto.
Qed.

(** X29: [collectScopes] returns every scope of every entry exactly once,
    in ascending order of the code units. *)
Theorem collectScopes_sorted_distinct entries :
  StronglySorted stringLe (collectScopes entries)
  ∧ NoDup (collectScopes entries)
  ∧ ∀ s, s ∈ collectScopes entries
         ↔ ∃ e, e ∈ entries ∧ s ∈ Entry.scope e.
Proof.
  unfold collectScopes, sortStrings.
  destruct (scopes_fold entries []) as [Hnd Hin]. cbv zeta in Hnd, Hin.
  split; [|split].
  - apply StronglySorted_merge_sort;
      [apply stringLe_trans|apply stringLe_total].
  - rewrite merge_sort_Permutation. apply Hnd, NoDup_nil_2.
  - intros s. rewrite merge_sort_Permutation, Hin, elem_of_nil. tauto.
Qed.

(** *** The trailer hints are read back by the parser *)

Lemma starLoop_greedy {R} p s : ∀ before rest caps (k : Regex.Cont R) res,
  allChars p s = true →
  match rest with String c _ => p c = false | EmptyString => True end →
  k (lastChar before s) rest caps = Some res →
  Regex.starLoop p before (s ++ rest) caps k = Some res.
Proof.
  induction s as [|c s IH]; intros before rest caps k res; simpl.
  - intros _ Hrest Hk. destruct rest as [|c r]; simpl; [exact Hk|].
    rewrite Hrest. exact Hk.
  - intros [Hc Hs]%andb_true_iff Hrest Hk. rewrite Hc.
    rewrite (IH (Some c) rest caps k res Hs Hrest Hk). reflexivity.
Qed.

Lemma take_all s : Js.take (String.length s) s = s.
Proof. induction s as [|c s IH]; simpl; [|rewrite IH]; reflexivity. Qed.

Lemma consumed_all s : Regex.consumed s EmptyString = s.
Proof. unfold Regex.consumed. simpl. rewrite Nat.sub_0_r. apply take_all. Qed.

Lemma string_app_nil_r s : (s +:+ EmptyString) = s.
Proof.
  induction s as [|a s IH]; [reflexivity|].
  change (String a (s +:+ EmptyString) = String a s). f_equal. exact IH.
Qed.

Lemma trimStart_split s :
  ∃ w, s = (w ++ Js.trimStart s)%string ∧ allChars Js.isWhiteSpace w = true.
Proof.
  induction s as [|c s (w & Hs & Hw)]; [by exists EmptyString|].
  simpl. destruct (Js.isWhiteSpace c) eqn:Hc.
  - exists (String c w).
    split; [change (String c s = String c (w +:+ Js.trimStart s));
            f_equal; exact Hs|].
    simpl. rewrite Hc. exact Hw.
  - by exists EmptyString.
Qed.

Lemma trimStart_first s c r :
  Js.trimStart s = String c r → Js.isWhiteSpace c = false.
Proof.
  induction s as [|a s IH]; simpl; [discriminate|].
  destruct (Js.isWhiteSpace a) eqn:Ha; [exact IH|].
  intros [= <- _]. exact Ha.
Qed.

(** A line [Key: value] matches [TRAILER_RE] with the key and the value
    as its groups. *)
Lemma matchHere_trailer key0 keyRest X :
  Js.isAsciiLetter key0 = true →
  allChars isTrailerKeyChar keyRest = true →
  Js.trimStart X ≠ EmptyString →
  allChars Regex.dot (Js.trimStart X) = true →
  Regex.matchHere false TRAILER_RE None (String key0 keyRest ++ ": " ++ X)
  = Some (EmptyString, [(2, Js.trimStart X); (1, String key0 keyRest)]).
Proof.
  intros Hkey0 HkeyRest Hne Hdot.
  destruct (trimStart_split X) as (w & HX & Hw).
  destruct (Js.trimStart X) as [|c r] eqn:Hr; [contradiction|].
  pose proof (trimStart_first _ _ _ Hr) as Hc.
  simpl in Hdot. apply andb_true_iff in Hdot as [Hdotc Hdotr].
  unfold Regex.matchHere, TRAILER_RE, Regex.Seq. cbn [foldr].
  change (String key0 keyRest ++ ": " ++ X)%string
    with (String key0 (keyRest ++ ": " ++ X)).
  cbn [Regex.run Regex.atLineStart Regex.Plus Regex.Lit]. rewrite Hkey0.
  apply starLoop_greedy; [exact HkeyRest|reflexivity|].
  match goal with
  | |- Regex.starLoop _ _ _ ?caps _ = _ => remember caps as caps1 eqn:Hcaps
  end.
  change (": " +:+ X)%string with (String ":" (" " +:+ X)).
  cbn [Regex.starLoop].
  change (Js.isWhiteSpace ":") with false.
  change ((":" =? ":")%char) with true. cbv beta iota.
  rewrite HX.
  change (" " +:+ w +:+ String c r)%string
    with (String " " w +:+ String c r).
  apply starLoop_greedy; [exact Hw|exact Hc|].
  cbv beta iota. rewrite Hdotc.
  rewrite <- (string_app_nil_r r) at 1.
  apply starLoop_greedy; [exact Hdotr|exact I|].
  cbv beta. cbn [Regex.atLineEnd]. rewrite consumed_all, Hcaps.
  change (String key0 (keyRest +:+ ": " +:+ X))%string
    with (String key0 keyRest +:+ (": " +:+ X)).
  rewrite consumed_app. reflexivity.
Qed.

Lemma execTrailer_line key0 keyRest X :
  Js.isAsciiLetter key0 = true →
  allChars isTrailerKeyChar keyRest = true →
  Js.trimStart X ≠ EmptyString →
  allChars Regex.dot (Js.trimStart X) = true →
  execTrailer (String key0 keyRest ++ ": " ++ X)
  = Some (String key0 keyRest, Js.trimStart X).
Proof.
  intros Hkey0 HkeyRest Hne Hdot. unfold execTrailer, Regex.exec.
  rewrite (execFrom_here _ _ _ _ _ _ _
             (matchHere_trailer key0 keyRest X Hkey0 HkeyRest Hne Hdot)).
  reflexivity.
Qed.

Lemma isBlank_app s t :
  Js.isBlank (s ++ t) = Js.isBlank s && Js.isBlank t.
Proof.
  induction s as [|c s IH]; [reflexivity|].
  change (String c s ++ t)%string with (String c (s ++ t)).
  cbn [Js.isBlank]. rewrite IH, andb_assoc. reflexivity.
Qed.

Lemma trimEnd_app_nonblank s t :
  Js.isBlank t = false → Js.trimEnd (s ++ t) = (s ++ Js.trimEnd t)%string.
Proof.
  intros Ht. induction s as [|c s IH]; [reflexivity|].
  change (String c s ++ t)%string with (String c (s ++ t)).
  cbn [Js.trimEnd].
  change (String c (s ++ t)) with (String c s ++ t)%string.
  rewrite isBlank_app, Ht, andb_false_r, IH. reflexivity.
Qed.

Lemma blank_trimStart s : Js.isBlank s = true → Js.trimStart s = EmptyString.
Proof.
  induction s as [|c s IH]; [reflexivity|]. simpl.
  intros [-> Hs]%andb_true_iff. apply IH, Hs.
Qed.

Lemma trimStart_trimEnd s :
  Js.trimStart (Js.trimEnd s) = Js.trimEnd (Js.trimStart s).
Proof.
  induction s as [|c s IH]; [reflexivity|].
  cbn [Js.trimEnd Js.trimStart].
  destruct (Js.isWhiteSpace c) eqn:Hc.
  - destruct (Js.isBlank (String c s)) eqn:Hb.
    + simpl in Hb. rewrite Hc in Hb. simpl in Hb.
      rewrite (blank_trimStart s Hb). reflexivity.
    + cbn [Js.trimStart]. rewrite Hc. exact IH.
  - cbn [Js.trimEnd Js.isBlank]. rewrite Hc. simpl. rewrite Hc. reflexivity.
Qed.

Lemma allChars_trimStart p s :
  allChars p s = true → allChars p (Js.trimStart s) = true.
Proof.
  induction s as [|c s IH]; [auto|]. simpl.
  destruct (Js.isWhiteSpace c); [|auto].
  intros [_ Hs]%andb_true_iff. apply IH, Hs.
Qed.

Lemma allChars_trimEnd p s :
  allChars p s = true → allChars p (Js.trimEnd s) = true.
Proof.
  induction s as [|c s IH]; [auto|]. cbn [Js.trimEnd].
  destruct (Js.isBlank (String c s)); [reflexivity|]. simpl.
  intros [-> Hs]%andb_true_iff. apply IH, Hs.
Qed.

(** The value that a hint line gives to the key [decided-against]. *)
Lemma trailerValue_decision da :
  Js.trim da ≠ EmptyString → allChars Regex.dot da = true →
  trailerValue "decided-against" ("Decided-Against: " +:+ da)
  = Some (Js.trim da).
Proof.
  intros Hne Hdot. unfold trailerValue.
  assert (Hblank : Js.isBlank da = false).
  { destruct (Js.isBlank da) eqn:Hb; [|reflexivity].
    apply blank_trim_empty in Hb. contradiction. }
  assert (Htrim : Js.trim ("Decided-Against: " +:+ da)
                  = ("Decided-Against: " +:+ Js.trimEnd da)).
  { unfold Js.trim.
    change (Js.trimStart ("Decided-Against: " +:+ da))
      with ("Decided-Against: " +:+ da).
    apply trimEnd_app_nonblank, Hblank. }
  rewrite Htrim.
  change ("Decided-Against: " +:+ Js.trimEnd da)
    with (String "D" "ecided-Against" +:+ ": " +:+ Js.trimEnd da).
  rewrite execTrailer_line.
  - change (Js.toLowerCase (String "D" "ecided-Against") =? "decided-against")%string
      with true.
    cbv iota. rewrite trimStart_trimEnd. fold (Js.trim da).
    rewrite trim_idem. reflexivity.
  - reflexivity.
  - reflexivity.
  - rewrite trimStart_trimEnd. exact Hne.
  - apply allChars_trimStart, allChars_trimEnd, Hdot.
Qed.

Lemma string_app_assoc s t u : ((s +:+ t) +:+ u) = (s +:+ t +:+ u).
Proof.
  induction s as [|c s IH]; [reflexivity|].
  change (String c ((s +:+ t) +:+ u) = String c (s +:+ t +:+ u)).
  f_equal. exact IH.
Qed.

Lemma starLoop_suffix {R} p : ∀ s before caps (k : Regex.Cont R) res,
  Regex.starLoop p before s caps k = Some res →
  ∃ before' pre s', s = (pre +:+ s') ∧ k before' s' caps = Some res.
Proof.
  induction s as [|c s IH]; intros before caps k res; cbn [Regex.starLoop].
  - intros Hk. by exists before, EmptyString, EmptyString.
  - destruct (p c); [|intros Hk; by exists before, EmptyString, (String c s)].
    destruct (Regex.starLoop p (Some c) s caps k) as [r|] eqn:Hloop.
    + intros [= <-]. apply IH in Hloop as (b' & pre & s' & -> & Hk).
      by exists b', (String c pre), s'.
    + intros Hk. by exists before, EmptyString, (String c s).
Qed.

(** The continuation of a match is entered on a suffix of the text. *)
Lemma run_suffix {R} multiline r :
  ∀ before s caps (k : Regex.Cont R) res,
    Regex.run multiline r before s caps k = Some res →
    ∃ before' pre s' caps', s = (pre +:+ s') ∧ k before' s' caps' = Some res.
Proof.
  induction r as [|p|a IHa b IHb|a IHa b IHb|p|m a IHa| | |];
    cbn [Regex.run]; intros before s caps k res.
  - intros Hk. by exists before, EmptyString, s, caps.
  - destruct s as [|c s]; [discriminate|].
    destruct (p c); [|discriminate].
    intros Hk. by exists (Some c), (String c EmptyString), s, caps.
  - intros (b1 & p1 & s1 & c1 & -> & Hrun)%IHa.
    apply IHb in Hrun as (b2 & p2 & s2 & c2 & -> & Hk).
    exists b2, (p1 +:+ p2), s2, c2. by rewrite string_app_assoc.
  - destruct (Regex.run multiline a before s caps k) as [r|] eqn:Hrun.
    + intros [= <-]. apply IHa in Hrun. exact Hrun.
    + apply IHb.
  - intros (b1 & pre & s1 & -> & Hk)%starLoop_suffix.
    by exists b1, pre, s1, caps.
  - intros (b1 & pre & s1 & c1 & -> & Hk)%IHa. eauto 8.
  - destruct (Regex.atLineStart multiline before); [|discriminate].
    intros Hk. by exists before, EmptyString, s, caps.
  - destruct (Regex.atLineEnd multiline s); [|discriminate].
    intros Hk. by exists before, EmptyString, s, caps.
  - destruct (Regex.wordBoundary before (Regex.firstChar s));
      [|discriminate].
    intros Hk. by exists before, EmptyString, s, caps.
Qed.

Lemma execFrom_anchored r : ∀ s c pos,
  Regex.execFrom false (Regex.Then Regex.LineStart r) (Some c) s pos = None.
Proof.
  induction s as [|a s IH]; intros c pos; cbn [Regex.execFrom];
    unfold Regex.matchHere; cbn [Regex.run Regex.atLineStart andb];
    [reflexivity|apply IH].
Qed.

(** The key of a trailer match is the front of the line. *)
Lemma execTrailer_key_prefix line k v :
  execTrailer line = Some (k, v) → Js.startsWith line k = true.
Proof.
  unfold execTrailer, Regex.exec, TRAILER_RE, Regex.Seq. cbn [foldr].
  match goal with
  | |- context [Regex.Then (Regex.Group 1 ?a) ?r] =>
      remember a as key eqn:Hkey; remember r as tail eqn:Htail
  end.
  assert (Hhere : ∀ rest caps,
    Regex.matchHere false
      (Regex.Then Regex.LineStart (Regex.Then (Regex.Group 1 key) tail))
      None line = Some (rest, caps) →
    ∃ pre, Regex.capture 1 caps = Some pre ∧ Js.startsWith line pre = true).
  { intros rest caps. unfold Regex.matchHere.
    cbn [Regex.run Regex.atLineStart].
    intros (b1 & pre & s1 & c1 & -> & Hrun)%run_suffix.
    apply run_keeps_group with (n := 1) in Hrun
      as (b2 & s2 & c2 & Hk & Hc); [|rewrite Htail; reflexivity].
    injection Hk as _ <-. exists pre. rewrite Hc. split.
    - unfold Regex.capture. cbn [List.find fst Nat.eqb fmap option_fmap
        option_map snd]. rewrite consumed_app. reflexivity.
    - apply startsWith_app_self. }
  destruct line as [|c line]; cbn [Regex.execFrom].
  - destruct (Regex.matchHere false _ None EmptyString) as [[rest caps]|]
      eqn:Hm; [|discriminate].
    destruct (Hhere rest caps eq_refl) as (pre & Hcap & Hpre).
    cbn [Regex.groups]. rewrite Hcap.
    destruct (Regex.capture 2 caps); [|discriminate].
    intros [= <- _]. exact Hpre.
  - destruct (Regex.matchHere false _ None (String c line)) as [[rest caps]|]
      eqn:Hm.
    + destruct (Hhere rest caps eq_refl) as (pre & Hcap & Hpre).
      cbn [Regex.groups]. rewrite Hcap.
      destruct (Regex.capture 2 caps); [|discriminate].
      intros [= <- _]. exact Hpre.
    + rewrite execFrom_anchored. discriminate.
Qed.

Lemma trailerValue_scope_line Y :
  trailerValue "decided-against" ("Scope: " +:+ Y) = None.
Proof.
  unfold trailerValue.
  destruct (execTrailer (Js.trim ("Scope: " +:+ Y))) as [[k v]|] eqn:Hexec;
    [|reflexivity].
  apply execTrailer_key_prefix in Hexec.
  destruct (String.eqb_spec (Js.toLowerCase k) "decided-against") as [Hk|];
    [|reflexivity].
  exfalso. destruct k as [|k0 k]; [discriminate|].
  injection Hk as Hk0 _. revert Hexec. unfold Js.trim.
  change (Js.trimStart ("Scope: " +:+ Y)) with (String "S" ("cope: " +:+ Y)).
  cbn [Js.trimEnd Js.isBlank]. change (Js.isWhiteSpace "S") with false.
  cbn [andb Js.startsWith].
  destruct (Ascii.eqb_spec "S" k0) as [<-|]; [discriminate Hk0|discriminate].
Qed.

Lemma allChars_app p s t :
  allChars p (s +:+ t) = allChars p s && allChars p t.
Proof.
  induction s as [|c s IH]; [reflexivity|].
  change (String c s +:+ t) with (String c (s +:+ t)).
  cbn [allChars]. rewrite IH, andb_assoc. reflexivity.
Qed.

Lemma allChars_join p sep l :
  allChars p sep = true → Forall (λ s, allChars p s = true) l →
  allChars p (Js.join sep l) = true.
Proof.
  intros Hsep Hl. unfold Js.join.
  induction Hl as [|s l Hs Hl IH]; [reflexivity|].
  destruct l as [|s' l]; [exact Hs|].
  change (String.concat sep (s :: s' :: l))
    with (s +:+ sep +:+ String.concat sep (s' :: l)).
  rewrite !allChars_app, Hs, Hsep, IH. reflexivity.
Qed.

Lemma split_line l rest :
  allChars Regex.dot l = true →
  Js.split Js.LF (l +:+ Js.nl +:+ rest) = l :: Js.split Js.LF rest.
Proof.
  induction l as [|c l IH]; [reflexivity|].
  change (String c l +:+ Js.nl +:+ rest) with (String c (l +:+ Js.nl +:+ rest)).
  cbn [allChars Js.split]. intros [Hc Hl]%andb_true_iff.
  destruct (Ascii.eqb_spec c Js.LF) as [->|_]; [discriminate Hc|].
  rewrite (IH Hl). reflexivity.
Qed.

Lemma split_one_line l :
  allChars Regex.dot l = true → Js.split Js.LF l = [l].
Proof.
  induction l as [|c l IH]; [reflexivity|].
  cbn [allChars Js.split]. intros [Hc Hl]%andb_true_iff.
  destruct (Ascii.eqb_spec c Js.LF) as [->|_]; [discriminate Hc|].
  rewrite (IH Hl). reflexivity.
Qed.

Lemma split_join_lines lines :
  Forall (λ l, allChars Regex.dot l = true) lines → lines ≠ [] →
  Js.split Js.LF (Js.join Js.nl lines) = lines.
Proof.
  unfold Js.join. induction 1 as [|l lines Hl Hlines IH]; [contradiction|].
  intros _. destruct lines as [|l' lines]; [apply split_one_line, Hl|].
  change (String.concat Js.nl (l :: l' :: lines))
    with (l +:+ Js.nl +:+ String.concat Js.nl (l' :: lines)).
  rewrite (split_line _ _ Hl), IH by discriminate. reflexivity.
Qed.

Lemma decisions_fold ds : ∀ acc,
  fold_left (λ decidedAgainst d, decidedAgainst ++ [Entry.text d]) ds acc
  = acc ++ map Entry.text ds.
Proof.
  induction ds as [|d ds IH]; intros acc; simpl; [by rewrite app_nil_r|].
  rewrite IH, <- app_assoc. reflexivity.
Qed.

Lemma collectScopes_elem entries s :
  s ∈ collectScopes entries → ∃ e, e ∈ entries ∧ s ∈ Entry.scope e.
Proof.
  unfold collectScopes, sortStrings. rewrite merge_sort_Permutation.
  destruct (scopes_fold entries []) as [_ Hin]. cbv zeta in Hin.
  rewrite Hin, elem_of_nil. tauto.
Qed.

(** X30: the decisions of a session come back as trailers.  The text that
    [formatTrailerHints] makes of [decisionsToTrailers(entries)], split
    into lines and read by [parseTrailers], gives under the key
    [decided-against] the trimmed texts of the entries tagged [decision],
    in their order, when these texts are not blank and neither they nor
    the scopes contain a line break. *)
Theorem decisions_are_read_back_as_trailers entries :
  Forall (λ e, Forall (λ s, allChars Regex.dot s = true) (Entry.scope e))
    entries →
  Forall (λ e, isDecision e = true →
               Js.trim (Entry.text e) ≠ EmptyString
               ∧ allChars Regex.dot (Entry.text e) = true)
    entries →
  parseTrailers
    (Js.split Js.LF (formatTrailerHints (decisionsToTrailers entries)))
    !! "decided-against"
  = match List.filter isDecision entries with
    | [] => None
    | ds => Some (map (λ d, Js.trim (Entry.text d)) ds)
    end.
Proof.
  intros Hscopes Htexts.
  unfold formatTrailerHints, trailerHintLines, decisionsToTrailers.
  cbn [TrailerHints.scopes TrailerHints.decidedAgainst].
  rewrite decisions_fold, app_nil_l.
  set (scopeLines :=
         match collectScopes entries with
         | [] => []
         | _ => ["Scope: " +:+ Js.join ", " (collectScopes entries)]
         end).
  set (ds := List.filter isDecision entries).
  assert (Hds : Forall (λ d, Js.trim (Entry.text d) ≠ EmptyString
                             ∧ allChars Regex.dot (Entry.text d) = true) ds).
  { apply Forall_forall. intros d [Hd Hdec]%elem_of_List_filter.
    rewrite Forall_forall in Htexts. exact (Htexts d Hd Hdec). }
  clearbody ds. clear Htexts.
  assert (HscopeLines :
    Forall (λ l, allChars Regex.dot l = true) scopeLines
    ∧ omap (trailerValue "decided-against") scopeLines = []).
  { unfold scopeLines.
    destruct (collectScopes entries) as [|s0 ss] eqn:Hcs;
      [split; [constructor|reflexivity]|].
    split.
    - constructor; [|constructor]. rewrite allChars_app.
      apply andb_true_iff. split; [reflexivity|].
      apply allChars_join; [reflexivity|].
      apply Forall_forall. intros s Hs. rewrite <- Hcs in Hs.
      apply collectScopes_elem in Hs as (e & He & Hs).
      rewrite Forall_forall in Hscopes. specialize (Hscopes e He).
      rewrite Forall_forall in Hscopes. exact (Hscopes s Hs).
    - csimpl. rewrite trailerValue_scope_line. reflexivity. }
  destruct HscopeLines as [Hdot Hnone]. clearbody scopeLines.
  assert (Hlines :
    Forall (λ l, allChars Regex.dot l = true)
      (map (λ da, "Decided-Against: " +:+ da) (map Entry.text ds))
    ∧ omap (trailerValue "decided-against")
        (map (λ da, "Decided-Against: " +:+ da) (map Entry.text ds))
      = map (λ d, Js.trim (Entry.text d)) ds).
  { induction Hds as [|d ds [Hne Hd] _ [IH1 IH2]];
      [split; [constructor|reflexivity]|].
    split.
    - constructor; [|exact IH1]. rewrite allChars_app, Hd. reflexivity.
    - csimpl. rewrite (trailerValue_decision _ Hne Hd), IH2. reflexivity. }
  destruct Hlines as [Hdot' Hvalues].
  set (lines := scopeLines ++
                map (λ da, "Decided-Against: " +:+ da) (map Entry.text ds)).
  assert (Hall : Forall (λ l, allChars Regex.dot l = true) lines).
  { apply Forall_app. auto. }
  assert (Homap : omap (trailerValue "decided-against") lines
                  = map (λ d, Js.trim (Entry.text d)) ds).
  { unfold lines. rewrite omap_app, Hnone, Hvalues. reflexivity. }
  unfold parseTrailers.
  rewrite parseTrailers_fold by (intros k vs; rewrite lookup_empty; discriminate).
  rewrite lookup_empty. cbn [default app].
  change (knownTrailerKey "decided-against") with true. cbv iota.
  destruct (decide (lines = [])) as [Hnil|Hne].
  - rewrite Hnil in *. 
    change (Js.split Js.LF (Js.join Js.nl [])) with [EmptyString].
    destruct ds; [reflexivity|discriminate Homap].
  - rewrite (split_join_lines lines Hall Hne), Homap.
    destruct ds; reflexivity.
Qed.


Lemma decisions_are_read_back_as_trailers_witness :
  parseTrailers
    (Js.split Js.LF
       (formatTrailerHints (decisionsToTrailers (map snd exampleItems))))
    !! "decided-against"
  = Some ["Redis for sessions"].
Proof.
  apply (decisions_are_read_back_as_trailers (map snd exampleItems)).
  - repeat constructor.
  - constructor; [intros [=]|].
    constructor; [|constructor].
    intros _. split; [discriminate|reflexivity].
Defined.

Example formatTrailerHints_example :
  formatTrailerHints (decisionsToTrailers (map snd exampleItems))
  = "Scope: auth, cache" +:+ Js.nl +:+ "Decided-Against: Redis for sessions".
Proof. vm_compute. reflexivity. Qed.
